(** * Process and memory simulator (script.js): allocator and tick engine

    A shallow embedding of the simulation core of [script.js]: the
    [MemoryManager] class (first-fit allocation, release with coalescing)
    and the tick engine with its queues, together with the properties the
    design document states about them.

    JavaScript numbers that the program only ever uses as integers are
    modelled as [Z]; the values that can be [NaN] (the result of
    [parseInt], a subtraction with [undefined]) are modelled by [JsNum].
    Integer arithmetic is what the doubles of JavaScript compute as long as
    the numbers are safe integers, which the simulator's are (a capacity of
    1024 and requests of at most 300); for the allocator on its own, whose
    capacity is a parameter, the rounding of doubles is written out in
    [Doubles] and the two are proved to agree on safe capacities.
    A [Map] keyed by pid is a [gmap Z _]; arrays are lists, indexed with
    stdpp's lookup, [delete] (for [splice(i, 1)]) and insert. *)

From stdpp Require Import gmap list sorting.
From Stdlib Require Import ZArith Lia.

Open Scope Z_scope.

(** A memory block [[start, size]], as the two-element arrays of the source. *)
Abbreviation Block := (Z * Z)%type.

(** ** class MemoryManager *)
Module Alloc.

Record MemoryManager : Type := mkMM {
  total : Z;                (* this.total *)
  free : list Block;        (* this.free: list of [start, size] *)
  allocs : gmap Z Block     (* this.allocs: Map pid -> [start, size] *)
}.

(** [constructor(total)] *)
Definition new (tot : Z) : MemoryManager :=
  {| total := tot; free := [(0, tot)]; allocs := ∅ |}.

(** [firstFitAllocate(pid, size)]: the [for] loop returns at the first index
    whose interval has [sz >= size]; [list_find] is that search.  The result
    is the returned array (or [None] for [null]) and the manager after the
    call. *)
Definition firstFitAllocate (pid size : Z) (m : MemoryManager)
  : option Block * MemoryManager :=
  match list_find (λ b : Block, size ≤ b.2) (free m) with
  | Some (idx, (start, sz)) =>
      let allocStart := start in
      let allocs' := <[pid := (allocStart, size)]> (allocs m) in
      let free' :=
        if decide (sz = size) then delete idx (free m)
        else <[idx := (start + size, sz - size)]> (free m) in
      (Some (allocStart, size),
       {| total := total m; free := free'; allocs := allocs' |})
  | None => (None, m)
  end.

(** [this.free.sort((a, b) => a[0] - b[0])]: [Array.prototype.sort] is a
    stable sort, and on a consistent comparator every stable sort returns
    the same array; it is written here as a stable insertion sort. *)
Fixpoint insert_by_start (b : Block) (l : list Block) : list Block :=
  match l with
  | [] => [b]
  | c :: r => if decide (b.1 ≤ c.1) then b :: c :: r else c :: insert_by_start b r
  end.

Definition sort_by_start (l : list Block) : list Block :=
  foldr insert_by_start [] l.

(** One iteration of the [for (const [s, sz] of this.free)] loop of
    [freeAlloc], on the array [merged] built so far. *)
Definition merge_step (merged : list Block) (b : Block) : list Block :=
  let '(s, sz) := b in
  match last merged with
  | None => [(s, sz)]
  | Some (lastS, lastSz) =>
      if decide (lastS + lastSz = s)
      then <[pred (length merged) := (lastS, lastSz + sz)]> merged
      else merged ++ [(s, sz)]
  end.

Definition merge_adjacent (l : list Block) : list Block :=
  foldl merge_step [] l.

(** [freeAlloc(pid)] *)
Definition freeAlloc (pid : Z) (m : MemoryManager) : MemoryManager :=
  match allocs m !! pid with
  | None => m
  | Some (start, size) =>
      let allocs' := delete pid (allocs m) in
      let pushed := free m ++ [(start, size)] in
      let sorted := sort_by_start pushed in
      {| total := total m; free := merge_adjacent sorted; allocs := allocs' |}
  end.

(** [freeSpace()]: [this.free.reduce((total, [_, sz]) => total + sz, 0)] *)
Definition freeSpace (m : MemoryManager) : Z :=
  foldl (λ tot (b : Block), tot + b.2) 0 (free m).

(** The sum of the sizes of the blocks held in [allocs] (the source has no
    method for it; the design document calls it sum(allocation sizes)). *)
Definition allocatedSpace (m : MemoryManager) : Z :=
  map_fold (λ (_ : Z) (b : Block) acc, acc + b.2) 0 (allocs m).

(** *** Sequences of allocator calls *)
Inductive Call : Type :=
| CAlloc (pid size : Z)
| CFree (pid : Z).

Definition call (c : Call) (m : MemoryManager) : MemoryManager :=
  match c with
  | CAlloc pid size => (firstFitAllocate pid size m).2
  | CFree pid => freeAlloc pid m
  end.

Definition run (cs : list Call) (m : MemoryManager) : MemoryManager :=
  foldl (λ m c, call c m) m cs.

(** Every requested size is a positive integer (the data model's
    memory requirement). *)
Fixpoint positive_sizes (cs : list Call) : bool :=
  match cs with
  | [] => true
  | CAlloc _ size :: r => bool_decide (0 < size) && positive_sizes r
  | CFree _ :: r => positive_sizes r
  end.

(** No [firstFitAllocate] is issued for a pid that holds a block at that
    moment (the simulator allocates once per process id). *)
Fixpoint fresh_pids (cs : list Call) (m : MemoryManager) : bool :=
  match cs with
  | [] => true
  | c :: r =>
      match c with
      | CAlloc pid _ => bool_decide (allocs m !! pid = None)
      | CFree _ => true
      end && fresh_pids r (call c m)
  end.

(** The addresses of a block, and overlap of two blocks. *)
Definition in_block (b : Block) (x : Z) : Prop := b.1 ≤ x < b.1 + b.2.
Definition overlap (a b : Block) : Prop := ∃ x, in_block a x ∧ in_block b x.

(** Allocated and free regions are pairwise disjoint. *)
Definition regions_disjoint (m : MemoryManager) : Prop :=
  (∀ p q a b, p ≠ q → allocs m !! p = Some a → allocs m !! q = Some b → ¬ overlap a b)
  ∧ (∀ p i a f, allocs m !! p = Some a → free m !! i = Some f → ¬ overlap a f)
  ∧ (∀ (i j : nat) f g, i ≠ j → free m !! i = Some f → free m !! j = Some g → ¬ overlap f g).

(** The free list is sorted by start address. *)
Definition sorted_by_start (l : list Block) : Prop :=
  ∀ (i j : nat) f g, (i < j)%nat → l !! i = Some f → l !! j = Some g → f.1 < g.1.

(** No two intervals of the list are adjacent. *)
Definition no_adjacent (l : list Block) : Prop :=
  ∀ (i j : nat) f g, i ≠ j → l !! i = Some f → l !! j = Some g → f.1 + f.2 ≠ g.1.

(** *** Representation invariant of a manager

    [ordered R l]: every interval of [l] has a positive size and ends
    ([R]-)before each later interval starts.  With [R := Z.lt] the list is
    sorted and fully coalesced; with [R := Z.le] it is sorted, with touching
    neighbours allowed (the list between the sort and the merge pass). *)
Definition ends_before (R : Z → Z → Prop) (a b : Block) : Prop := R (a.1 + a.2) b.1.

Definition ordered (R : Z → Z → Prop) (l : list Block) : Prop :=
  StronglySorted (ends_before R) l ∧ Forall (λ b : Block, 0 < b.2) l.

(** Two blocks that do not share an address (for blocks of positive size). *)
Definition apart (a b : Block) : Prop := a.1 + a.2 ≤ b.1 ∨ b.1 + b.2 ≤ a.1.

Record Inv (m : MemoryManager) : Prop := {
  inv_free : ordered Z.lt (free m);
  inv_alloc_pos : ∀ p a, allocs m !! p = Some a → 0 < a.2;
  inv_alloc_free : ∀ p a, allocs m !! p = Some a → Forall (apart a) (free m);
  inv_alloc_alloc : ∀ p q a b, p ≠ q →
    allocs m !! p = Some a → allocs m !! q = Some b → apart a b
}.

(** The merge pass as a recursion on the rest of the input, with the last
    element of [merged] carried in [cur]. *)
Fixpoint merge_from (cur : Block) (rest : list Block) : list Block :=
  match rest with
  | [] => [cur]
  | b :: r =>
      if decide (cur.1 + cur.2 = b.1) then merge_from (cur.1, cur.2 + b.2) r
      else cur :: merge_from b r
  end.

Definition sizes_sum (l : list Block) : Z := foldr (λ (b : Block) acc, b.2 + acc) 0 l.

End Alloc.

(** ** The allocator in double precision

    [Alloc] computes [start + size], [sz - size], [lastS + lastSz] and
    [lastSz + sz] as integers; JavaScript computes them as IEEE 754
    doubles.  On integers of magnitude up to [2^53] the two agree; above,
    a sum or a difference is rounded to the nearest double, ties going to
    the even significand.  [Doubles] is the class with that rounding
    written out, on the same records. *)

(** [Number.MAX_SAFE_INTEGER] and [Number.isSafeInteger]. *)
Definition MAX_SAFE_INTEGER : Z := 2 ^ 53 - 1.
Definition safe_integer (z : Z) : Prop := - MAX_SAFE_INTEGER ≤ z ≤ MAX_SAFE_INTEGER.

(** The double nearest to the integer [z]: the value of a sum or a
    difference of two integer doubles whose exact result is [z].  Between
    [2^k] and [2^(k+1)] with [k >= 53] the doubles are the multiples of
    [2^(k-52)].  (Beyond the largest double, about [1.8e308], JavaScript
    gives [Infinity]; no number that large occurs below.) *)
Definition round_double (z : Z) : Z :=
  if decide (Z.abs z ≤ 2 ^ 53) then z
  else
    let ulp := 2 ^ (Z.log2 (Z.abs z) - 52) in
    let q := Z.abs z / ulp in
    let r := Z.abs z mod ulp in
    let q' := if decide (2 * r < ulp) then q
              else if decide (ulp < 2 * r) then q + 1
              else if Z.even q then q else q + 1 in
    Z.sgn z * (q' * ulp).

Module Doubles.
Import Alloc.

(** [firstFitAllocate(pid, size)] *)
Definition firstFitAllocate (pid size : Z) (m : MemoryManager)
  : option Block * MemoryManager :=
  match list_find (λ b : Block, size ≤ b.2) (free m) with
  | Some (idx, (start, sz)) =>
      let allocStart := start in
      let allocs' := <[pid := (allocStart, size)]> (allocs m) in
      let free' :=
        if decide (sz = size) then delete idx (free m)
        else <[idx := (round_double (start + size), round_double (sz - size))]> (free m) in
      (Some (allocStart, size),
       {| total := total m; free := free'; allocs := allocs' |})
  | None => (None, m)
  end.

(** The sort of [freeAlloc], with the comparator [(a, b) => a[0] - b[0]]. *)
Fixpoint insert_by_start (b : Block) (l : list Block) : list Block :=
  match l with
  | [] => [b]
  | c :: r =>
      if decide (round_double (b.1 - c.1) ≤ 0) then b :: c :: r
      else c :: insert_by_start b r
  end.

Definition sort_by_start (l : list Block) : list Block :=
  foldr insert_by_start [] l.

(** One iteration of the merge loop of [freeAlloc]. *)
Definition merge_step (merged : list Block) (b : Block) : list Block :=
  let '(s, sz) := b in
  match last merged with
  | None => [(s, sz)]
  | Some (lastS, lastSz) =>
      if decide (round_double (lastS + lastSz) = s)
      then <[pred (length merged) := (lastS, round_double (lastSz + sz))]> merged
      else merged ++ [(s, sz)]
  end.

Definition merge_adjacent (l : list Block) : list Block :=
  foldl merge_step [] l.

(** [freeAlloc(pid)] *)
Definition freeAlloc (pid : Z) (m : MemoryManager) : MemoryManager :=
  match allocs m !! pid with
  | None => m
  | Some (start, size) =>
      let allocs' := delete pid (allocs m) in
      let pushed := free m ++ [(start, size)] in
      let sorted := sort_by_start pushed in
      {| total := total m; free := merge_adjacent sorted; allocs := allocs' |}
  end.

(** [freeSpace()] *)
Definition freeSpace (m : MemoryManager) : Z :=
  foldl (λ tot (b : Block), round_double (tot + b.2)) 0 (free m).

Definition call (c : Call) (m : MemoryManager) : MemoryManager :=
  match c with
  | CAlloc pid size => (firstFitAllocate pid size m).2
  | CFree pid => freeAlloc pid m
  end.

Definition run (cs : list Call) (m : MemoryManager) : MemoryManager :=
  foldl (λ m c, call c m) m cs.

(** No [firstFitAllocate] is issued for a pid that holds a block at that
    moment. *)
Fixpoint fresh_pids (cs : list Call) (m : MemoryManager) : bool :=
  match cs with
  | [] => true
  | c :: r =>
      match c with
      | CAlloc pid _ => bool_decide (allocs m !! pid = None)
      | CFree _ => true
      end && fresh_pids r (call c m)
  end.

End Doubles.

(** ** JavaScript numbers that may be NaN *)
Inductive JsNum : Type :=
| Num (z : Z)
| NaN.

(** [x - y], [x + y], [x <= y], [x < y], [x > y] on such numbers: arithmetic
    with NaN is NaN and every comparison with NaN is false. *)
Definition js_sub (x y : JsNum) : JsNum :=
  match x, y with Num a, Num b => Num (a - b) | _, _ => NaN end.
Definition js_add (x y : JsNum) : JsNum :=
  match x, y with Num a, Num b => Num (a + b) | _, _ => NaN end.
Definition js_le (x y : JsNum) : bool :=
  match x, y with Num a, Num b => bool_decide (a ≤ b) | _, _ => false end.
Definition js_lt (x y : JsNum) : bool :=
  match x, y with Num a, Num b => bool_decide (a < b) | _, _ => false end.
Definition js_gt (x y : JsNum) : bool := js_lt y x.

(** ** The simulation *)
Module Sim.

(** The [CONFIG] object (the probabilities are represented by the draws of
    [Draws] below; [TICK_MS] only drives the timer). *)
Record Config : Type := mkConfig {
  MEM_TOTAL : Z;
  MIN_PROC_MEM : Z;
  MAX_PROC_MEM : Z;
  MIN_CPU_BURST : Z;
  MAX_CPU_BURST : Z;
  MIN_IO : Z;
  MAX_IO : Z;
  TIME_QUANTUM : Z
}.

(** The values [CONFIG] is initialised with. *)
Definition CONFIG : Config :=
  {| MEM_TOTAL := 1024; MIN_PROC_MEM := 20; MAX_PROC_MEM := 300;
     MIN_CPU_BURST := 3; MAX_CPU_BURST := 15; MIN_IO := 2; MAX_IO := 6;
     TIME_QUANTUM := 3 |}.

(** The strings assigned to [Process.state]. *)
Inductive ProcState : Type :=
| Nuevo | Listo | Ejecutando | Bloqueado | EsperandoMem.

(** The values assigned to [Process.memBlock]: [null], the array returned by
    the allocator, or the placeholder [true] of [processMemoryQueue]. *)
Inductive MemRef : Type :=
| MemNull
| MemBlk (b : Block)
| MemTrue.

(** [if (p.memBlock)]: [null] is falsy, an array and [true] are truthy. *)
Definition truthy (r : MemRef) : bool :=
  match r with MemNull => false | _ => true end.

Record Process : Type := mkProcess {
  pid : Z;
  memReq : JsNum;
  totalCpu : JsNum;
  remainingCpu : JsNum;
  state : ProcState;
  memBlock : MemRef;
  quantumLeft : Z;
  ioRemaining : Z
}.

Definition set_remainingCpu (v : JsNum) (p : Process) : Process :=
  {| pid := pid p;
     memReq := memReq p;
     totalCpu := totalCpu p;
     remainingCpu := v;
     state := state p;
     memBlock := memBlock p;
     quantumLeft := quantumLeft p;
     ioRemaining := ioRemaining p |}.

Definition set_state (v : ProcState) (p : Process) : Process :=
  {| pid := pid p;
     memReq := memReq p;
     totalCpu := totalCpu p;
     remainingCpu := remainingCpu p;
     state := v;
     memBlock := memBlock p;
     quantumLeft := quantumLeft p;
     ioRemaining := ioRemaining p |}.

Definition set_memBlock (v : MemRef) (p : Process) : Process :=
  {| pid := pid p;
     memReq := memReq p;
     totalCpu := totalCpu p;
     remainingCpu := remainingCpu p;
     state := state p;
     memBlock := v;
     quantumLeft := quantumLeft p;
     ioRemaining := ioRemaining p |}.

Definition set_quantumLeft (v : Z) (p : Process) : Process :=
  {| pid := pid p;
     memReq := memReq p;
     totalCpu := totalCpu p;
     remainingCpu := remainingCpu p;
     state := state p;
     memBlock := memBlock p;
     quantumLeft := v;
     ioRemaining := ioRemaining p |}.

Definition set_ioRemaining (v : Z) (p : Process) : Process :=
  {| pid := pid p;
     memReq := memReq p;
     totalCpu := totalCpu p;
     remainingCpu := remainingCpu p;
     state := state p;
     memBlock := memBlock p;
     quantumLeft := quantumLeft p;
     ioRemaining := v |}.

(** The module-level variables of the script. *)
Record Sim : Type := mkSim {
  isRunning : bool;  (* let isRunning *)
  PID_COUNTER : Z;  (* let PID_COUNTER *)
  tickCount : Z;  (* let tickCount *)
  completedProcesses : Z;  (* let completedProcesses *)
  totalWaitTime : JsNum;  (* let totalWaitTime *)
  contextSwitches : Z;  (* let contextSwitches *)
  totalProcessesCreated : Z;  (* let totalProcessesCreated *)
  processStartTimes : gmap Z Z;  (* Map pid -> start tick *)
  processWaitTimes : gmap Z JsNum;  (* Map pid -> wait time *)
  processes : gmap Z Process;  (* Map pid -> Process *)
  readyQueue : list Z;  (* pids *)
  ioQueue : list Z;  (* pids blocked by IO *)
  waitingForMem : list Z;  (* pids waiting for memory *)
  currentRunning : option Z;  (* pid running, or null *)
  memoryManager : Alloc.MemoryManager  (* const memoryManager *)
}.

Definition set_isRunning (v : bool) (s : Sim) : Sim :=
  {| isRunning := v;
     PID_COUNTER := PID_COUNTER s;
     tickCount := tickCount s;
     completedProcesses := completedProcesses s;
     totalWaitTime := totalWaitTime s;
     contextSwitches := contextSwitches s;
     totalProcessesCreated := totalProcessesCreated s;
     processStartTimes := processStartTimes s;
     processWaitTimes := processWaitTimes s;
     processes := processes s;
     readyQueue := readyQueue s;
     ioQueue := ioQueue s;
     waitingForMem := waitingForMem s;
     currentRunning := currentRunning s;
     memoryManager := memoryManager s |}.

Definition set_PID_COUNTER (v : Z) (s : Sim) : Sim :=
  {| isRunning := isRunning s;
     PID_COUNTER := v;
     tickCount := tickCount s;
     completedProcesses := completedProcesses s;
     totalWaitTime := totalWaitTime s;
     contextSwitches := contextSwitches s;
     totalProcessesCreated := totalProcessesCreated s;
     processStartTimes := processStartTimes s;
     processWaitTimes := processWaitTimes s;
     processes := processes s;
     readyQueue := readyQueue s;
     ioQueue := ioQueue s;
     waitingForMem := waitingForMem s;
     currentRunning := currentRunning s;
     memoryManager := memoryManager s |}.

Definition set_tickCount (v : Z) (s : Sim) : Sim :=
  {| isRunning := isRunning s;
     PID_COUNTER := PID_COUNTER s;
     tickCount := v;
     completedProcesses := completedProcesses s;
     totalWaitTime := totalWaitTime s;
     contextSwitches := contextSwitches s;
     totalProcessesCreated := totalProcessesCreated s;
     processStartTimes := processStartTimes s;
     processWaitTimes := processWaitTimes s;
     processes := processes s;
     readyQueue := readyQueue s;
     ioQueue := ioQueue s;
     waitingForMem := waitingForMem s;
     currentRunning := currentRunning s;
     memoryManager := memoryManager s |}.

Definition set_completedProcesses (v : Z) (s : Sim) : Sim :=
  {| isRunning := isRunning s;
     PID_COUNTER := PID_COUNTER s;
     tickCount := tickCount s;
     completedProcesses := v;
     totalWaitTime := totalWaitTime s;
     contextSwitches := contextSwitches s;
     totalProcessesCreated := totalProcessesCreated s;
     processStartTimes := processStartTimes s;
     processWaitTimes := processWaitTimes s;
     processes := processes s;
     readyQueue := readyQueue s;
     ioQueue := ioQueue s;
     waitingForMem := waitingForMem s;
     currentRunning := currentRunning s;
     memoryManager := memoryManager s |}.

Definition set_totalWaitTime (v : JsNum) (s : Sim) : Sim :=
  {| isRunning := isRunning s;
     PID_COUNTER := PID_COUNTER s;
     tickCount := tickCount s;
     completedProcesses := completedProcesses s;
     totalWaitTime := v;
     contextSwitches := contextSwitches s;
     totalProcessesCreated := totalProcessesCreated s;
     processStartTimes := processStartTimes s;
     processWaitTimes := processWaitTimes s;
     processes := processes s;
     readyQueue := readyQueue s;
     ioQueue := ioQueue s;
     waitingForMem := waitingForMem s;
     currentRunning := currentRunning s;
     memoryManager := memoryManager s |}.

Definition set_contextSwitches (v : Z) (s : Sim) : Sim :=
  {| isRunning := isRunning s;
     PID_COUNTER := PID_COUNTER s;
     tickCount := tickCount s;
     completedProcesses := completedProcesses s;
     totalWaitTime := totalWaitTime s;
     contextSwitches := v;
     totalProcessesCreated := totalProcessesCreated s;
     processStartTimes := processStartTimes s;
     processWaitTimes := processWaitTimes s;
     processes := processes s;
     readyQueue := readyQueue s;
     ioQueue := ioQueue s;
     waitingForMem := waitingForMem s;
     currentRunning := currentRunning s;
     memoryManager := memoryManager s |}.

Definition set_totalProcessesCreated (v : Z) (s : Sim) : Sim :=
  {| isRunning := isRunning s;
     PID_COUNTER := PID_COUNTER s;
     tickCount := tickCount s;
     completedProcesses := completedProcesses s;
     totalWaitTime := totalWaitTime s;
     contextSwitches := contextSwitches s;
     totalProcessesCreated := v;
     processStartTimes := processStartTimes s;
     processWaitTimes := processWaitTimes s;
     processes := processes s;
     readyQueue := readyQueue s;
     ioQueue := ioQueue s;
     waitingForMem := waitingForMem s;
     currentRunning := currentRunning s;
     memoryManager := memoryManager s |}.

Definition set_processStartTimes (v : gmap Z Z) (s : Sim) : Sim :=
  {| isRunning := isRunning s;
     PID_COUNTER := PID_COUNTER s;
     tickCount := tickCount s;
     completedProcesses := completedProcesses s;
     totalWaitTime := totalWaitTime s;
     contextSwitches := contextSwitches s;
     totalProcessesCreated := totalProcessesCreated s;
     processStartTimes := v;
     processWaitTimes := processWaitTimes s;
     processes := processes s;
     readyQueue := readyQueue s;
     ioQueue := ioQueue s;
     waitingForMem := waitingForMem s;
     currentRunning := currentRunning s;
     memoryManager := memoryManager s |}.

Definition set_processWaitTimes (v : gmap Z JsNum) (s : Sim) : Sim :=
  {| isRunning := isRunning s;
     PID_COUNTER := PID_COUNTER s;
     tickCount := tickCount s;
     completedProcesses := completedProcesses s;
     totalWaitTime := totalWaitTime s;
     contextSwitches := contextSwitches s;
     totalProcessesCreated := totalProcessesCreated s;
     processStartTimes := processStartTimes s;
     processWaitTimes := v;
     processes := processes s;
     readyQueue := readyQueue s;
     ioQueue := ioQueue s;
     waitingForMem := waitingForMem s;
     currentRunning := currentRunning s;
     memoryManager := memoryManager s |}.

Definition set_processes (v : gmap Z Process) (s : Sim) : Sim :=
  {| isRunning := isRunning s;
     PID_COUNTER := PID_COUNTER s;
     tickCount := tickCount s;
     completedProcesses := completedProcesses s;
     totalWaitTime := totalWaitTime s;
     contextSwitches := contextSwitches s;
     totalProcessesCreated := totalProcessesCreated s;
     processStartTimes := processStartTimes s;
     processWaitTimes := processWaitTimes s;
     processes := v;
     readyQueue := readyQueue s;
     ioQueue := ioQueue s;
     waitingForMem := waitingForMem s;
     currentRunning := currentRunning s;
     memoryManager := memoryManager s |}.

Definition set_readyQueue (v : list Z) (s : Sim) : Sim :=
  {| isRunning := isRunning s;
     PID_COUNTER := PID_COUNTER s;
     tickCount := tickCount s;
     completedProcesses := completedProcesses s;
     totalWaitTime := totalWaitTime s;
     contextSwitches := contextSwitches s;
     totalProcessesCreated := totalProcessesCreated s;
     processStartTimes := processStartTimes s;
     processWaitTimes := processWaitTimes s;
     processes := processes s;
     readyQueue := v;
     ioQueue := ioQueue s;
     waitingForMem := waitingForMem s;
     currentRunning := currentRunning s;
     memoryManager := memoryManager s |}.

Definition set_ioQueue (v : list Z) (s : Sim) : Sim :=
  {| isRunning := isRunning s;
     PID_COUNTER := PID_COUNTER s;
     tickCount := tickCount s;
     completedProcesses := completedProcesses s;
     totalWaitTime := totalWaitTime s;
     contextSwitches := contextSwitches s;
     totalProcessesCreated := totalProcessesCreated s;
     processStartTimes := processStartTimes s;
     processWaitTimes := processWaitTimes s;
     processes := processes s;
     readyQueue := readyQueue s;
     ioQueue := v;
     waitingForMem := waitingForMem s;
     currentRunning := currentRunning s;
     memoryManager := memoryManager s |}.

Definition set_waitingForMem (v : list Z) (s : Sim) : Sim :=
  {| isRunning := isRunning s;
     PID_COUNTER := PID_COUNTER s;
     tickCount := tickCount s;
     completedProcesses := completedProcesses s;
     totalWaitTime := totalWaitTime s;
     contextSwitches := contextSwitches s;
     totalProcessesCreated := totalProcessesCreated s;
     processStartTimes := processStartTimes s;
     processWaitTimes := processWaitTimes s;
     processes := processes s;
     readyQueue := readyQueue s;
     ioQueue := ioQueue s;
     waitingForMem := v;
     currentRunning := currentRunning s;
     memoryManager := memoryManager s |}.

Definition set_currentRunning (v : option Z) (s : Sim) : Sim :=
  {| isRunning := isRunning s;
     PID_COUNTER := PID_COUNTER s;
     tickCount := tickCount s;
     completedProcesses := completedProcesses s;
     totalWaitTime := totalWaitTime s;
     contextSwitches := contextSwitches s;
     totalProcessesCreated := totalProcessesCreated s;
     processStartTimes := processStartTimes s;
     processWaitTimes := processWaitTimes s;
     processes := processes s;
     readyQueue := readyQueue s;
     ioQueue := ioQueue s;
     waitingForMem := waitingForMem s;
     currentRunning := v;
     memoryManager := memoryManager s |}.

Definition set_memoryManager (v : Alloc.MemoryManager) (s : Sim) : Sim :=
  {| isRunning := isRunning s;
     PID_COUNTER := PID_COUNTER s;
     tickCount := tickCount s;
     completedProcesses := completedProcesses s;
     totalWaitTime := totalWaitTime s;
     contextSwitches := contextSwitches s;
     totalProcessesCreated := totalProcessesCreated s;
     processStartTimes := processStartTimes s;
     processWaitTimes := processWaitTimes s;
     processes := processes s;
     readyQueue := readyQueue s;
     ioQueue := ioQueue s;
     waitingForMem := waitingForMem s;
     currentRunning := currentRunning s;
     memoryManager := v |}.

(** The outcome of a call: it returns, or it throws (a [TypeError]) and
    leaves the variables as they were at the throw. *)
Inductive Outcome : Type :=
| Returned (s : Sim)
| Threw (s : Sim).

Definition final (o : Outcome) : Sim :=
  match o with Returned s => s | Threw s => s end.

Definition and_then (o : Outcome) (k : Sim → Outcome) : Outcome :=
  match o with Returned s => k s | Threw s => Threw s end.

(** The random draws of one tick.  [spawn]: [None] when
    [Math.random() < CONFIG.NEW_PROC_PROB] is false, else the two
    [randomInt] results (memory, burst).  [io]: [None] when
    [Math.random() < CONFIG.IO_PROB] is false, else the [randomInt] duration. *)
Record Draws : Type := mkDraws {
  spawn : option (Z * Z);
  io : option Z
}.

(** A method of [memoryManager] as the retry loops call it: pid, size, the
    manager; the returned value is truthy exactly when it is [Some]. *)
Definition AllocMethod : Type :=
  Z → JsNum → Alloc.MemoryManager → option Block * Alloc.MemoryManager.

(** [memoryManager.firstFitAllocate(pid, size)] with a size that may be NaN:
    [sz >= NaN] is false for every interval, so the scan finds nothing and
    returns [null]. *)
Definition firstFitAllocateN : AllocMethod := λ pid size m,
  match size with
  | Num z => Alloc.firstFitAllocate pid z m
  | NaN => (None, m)
  end.

(** [memoryManager.alloc]: class [MemoryManager] declares [constructor],
    [firstFitAllocate], [freeAlloc], [usedBlocks], [freeSpace],
    [calculateFragmentation] and [debug], and nothing adds a property to
    it or to its prototype; the property read gives [undefined], and calling
    it throws. *)
Definition MemoryManager_alloc : option AllocMethod := None.

(** [waitingForMem.indexOf(wpid)] followed by [splice(index, 1)] when the
    index is not [-1]. *)
Definition remove_first (x : Z) (l : list Z) : list Z :=
  match list_find (λ y, y = x) l with
  | Some (index, _) => delete index l
  | None => l
  end.

Section WithConfig.
Variable cfg : Config.

(** [new Process(memReq, cpuBurst)], with the [nextPid()] it calls. *)
Definition newProcess (memReq cpuBurst : JsNum) (s : Sim) : Process * Sim :=
  ({| pid := PID_COUNTER s; memReq := memReq; totalCpu := cpuBurst;
      remainingCpu := cpuBurst; state := Nuevo; memBlock := MemNull;
      quantumLeft := TIME_QUANTUM cfg; ioRemaining := 0 |},
   set_PID_COUNTER (PID_COUNTER s + 1) s).

(** [tryAllocateAndEnqueue(proc)]; [proc] is the object stored in
    [processes] under [proc.pid]. *)
Definition tryAllocateAndEnqueue (proc : Process) (s : Sim) : Sim :=
  match firstFitAllocateN (pid proc) (memReq proc) (memoryManager s) with
  | (Some alloc, mm) =>
      let proc := set_state Listo (set_memBlock (MemBlk alloc) proc) in
      set_readyQueue (readyQueue s ++ [pid proc])
        (set_processes (<[pid proc := proc]> (processes s))
           (set_memoryManager mm s))
  | (None, mm) =>
      let proc := set_state EsperandoMem proc in
      set_waitingForMem (waitingForMem s ++ [pid proc])
        (set_processes (<[pid proc := proc]> (processes s))
           (set_memoryManager mm s))
  end.

(** [maybeCreateRandomProcess()] *)
Definition maybeCreateRandomProcess (d : Draws) (s : Sim) : Sim :=
  match spawn d with
  | Some (memReq, cpuBurst) =>
      let '(p, s) := newProcess (Num memReq) (Num cpuBurst) s in
      let p := set_state Nuevo p in
      let s := set_processes (<[pid p := p]> (processes s)) s in
      let s := set_processStartTimes (<[pid p := tickCount s]> (processStartTimes s)) s in
      let s := set_totalProcessesCreated (totalProcessesCreated s + 1) s in
      tryAllocateAndEnqueue p s
  | None => s
  end.

(** [addRandomProcess()], on its two [randomInt] results. *)
Definition addRandomProcess (memReq cpuBurst : Z) (s : Sim) : Sim :=
  let '(p, s) := newProcess (Num memReq) (Num cpuBurst) s in
  let p := set_state Nuevo p in
  let s := set_processes (<[pid p := p]> (processes s)) s in
  let s := set_processStartTimes (<[pid p := tickCount s]> (processStartTimes s)) s in
  let s := set_totalProcessesCreated (totalProcessesCreated s + 1) s in
  tryAllocateAndEnqueue p s.

(** [createManualProcess()], on the two [parseInt] results; a rejected
    input only shows a toast, and the closing [updateGUI()] only renders. *)
Definition createManualProcess (memReq cpuBurst : JsNum) (s : Sim) : Sim :=
  if js_lt memReq (Num (MIN_PROC_MEM cfg)) || js_gt memReq (Num (MAX_PROC_MEM cfg))
  then s
  else if js_lt cpuBurst (Num (MIN_CPU_BURST cfg)) || js_gt cpuBurst (Num (MAX_CPU_BURST cfg))
  then s
  else
    let '(p, s) := newProcess memReq cpuBurst s in
    let p := set_state Nuevo p in
    let s := set_processes (<[pid p := p]> (processes s)) s in
    let s := set_processStartTimes (<[pid p := tickCount s]> (processStartTimes s)) s in
    let s := set_totalProcessesCreated (totalProcessesCreated s + 1) s in
    tryAllocateAndEnqueue p s.

(** The loop of [freeMemoryAndAwaken] over the copy [toTry]. *)
Fixpoint awaken_loop (toTry : list Z) (s : Sim) : Sim :=
  match toTry with
  | [] => s
  | wpid :: rest =>
      match processes s !! wpid with
      | None =>
          awaken_loop rest (set_waitingForMem (remove_first wpid (waitingForMem s)) s)
      | Some p =>
          match firstFitAllocateN (pid p) (memReq p) (memoryManager s) with
          | (Some alloc, mm) =>
              let p := set_state Listo (set_memBlock (MemBlk alloc) p) in
              awaken_loop rest
                (set_readyQueue (readyQueue s ++ [wpid])
                   (set_waitingForMem (remove_first wpid (waitingForMem s))
                      (set_processes (<[wpid := p]> (processes s))
                         (set_memoryManager mm s))))
          | (None, mm) => set_memoryManager mm s
          end
      end
  end.

(** [freeMemoryAndAwaken(pid)] *)
Definition freeMemoryAndAwaken (pid : Z) (s : Sim) : Sim :=
  let s := set_memoryManager (Alloc.freeAlloc pid (memoryManager s)) s in
  awaken_loop (waitingForMem s) s.

(** The loop of [processMemoryQueue], for [i] from [n - 1] down to [0];
    [allocm] is the value of [memoryManager.alloc]. *)
Fixpoint processMemoryQueue_loop (allocm : option AllocMethod) (n : nat) (s : Sim)
  : Outcome :=
  match n with
  | O => Returned s
  | S i =>
      match waitingForMem s !! i ≫= (λ pid, processes s !! pid) with
      | None => Threw s                       (* [p.pid] on [undefined] *)
      | Some p =>
          match allocm with
          | None => Threw s                   (* not a function *)
          | Some alloc =>
              match alloc (pid p) (memReq p) (memoryManager s), waitingForMem s !! i with
              | (Some _, mm), Some pid =>
                  let p := set_state Listo (set_memBlock MemTrue p) in
                  processMemoryQueue_loop allocm i
                    (set_waitingForMem (delete i (waitingForMem s))
                       (set_readyQueue (readyQueue s ++ [pid])
                          (set_processes (<[pid := p]> (processes s))
                             (set_memoryManager mm s))))
              | (_, mm), _ =>
                  processMemoryQueue_loop allocm i (set_memoryManager mm s)
              end
          end
      end
  end.

Definition processMemoryQueue_with (allocm : option AllocMethod) (s : Sim) : Outcome :=
  processMemoryQueue_loop allocm (length (waitingForMem s)) s.

(** [processMemoryQueue()] *)
Definition processMemoryQueue : Sim → Outcome :=
  processMemoryQueue_with MemoryManager_alloc.

(** [terminateProcess(pid)] *)
Definition terminateProcess_with (allocm : option AllocMethod) (pid : Z) (s : Sim)
  : Outcome :=
  match processes s !! pid with
  | None => Threw s                           (* [p.memBlock] on [undefined] *)
  | Some p =>
      let s :=
        if truthy (memBlock p)
        then set_memoryManager (Alloc.freeAlloc pid (memoryManager s)) s
        else s in
      let s := set_completedProcesses (completedProcesses s + 1) s in
      let waitTime :=
        js_sub (Num (tickCount s))
               (from_option Num NaN (processStartTimes s !! pid)) in
      let s := set_totalWaitTime (js_add (totalWaitTime s) waitTime) s in
      let s := set_processWaitTimes (<[pid := waitTime]> (processWaitTimes s)) s in
      let s := set_processes (delete pid (processes s)) s in
      let s := set_processStartTimes (delete pid (processStartTimes s)) s in
      let s := set_currentRunning None s in
      processMemoryQueue_with allocm s
  end.

Definition terminateProcess : Z → Sim → Outcome :=
  terminateProcess_with MemoryManager_alloc.

(** The "Progress IO" loop of [tick], for [i] from [n - 1] down to [0]. *)
Fixpoint tick_io_loop (n : nat) (s : Sim) : Sim :=
  match n with
  | O => s
  | S i =>
      match ioQueue s !! i with
      | None => tick_io_loop i s   (* past the end: [!p], and the splice removes nothing *)
      | Some pid =>
          match processes s !! pid with
          | None => tick_io_loop i (set_ioQueue (delete i (ioQueue s)) s)
          | Some p =>
              let p := set_ioRemaining (ioRemaining p - 1) p in
              if bool_decide (ioRemaining p ≤ 0) then
                let p := set_quantumLeft (TIME_QUANTUM cfg) (set_state Listo p) in
                tick_io_loop i
                  (set_readyQueue (readyQueue s ++ [pid])
                     (set_processes (<[pid := p]> (processes s))
                        (set_ioQueue (delete i (ioQueue s)) s)))
              else
                tick_io_loop i (set_processes (<[pid := p]> (processes s)) s)
          end
      end
  end.

(** [schedule()] *)
Definition schedule (s : Sim) : Outcome :=
  match currentRunning s, readyQueue s with
  | None, pid :: rest =>
      let s := set_currentRunning (Some pid) (set_readyQueue rest s) in
      match processes s !! pid with
      | None => Threw s                       (* [p.state = ...] on [undefined] *)
      | Some p =>
          let p := set_quantumLeft (TIME_QUANTUM cfg) (set_state Ejecutando p) in
          Returned (set_processes (<[pid := p]> (processes s)) s)
      end
  | None, [] => Returned s
  | Some cur, _ :: _ => Returned s
  | Some cur, [] =>
      match processes s !! cur with
      | None => Threw s                       (* [p.quantumLeft = ...] on [undefined] *)
      | Some p =>
          let p := set_quantumLeft (TIME_QUANTUM cfg) p in
          Returned (set_processes (<[cur := p]> (processes s)) s)
      end
  end.

(** The "Execute one tick for running process" block of [tick]. *)
Definition tick_execute_with (allocm : option AllocMethod) (d : Draws) (s : Sim)
  : Outcome :=
  match currentRunning s with
  | None => Returned s
  | Some cur =>
      match processes s !! cur with
      | None => Returned (set_currentRunning None s)
      | Some p =>
          match io d with
          | Some duration =>
              let p := set_ioRemaining duration (set_state Bloqueado p) in
              Returned
                (set_currentRunning None
                   (set_ioQueue (ioQueue s ++ [pid p])
                      (set_processes (<[cur := p]> (processes s)) s)))
          | None =>
              let p := set_quantumLeft (quantumLeft p - 1)
                         (set_remainingCpu (js_sub (remainingCpu p) (Num 1)) p) in
              let s := set_processes (<[cur := p]> (processes s)) s in
              if js_le (remainingCpu p) (Num 0) then
                let s := freeMemoryAndAwaken (pid p) s in
                let s := set_currentRunning None s in
                terminateProcess_with allocm (pid p) s
              else if bool_decide (quantumLeft p ≤ 0)
                      && bool_decide (0 < length (readyQueue s))%nat then
                let p := set_quantumLeft (TIME_QUANTUM cfg) (set_state Listo p) in
                Returned
                  (set_currentRunning None
                     (set_readyQueue (readyQueue s ++ [pid p])
                        (set_processes (<[cur := p]> (processes s)) s)))
              else if bool_decide (length (readyQueue s) = 0%nat) then
                let p := set_quantumLeft (TIME_QUANTUM cfg) p in
                Returned (set_processes (<[cur := p]> (processes s)) s)
              else Returned s
          end
      end
  end.

(** The last loop of [tick] ("Try to allocate memory for waiting
    processes"), for [i] from [n - 1] down to [0]. *)
Fixpoint tick_retry_loop (allocm : option AllocMethod) (n : nat) (s : Sim) : Outcome :=
  match n with
  | O => Returned s
  | S i =>
      match waitingForMem s !! i ≫= (λ wpid, processes s !! wpid) with
      | None =>
          tick_retry_loop allocm i (set_waitingForMem (delete i (waitingForMem s)) s)
      | Some p =>
          match allocm with
          | None => Threw s                   (* not a function *)
          | Some alloc =>
              match alloc (pid p) (memReq p) (memoryManager s), waitingForMem s !! i with
              | (Some a, mm), Some wpid =>
                  let p := set_state Listo (set_memBlock (MemBlk a) p) in
                  tick_retry_loop allocm i
                    (set_readyQueue (readyQueue s ++ [wpid])
                       (set_processes (<[wpid := p]> (processes s))
                          (set_waitingForMem (delete i (waitingForMem s))
                             (set_memoryManager mm s))))
              | (_, mm), _ => tick_retry_loop allocm i (set_memoryManager mm s)
              end
          end
      end
  end.

Definition tick_retry_with (allocm : option AllocMethod) (s : Sim) : Outcome :=
  tick_retry_loop allocm (length (waitingForMem s)) s.

(** [tick()] up to the memory-retry loop: the counter, the spawn, the I/O
    loop, [schedule()] and the execution block. *)
Definition tick_phases_with (allocm : option AllocMethod) (d : Draws) (s : Sim)
  : Outcome :=
  let s := set_tickCount (tickCount s + 1) s in
  let s := maybeCreateRandomProcess d s in
  let s := tick_io_loop (length (ioQueue s)) s in
  and_then (schedule s) (tick_execute_with allocm d).

(** [tick()]; the closing [updateGUI()] only renders. *)
Definition tick_with (allocm : option AllocMethod) (d : Draws) (s : Sim) : Outcome :=
  and_then (tick_phases_with allocm d s) (tick_retry_with allocm).

Definition tick : Draws → Sim → Outcome := tick_with MemoryManager_alloc.

(** [processIOQueue()] (no caller), for [i] from [n - 1] down to [0]. *)
Fixpoint processIOQueue_loop (n : nat) (s : Sim) : Outcome :=
  match n with
  | O => Returned s
  | S i =>
      match ioQueue s !! i, ioQueue s !! i ≫= (λ pid, processes s !! pid) with
      | Some pid, Some p =>
          let p := set_ioRemaining (ioRemaining p - 1) p in
          if bool_decide (ioRemaining p ≤ 0) then
            let p := set_state Listo p in
            processIOQueue_loop i
              (set_readyQueue (readyQueue s ++ [pid])
                 (set_processes (<[pid := p]> (processes s))
                    (set_ioQueue (delete i (ioQueue s)) s)))
          else
            processIOQueue_loop i (set_processes (<[pid := p]> (processes s)) s)
      | _, _ => Threw s                       (* [p.ioRemaining--] on [undefined] *)
      end
  end.

Definition processIOQueue (s : Sim) : Outcome :=
  processIOQueue_loop (length (ioQueue s)) s.

(** [executeCurrentProcess()] (no caller); [ioDraw] as [io] of [Draws]. *)
Definition executeCurrentProcess_with (allocm : option AllocMethod)
    (ioDraw : option Z) (s : Sim) : Outcome :=
  match currentRunning s, currentRunning s ≫= (λ cur, processes s !! cur) with
  | Some cur, Some p =>
      let p := set_quantumLeft (quantumLeft p - 1)
                 (set_remainingCpu (js_sub (remainingCpu p) (Num 1)) p) in
      let s := set_processes (<[cur := p]> (processes s)) s in
      if js_le (remainingCpu p) (Num 0) then terminateProcess_with allocm cur s
      else if bool_decide (quantumLeft p ≤ 0) then
        let p := set_state Listo (set_quantumLeft (TIME_QUANTUM cfg) p) in
        Returned
          (set_contextSwitches (contextSwitches s + 1)
             (set_currentRunning None
                (set_readyQueue (readyQueue s ++ [cur])
                   (set_processes (<[cur := p]> (processes s)) s))))
      else
        match ioDraw with
        | Some duration =>
            let p := set_state Bloqueado (set_ioRemaining duration p) in
            Returned
              (set_contextSwitches (contextSwitches s + 1)
                 (set_currentRunning None
                    (set_ioQueue (ioQueue s ++ [cur])
                       (set_processes (<[cur := p]> (processes s)) s))))
        | None => Returned s
        end
  | _, _ => Threw s                           (* [p.remainingCpu--] on [undefined] *)
  end.

Definition executeCurrentProcess : option Z → Sim → Outcome :=
  executeCurrentProcess_with MemoryManager_alloc.

(** [scheduleNextProcess()] (no caller) *)
Definition scheduleNextProcess (s : Sim) : Outcome :=
  match readyQueue s with
  | [] => Returned s
  | pid :: rest =>
      let s := set_currentRunning (Some pid) (set_readyQueue rest s) in
      match processes s !! pid with
      | None => Threw s                       (* [p.state = ...] on [undefined] *)
      | Some p => Returned (set_processes (<[pid := set_state Ejecutando p]> (processes s)) s)
      end
  end.

(** [resetSimulation()]: the variables it assigns (the rest is the page). *)
Definition resetSimulation (s : Sim) : Sim :=
  {| isRunning := false;
     PID_COUNTER := 1;
     tickCount := 0;
     completedProcesses := 0;
     totalWaitTime := Num 0;
     contextSwitches := 0;
     totalProcessesCreated := 0;
     processStartTimes := ∅;
     processWaitTimes := ∅;
     processes := ∅;
     readyQueue := [];
     ioQueue := [];
     waitingForMem := [];
     currentRunning := None;
     memoryManager :=
       {| Alloc.total := Alloc.total (memoryManager s);
          Alloc.free := [(0, Alloc.total (memoryManager s))];
          Alloc.allocs := ∅ |} |}.

(** The variables as the script initialises them. *)
Definition initial : Sim :=
  {| isRunning := false;
     PID_COUNTER := 1;
     tickCount := 0;
     completedProcesses := 0;
     totalWaitTime := Num 0;
     contextSwitches := 0;
     totalProcessesCreated := 0;
     processStartTimes := ∅;
     processWaitTimes := ∅;
     processes := ∅;
     readyQueue := [];
     ioQueue := [];
     waitingForMem := [];
     currentRunning := None;
     memoryManager := Alloc.new (MEM_TOTAL cfg) |}.

(** [singleTick()] *)
Definition singleTick (d : Draws) (s : Sim) : Outcome :=
  if isRunning s then Returned s else tick d s.

(** The timer of [toggleSimulation]: [setInterval] calls [tick] again and
    again, whether or not an earlier call threw. *)
Definition run_ticks (ds : list Draws) (s : Sim) : Sim :=
  foldl (λ s d, final (tick d s)) s ds.

(** [calculateCPUUtilization()] *)
Definition calculateCPUUtilization (s : Sim) : Z :=
  if decide (tickCount s = 0) then 0
  else match currentRunning s with
       | Some _ => 100
       | None => if bool_decide (0 < length (readyQueue s))%nat then 50 else 0
       end.

End WithConfig.

(** *** Sample runs from the initial state *)

(** A tick that spawns a process of the given memory and burst, without
    I/O blocking, and a quiet tick. *)
Definition spawning (memReq cpuBurst : Z) : Draws :=
  {| spawn := Some (memReq, cpuBurst); io := None |}.
Definition quiet : Draws := {| spawn := None; io := None |}.

(** Three processes of 300 KB hold 900 of the 1024 KB. *)
Definition three_loaded : Sim :=
  run_ticks CONFIG [spawning 300 15; spawning 300 15; spawning 300 15] (initial CONFIG).

(** The quantum rule as the design document words it: a process that the
    execution block preempts keeps its exhausted quantum, which is reset
    only when the process is scheduled again. *)
Definition preemption_keeps_quantum (cfg : Config) (d : Draws) (s : Sim) : Prop :=
  ∀ cur p s' p',
    currentRunning s = Some cur → processes s !! cur = Some p →
    tick_execute_with cfg MemoryManager_alloc d s = Returned s' →
    processes s' !! cur = Some p' →
    state p = Ejecutando → state p' = Listo →
    quantumLeft p' = quantumLeft p - 1.

End Sim.

(** ** Further predicates used in the properties below *)
Module Props.
Import Alloc Sim.

(** A block inside the address space [[0, tot)]. *)
Definition inside (tot : Z) (b : Block) : Prop := 0 ≤ b.1 ∧ b.1 + b.2 ≤ tot.

Definition bounded (m : MemoryManager) : Prop :=
  Forall (inside (total m)) (free m)
  ∧ ∀ p a, allocs m !! p = Some a → inside (total m) a.

(** A block on which the double arithmetic of the allocator is exact, and
    a manager made of such blocks: capacity at most [MAX_SAFE_INTEGER],
    every block inside the address space and of size at least 0. *)
Definition safe_block (tot : Z) (b : Block) : Prop := inside tot b ∧ 0 ≤ b.2.

Definition safe_manager (m : MemoryManager) : Prop :=
  total m ≤ MAX_SAFE_INTEGER
  ∧ Forall (safe_block (total m)) (free m)
  ∧ ∀ p a, allocs m !! p = Some a → safe_block (total m) a.

(** What one iteration of the "Progress IO" loop of [tick] does to a
    blocked process. *)
Definition io_step (cfg : Config) (p : Process) : Process :=
  let p := set_ioRemaining (ioRemaining p - 1) p in
  if bool_decide (ioRemaining p ≤ 0)
  then set_quantumLeft (TIME_QUANTUM cfg) (set_state Listo p)
  else p.

(** The entry [k] of the I/O queue stays blocked after this tick, or wakes
    up on it. *)
Definition io_stays (s : Sim) (k : Z) : bool :=
  match processes s !! k with
  | Some p => bool_decide (1 < ioRemaining p)
  | None => false
  end.
Definition io_wakes (s : Sim) (k : Z) : bool :=
  match processes s !! k with
  | Some p => bool_decide (ioRemaining p ≤ 1)
  | None => false
  end.

(** A projection of the state that the queue phases of [tick] do not
    write: it ignores the process table, the queues, the CPU, the
    completion statistics, and a memory manager of the same capacity. *)
Class Frame {A : Type} (f : Sim → A) : Prop := {
  frame_processes v s : f (set_processes v s) = f s;
  frame_readyQueue v s : f (set_readyQueue v s) = f s;
  frame_ioQueue v s : f (set_ioQueue v s) = f s;
  frame_waitingForMem v s : f (set_waitingForMem v s) = f s;
  frame_currentRunning v s : f (set_currentRunning v s) = f s;
  frame_completedProcesses v s : f (set_completedProcesses v s) = f s;
  frame_totalWaitTime v s : f (set_totalWaitTime v s) = f s;
  frame_processWaitTimes v s : f (set_processWaitTimes v s) = f s;
  frame_processStartTimes v s : f (set_processStartTimes v s) = f s;
  frame_memoryManager v s :
    total v = total (memoryManager s) → f (set_memoryManager v s) = f s
}.

Global Instance tickCount_frame : Frame tickCount.
Proof. by split. Qed.
Global Instance PID_COUNTER_frame : Frame PID_COUNTER.
Proof. by split. Qed.
Global Instance totalProcessesCreated_frame : Frame totalProcessesCreated.
Proof. by split. Qed.
Global Instance isRunning_frame : Frame isRunning.
Proof. by split. Qed.
Global Instance capacity_frame : Frame (λ s, total (memoryManager s)).
Proof. by split. Qed.

(** [three_loaded] after a tick on which the running P1 blocks for one
    tick of I/O. *)
Definition one_blocked : Sim :=
  final (tick CONFIG {| spawn := None; io := Some 1 |} three_loaded).

(** *** Well-formed simulation states *)

(** Number of occurrences of a pid in a queue, and in all the places a
    process can be: the three queues and the CPU. *)
Definition count (k : Z) (l : list Z) : nat := length (filter (λ x, x = k) l).

Definition on_cpu (s : Sim) (k : Z) : nat :=
  if decide (currentRunning s = Some k) then 1 else 0.

Definition occurrences (s : Sim) (k : Z) : nat :=
  (count k (readyQueue s) + count k (ioQueue s) + count k (waitingForMem s)
   + on_cpu s k)%nat.

(** The place that the [state] of a process names. *)
Definition placed (s : Sim) (k : Z) (p : Process) : Prop :=
  match state p with
  | Listo => (0 < count k (readyQueue s))%nat
  | Bloqueado => (0 < count k (ioQueue s))%nat
  | EsperandoMem => (0 < count k (waitingForMem s))%nat
  | Ejecutando => currentRunning s = Some k
  | Nuevo => False
  end.

(** The block that [memBlock] refers to. *)
Definition block_of (r : MemRef) : option Block :=
  match r with MemBlk b => Some b | _ => None end.

(** The queue part of well-formedness. *)
Record queues_wf (s : Sim) : Prop := {
  (* a process is stored under its own pid, below the pid counter *)
  wf_pid : ∀ k p, processes s !! k = Some p → pid p = k ∧ k < PID_COUNTER s;
  (* a live process is in exactly one place, a dead pid in none *)
  wf_occ : ∀ k, occurrences s k
                = match processes s !! k with Some _ => 1%nat | None => 0%nat end;
  (* and that place is the one its state names *)
  wf_state : ∀ k p, processes s !! k = Some p → placed s k p
}.

(** The memory part, with an optional pid [c] whose block has just been
    released while its process is still in the table ([c = None]: no
    exception). *)
Record memory_wf (c : option Z) (s : Sim) : Prop := {
  (* the allocation map holds exactly the blocks of the live processes *)
  wf_alloc : ∀ k, c ≠ Some k →
               allocs (memoryManager s) !! k
               = processes s !! k ≫= (λ p, block_of (memBlock p));
  wf_released : ∀ k, c = Some k → allocs (memoryManager s) !! k = None;
  (* a waiting process holds no block *)
  wf_waiting : ∀ k p, processes s !! k = Some p →
                 state p = EsperandoMem → memBlock p = MemNull;
  (* every other process holds a block of the size it requires *)
  wf_holds : ∀ k p, processes s !! k = Some p →
               state p ≠ EsperandoMem →
               ∃ b, memBlock p = MemBlk b ∧ memReq p = Num b.2;
  (* a memory requirement is a positive number, or NaN *)
  wf_req : ∀ k p, processes s !! k = Some p →
             match memReq p with Num z => 0 < z | NaN => True end
}.


(** The allocator part: the representation invariant and conservation. *)
Definition allocator_wf (s : Sim) : Prop :=
  Inv (memoryManager s)
  ∧ freeSpace (memoryManager s) + allocatedSpace (memoryManager s)
    = total (memoryManager s).

Definition WF_except (c : option Z) (s : Sim) : Prop :=
  queues_wf s ∧ memory_wf c s ∧ allocator_wf s.

Definition WF (s : Sim) : Prop := WF_except None s.

(** Every pid but [x] is in the same places in [s'] as in [s]. *)
Definition same_places (s s' : Sim) (x : Z) : Prop :=
  ∀ k, k ≠ x →
    count k (readyQueue s') = count k (readyQueue s)
    ∧ count k (ioQueue s') = count k (ioQueue s)
    ∧ count k (waitingForMem s') = count k (waitingForMem s)
    ∧ (currentRunning s' = Some k ↔ currentRunning s = Some k).

(** A memory requirement that the allocator can be asked for. *)
Definition req_ok (r : JsNum) : Prop :=
  match r with Num z => 0 < z | NaN => True end.

(** A throw leaves a non-empty [waitingForMem] behind. *)
Definition throws_only_waiting (o : Outcome) : Prop :=
  match o with Returned _ => True | Threw s' => waitingForMem s' ≠ [] end.

(** All the places, one after the other. *)
Definition places (s : Sim) : list Z :=
  readyQueue s ++ ioQueue s ++ waitingForMem s ++ option_list (currentRunning s).

(** [toggleSimulation()]: the variable it assigns; the timer it starts or
    stops shows as [ETick] events, and [createInitialProcesses()] only logs. *)
Definition toggleSimulation (s : Sim) : Sim :=
  set_isRunning (negb (isRunning s)) s.

(** What the page can make the script do between two renderings. *)
Inductive Event : Type :=
| ETick (d : Draws)                       (* the timer, or [singleTick()] when paused *)
| EAddRandom (memReq cpuBurst : Z)        (* [addRandomProcess()] *)
| ECreateManual (memReq cpuBurst : JsNum) (* [createManualProcess()] *)
| EReset                                  (* [resetSimulation()] *)
| EToggle.                                (* [toggleSimulation()] *)

Definition step (cfg : Config) (e : Event) (s : Sim) : Sim :=
  match e with
  | ETick d => final (tick cfg d s)
  | EAddRandom m c => addRandomProcess cfg m c s
  | ECreateManual m c => createManualProcess cfg m c s
  | EReset => resetSimulation s
  | EToggle => toggleSimulation s
  end.

Definition run_events (cfg : Config) (es : list Event) (s : Sim) : Sim :=
  foldl (λ s e, step cfg e s) s es.

(** The [randomInt(min, max)] results of an event lie between the
    configured bounds. *)
Definition in_range (cfg : Config) (memReq : Z) : Prop :=
  MIN_PROC_MEM cfg ≤ memReq ≤ MAX_PROC_MEM cfg.

Definition drawn_in_range (cfg : Config) (e : Event) : Prop :=
  match e with
  | ETick d => match spawn d with Some (m, _) => in_range cfg m | None => True end
  | EAddRandom m _ => in_range cfg m
  | _ => True
  end.

(** [s'] has the CPU of [s], and the ready queue of [s] with entries
    pushed at its tail. *)
Definition pushes (s s' : Sim) : Prop :=
  currentRunning s' = currentRunning s
  ∧ ∃ added, readyQueue s' = readyQueue s ++ added.

(** A session on which the fourth process has to wait for memory, so that
    its ticks throw, followed by a manual and a random creation. *)
Definition sample_events : list Event :=
  [EToggle;
   ETick (spawning 300 15); ETick (spawning 300 15); ETick (spawning 300 15);
   ETick (spawning 300 15); ECreateManual (Num 100) (Num 5); EAddRandom 50 4;
   ETick quiet].


(** P1 (100 KB, burst 3) is on the CPU with one unit left to execute. *)
Definition last_unit_events : list Event :=
  [ETick (spawning 100 3); ETick quiet].
Definition last_unit : Sim := run_events CONFIG last_unit_events (initial CONFIG).

End Props.

Module AllocFacts.
Import Alloc.

Lemma list_find_split {A} (P : A → Prop) `{∀ x, Decision (P x)} (l : list A) i x :
  list_find P l = Some (i, x) →
  ∃ pre post, l = pre ++ x :: post ∧ length pre = i ∧ Forall (λ y, ¬ P y) pre ∧ P x.
Proof.
  intros (Hl & HP & Hpre)%list_find_Some.
  exists (take i l), (drop (S i) l).
  split; [by rewrite take_drop_middle|].
  split; [apply lookup_lt_Some in Hl; rewrite length_take; lia|].
  split; [|done].
  apply Forall_lookup. intros j y Hj.
  apply lookup_take_Some in Hj as [Hj Hlt]. eauto.
Qed.

Lemma ordered_nil R : ordered R [].
Proof. split; constructor. Qed.

Lemma ordered_cons R b l :
  ordered R (b :: l) ↔ 0 < b.2 ∧ Forall (ends_before R b) l ∧ ordered R l.
Proof.
  unfold ordered. rewrite StronglySorted_cons, Forall_cons. tauto.
Qed.

Lemma ordered_app R l1 l2 :
  ordered R (l1 ++ l2) ↔
    (∀ x1 x2, x1 ∈ l1 → x2 ∈ l2 → ends_before R x1 x2) ∧ ordered R l1 ∧ ordered R l2.
Proof.
  unfold ordered. rewrite StronglySorted_app, Forall_app. tauto.
Qed.

Lemma ordered_delete R pre x post :
  ordered R (pre ++ x :: post) → ordered R (pre ++ post).
Proof.
  rewrite !ordered_app, ordered_cons. intros (Hx & Hpre & _ & _ & Hpost).
  split_and!; [|done..]. intros x1 x2 H1 H2. apply Hx; [done|]. by right.
Qed.

Lemma ordered_shrink pre s sz post size :
  0 < size → size < sz →
  ordered Z.lt (pre ++ (s, sz) :: post) →
  ordered Z.lt (pre ++ (s + size, sz - size) :: post).
Proof.
  intros Hsize Hlt. rewrite !ordered_app, !ordered_cons.
  intros (Hx & Hpre & _ & Hfa & Hpost). split_and!; simpl; [|done|lia| |done].
  - intros x1 x2 H1 [->|H2]%elem_of_cons.
    + specialize (Hx x1 (s, sz) H1 (list_elem_of_here _ _)).
      unfold ends_before in *; simpl in *. lia.
    + apply Hx; [done|]. by right.
  - eapply Forall_impl; [exact Hfa|]. intros y. unfold ends_before; simpl. lia.
Qed.

(** Within an ordered list every two distinct positions are apart. *)
Lemma ordered_apart_others R pre x post :
  (∀ a b, R a b → a ≤ b) →
  ordered R (pre ++ x :: post) → Forall (apart x) (pre ++ post).
Proof.
  intros HR. rewrite ordered_app, ordered_cons. intros (Hx & Hpre & Hpos & Hfa & Hpost).
  apply Forall_app. split.
  - apply Forall_forall. intros y Hy. right.
    apply HR. apply (Hx y x Hy). by left.
  - eapply Forall_impl; [exact Hfa|]. intros y Hy. left. by apply HR.
Qed.

Lemma firstFitAllocate_inv pid size m :
  0 < size → Inv m → Inv (firstFitAllocate pid size m).2.
Proof.
  intros Hsize [Hfree Hpos Haf Haa]. unfold firstFitAllocate.
  destruct (list_find _ _) as [[idx [start sz]]|] eqn:Hfind; [|by split].
  apply list_find_split in Hfind as (pre & post & Hl & Hlen & Hpre & Hfit).
  simpl in Hfit.
  assert (Hothers : Forall (apart (start, sz)) (pre ++ post)).
  { rewrite Hl in Hfree. eapply ordered_apart_others; [|done]. intros; lia. }
  assert (Hfree' : ordered Z.lt
    (if decide (sz = size) then delete idx (free m)
     else <[idx := (start + size, sz - size)]> (free m))).
  { rewrite Hl, <- Hlen. destruct (decide (sz = size)) as [->|Hne].
    - rewrite delete_middle. rewrite Hl in Hfree. by eapply ordered_delete.
    - replace (length pre) with (length pre + 0)%nat by lia.
      rewrite insert_app_r. simpl. apply ordered_shrink; [lia..|by rewrite <- Hl]. }
  assert (Hin : ∀ f, f ∈ (if decide (sz = size) then delete idx (free m)
     else <[idx := (start + size, sz - size)]> (free m)) →
     f ∈ pre ++ post ∨ (f = (start + size, sz - size) ∧ size < sz)).
  { rewrite Hl, <- Hlen. destruct (decide (sz = size)) as [->|Hne]; intros f.
    - rewrite delete_middle. auto.
    - replace (length pre) with (length pre + 0)%nat by lia.
      rewrite insert_app_r. simpl. rewrite !elem_of_app, elem_of_cons.
      intros [?|[->|?]]; [auto| |auto]. right. split; [done|lia]. }
  assert (Hold : ∀ p a, allocs m !! p = Some a → apart a (start, sz) ∧ 0 < a.2).
  { intros p a Hp. split; [|by eapply Hpos].
    specialize (Haf p a Hp). rewrite Hl in Haf.
    rewrite Forall_app, Forall_cons in Haf. tauto. }
  split; simpl.
  - done.
  - intros p a. rewrite lookup_insert.
    destruct (decide (pid = p)); [intros [= <-]; simpl; lia|eauto].
  - intros p a. rewrite lookup_insert. destruct (decide (pid = p)).
    + intros [= <-]. apply Forall_forall. intros f [Hf|[-> ?]]%Hin.
      * rewrite Forall_forall in Hothers. specialize (Hothers f Hf).
        unfold apart in *; simpl in *. lia.
      * unfold apart; simpl. lia.
    + intros Hp. apply Forall_forall. intros f [Hf|[-> ?]]%Hin.
      * specialize (Haf p a Hp). rewrite Hl in Haf.
        rewrite Forall_forall in Haf. apply Haf.
        rewrite elem_of_app, elem_of_cons. rewrite elem_of_app in Hf. tauto.
      * destruct (Hold p a Hp) as [Hap ?]. unfold apart in *; simpl in *. lia.
  - intros p q a b Hpq. rewrite !lookup_insert.
    destruct (decide (pid = p)), (decide (pid = q)); subst; try done.
    + intros [= <-] Hq. destruct (Hold q b Hq) as [Hap ?]. unfold apart in *; simpl in *. lia.
    + intros Hp [= <-]. destruct (Hold p a Hp) as [Hap ?]. unfold apart in *; simpl in *. lia.
    + eauto.
Qed.


(** *** The sort of [freeAlloc] *)
Lemma insert_by_start_perm b l : insert_by_start b l ≡ₚ b :: l.
Proof.
  induction l as [|c r IH]; simpl; [done|].
  case_decide; [done|]. rewrite IH. apply Permutation_swap.
Qed.

Lemma sort_onto_perm acc l : foldr insert_by_start acc l ≡ₚ l ++ acc.
Proof.
  induction l as [|c r IH]; simpl; [done|].
  by rewrite insert_by_start_perm, IH.
Qed.

Lemma sort_by_start_push l b :
  sort_by_start (l ++ [b]) = foldr insert_by_start [b] l.
Proof. unfold sort_by_start. by rewrite foldr_app. Qed.

Lemma insert_by_start_ordered b l :
  0 < b.2 → Forall (apart b) l → ordered Z.le l → ordered Z.le (insert_by_start b l).
Proof.
  intros Hb. induction l as [|c r IH]; simpl; intros Hap Hord.
  - apply ordered_cons. split_and!; [done|constructor|apply ordered_nil].
  - apply Forall_cons in Hap as [Hc Hr].
    pose proof Hord as Hord'.
    apply ordered_cons in Hord as (Hcpos & Hcr & Hordr).
    case_decide as Hle.
    + apply ordered_cons. split_and!; [done| |done].
      apply Forall_cons. split.
      * unfold ends_before, apart in *. lia.
      * rewrite Forall_forall in Hr, Hcr |- *. intros y Hy.
        specialize (Hr y Hy). specialize (Hcr y Hy).
        unfold ends_before, apart in *. lia.
    + apply ordered_cons. split_and!; [done| |by apply IH].
      rewrite insert_by_start_perm. apply Forall_cons. split; [|done].
      unfold ends_before, apart in *. lia.
Qed.

Lemma sort_onto_ordered b l :
  0 < b.2 → Forall (apart b) l → ordered Z.lt l →
  ordered Z.le (foldr insert_by_start [b] l).
Proof.
  intros Hb. induction l as [|c r IH]; simpl; intros Hap Hord.
  - apply ordered_cons. split_and!; [done|constructor|apply ordered_nil].
  - apply Forall_cons in Hap as [Hc Hr].
    apply ordered_cons in Hord as (Hcpos & Hcr & Hordr).
    apply insert_by_start_ordered; [done| |by apply IH].
    rewrite sort_onto_perm. apply Forall_app. split.
    + eapply Forall_impl; [exact Hcr|]. intros y. unfold ends_before, apart. lia.
    + apply Forall_singleton. unfold apart in *. lia.
Qed.

(** *** The merge pass of [freeAlloc] *)
Lemma merge_step_snoc acc cur b :
  merge_step (acc ++ [cur]) b =
    if decide (cur.1 + cur.2 = b.1) then acc ++ [(cur.1, cur.2 + b.2)]
    else (acc ++ [cur]) ++ [b].
Proof.
  unfold merge_step. destruct b as [s sz], cur as [lastS lastSz]; simpl.
  rewrite last_snoc. case_decide; [|done].
  rewrite length_app; simpl.
  replace (pred (length acc + 1)) with (length acc + 0)%nat by lia.
  by rewrite insert_app_r.
Qed.

Lemma merge_fold_from rest : ∀ acc cur,
  foldl merge_step (acc ++ [cur]) rest = acc ++ merge_from cur rest.
Proof.
  induction rest as [|b r IH]; intros acc cur; simpl; [done|].
  rewrite merge_step_snoc. case_decide.
  - apply IH.
  - rewrite IH. by rewrite <- app_assoc.
Qed.

Lemma merge_adjacent_cons x rest : merge_adjacent (x :: rest) = merge_from x rest.
Proof.
  unfold merge_adjacent. simpl.
  replace (merge_step [] x) with ([] ++ [x]) by (by destruct x).
  by rewrite merge_fold_from.
Qed.

Lemma merge_from_starts rest : ∀ cur,
  ordered Z.le (cur :: rest) →
  Forall (λ y : Block, cur.1 ≤ y.1) (merge_from cur rest).
Proof.
  induction rest as [|b r IH]; intros cur Hord; simpl.
  - by apply Forall_singleton.
  - apply ordered_cons in Hord as (Hpos & Hfa & Hord).
    apply Forall_cons in Hfa as [Hb Hr].
    pose proof Hord as Hord'. apply ordered_cons in Hord' as (Hbpos & Hbr & Hordr).
    case_decide as Heq.
    + apply (IH (cur.1, cur.2 + b.2)). apply ordered_cons. split_and!; simpl; [lia| |done].
      eapply Forall_impl; [exact Hbr|]. intros y. unfold ends_before; simpl. lia.
    + apply Forall_cons. split; [lia|].
      eapply Forall_impl; [apply (IH b Hord)|]. intros y; simpl.
      unfold ends_before in Hb. lia.
Qed.

Lemma merge_from_ordered rest : ∀ cur,
  ordered Z.le (cur :: rest) → ordered Z.lt (merge_from cur rest).
Proof.
  induction rest as [|b r IH]; intros cur Hord; simpl.
  - apply ordered_cons in Hord as (Hpos & _ & _).
    apply ordered_cons. split_and!; [done|constructor|apply ordered_nil].
  - apply ordered_cons in Hord as (Hpos & Hfa & Hord).
    apply Forall_cons in Hfa as [Hb Hr].
    pose proof Hord as Hord'. apply ordered_cons in Hord' as (Hbpos & Hbr & Hordr).
    case_decide as Heq.
    + apply (IH (cur.1, cur.2 + b.2)). apply ordered_cons. split_and!; simpl; [lia| |done].
      eapply Forall_impl; [exact Hbr|]. intros y. unfold ends_before; simpl. lia.
    + apply ordered_cons. split_and!; [done| |by apply IH].
      eapply Forall_impl; [apply (merge_from_starts r b Hord)|]. intros y; simpl.
      unfold ends_before in *. lia.
Qed.

Lemma merge_from_apart a rest : ∀ cur,
  0 < a.2 → Forall (apart a) (cur :: rest) → Forall (apart a) (merge_from cur rest).
Proof.
  induction rest as [|b r IH]; intros cur Ha Hfa; simpl; [done|].
  apply Forall_cons in Hfa as [Hc Hfa]. pose proof Hfa as Hfa'.
  apply Forall_cons in Hfa' as [Hb Hr].
  case_decide as Heq.
  - apply IH; [done|]. apply Forall_cons. split; [|done].
    unfold apart in *; simpl. lia.
  - apply Forall_cons. split; [done|]. by apply IH.
Qed.

(** *** Sums of sizes *)
Lemma freeSpace_sum m : freeSpace m = sizes_sum (free m).
Proof.
  unfold freeSpace. generalize (free m). intros l.
  enough (∀ a, foldl (λ tot (b : Block), tot + b.2) a l = a + sizes_sum l) as ->
    by lia.
  induction l as [|b r IH]; intros a; simpl; [lia|]. rewrite IH. lia.
Qed.

Lemma sizes_sum_app l k : sizes_sum (l ++ k) = sizes_sum l + sizes_sum k.
Proof. induction l as [|b r IH]; simpl; [done|]. rewrite IH. lia. Qed.

Lemma sizes_sum_insert b l : sizes_sum (insert_by_start b l) = b.2 + sizes_sum l.
Proof.
  induction l as [|c r IH]; simpl; [done|]. case_decide; simpl; [done|].
  rewrite IH. lia.
Qed.

Lemma sizes_sum_sort_onto acc l :
  sizes_sum (foldr insert_by_start acc l) = sizes_sum l + sizes_sum acc.
Proof.
  induction l as [|c r IH]; simpl; [done|]. rewrite sizes_sum_insert, IH. lia.
Qed.

Lemma sizes_sum_merge_from rest : ∀ cur,
  sizes_sum (merge_from cur rest) = cur.2 + sizes_sum rest.
Proof.
  induction rest as [|b r IH]; intros cur; simpl; [done|].
  case_decide; simpl; rewrite IH; simpl; lia.
Qed.

Lemma sizes_sum_merge_adjacent l : sizes_sum (merge_adjacent l) = sizes_sum l.
Proof.
  destruct l as [|x rest]; [done|].
  by rewrite merge_adjacent_cons, sizes_sum_merge_from.
Qed.

Lemma allocatedSpace_insert pid b m fr :
  allocs m !! pid = None →
  allocatedSpace {| total := total m; free := fr; allocs := <[pid := b]> (allocs m) |}
  = allocatedSpace m + b.2.
Proof.
  intros Hnone. unfold allocatedSpace; simpl.
  rewrite map_fold_insert_L; [done| |done]. intros; lia.
Qed.

Lemma allocatedSpace_delete pid b m fr :
  allocs m !! pid = Some b →
  allocatedSpace {| total := total m; free := fr; allocs := delete pid (allocs m) |}
  = allocatedSpace m - b.2.
Proof.
  intros Hsome. unfold allocatedSpace; simpl.
  rewrite (map_fold_delete_L _ _ pid b (allocs m)); [lia| |done]. intros; lia.
Qed.


(** *** [freeAlloc] keeps the invariant *)
Lemma freeAlloc_inv pid m : Inv m → Inv (freeAlloc pid m).
Proof.
  intros [Hfree Hpos Haf Haa]. unfold freeAlloc.
  destruct (allocs m !! pid) as [[start size]|] eqn:Hpid; [|by split].
  pose proof (Hpos _ _ Hpid) as Hsz. pose proof (Haf _ _ Hpid) as Hb.
  rewrite sort_by_start_push.
  pose proof (sort_onto_ordered (start, size) (free m) Hsz Hb Hfree) as Hsorted.
  pose proof (sort_onto_perm [(start, size)] (free m)) as Hperm.
  destruct (foldr insert_by_start [(start, size)] (free m)) as [|x rest] eqn:Hs.
  { apply Permutation_length in Hperm. rewrite length_app in Hperm. simpl in Hperm. lia. }
  rewrite merge_adjacent_cons. split; simpl.
  - by apply merge_from_ordered.
  - intros p a [_ Hp]%lookup_delete_Some. eauto.
  - intros p a [Hne Hp]%lookup_delete_Some. apply merge_from_apart; [eauto|].
    rewrite Hperm. apply Forall_app. split; [eauto|].
    apply Forall_singleton. by eapply (Haa p pid).
  - intros p q a b Hpq [_ Hp]%lookup_delete_Some [_ Hq]%lookup_delete_Some. eauto.
Qed.

(** *** Conservation by a single call *)
Lemma firstFitAllocate_conserves pid size m :
  allocs m !! pid = None →
  let m' := (firstFitAllocate pid size m).2 in
  freeSpace m' + allocatedSpace m' = freeSpace m + allocatedSpace m.
Proof.
  intros Hnone. unfold firstFitAllocate.
  destruct (list_find _ _) as [[idx [start sz]]|] eqn:Hfind; [|done].
  apply list_find_split in Hfind as (pre & post & Hl & Hlen & _ & _).
  simpl. rewrite allocatedSpace_insert by done. rewrite !freeSpace_sum; simpl.
  rewrite Hl, <- Hlen. destruct (decide (sz = size)) as [->|Hne].
  - rewrite delete_middle, !sizes_sum_app. simpl. lia.
  - replace (length pre) with (length pre + 0)%nat by lia.
    rewrite insert_app_r, !sizes_sum_app. simpl. lia.
Qed.

Lemma freeAlloc_conserves pid m :
  freeSpace (freeAlloc pid m) + allocatedSpace (freeAlloc pid m)
  = freeSpace m + allocatedSpace m.
Proof.
  unfold freeAlloc.
  destruct (allocs m !! pid) as [[start size]|] eqn:Hpid; [|done].
  rewrite (allocatedSpace_delete pid (start, size)) by done.
  rewrite !freeSpace_sum; simpl.
  rewrite sizes_sum_merge_adjacent, sort_by_start_push, sizes_sum_sort_onto.
  simpl. lia.
Qed.

(** *** Sequences of calls *)
Lemma run_snoc cs c m : run (cs ++ [c]) m = call c (run cs m).
Proof. unfold run. by rewrite foldl_snoc. Qed.

Lemma run_cons c cs m : run (c :: cs) m = run cs (call c m).
Proof. done. Qed.

Lemma new_Inv tot : 0 < tot → Inv (new tot).
Proof.
  intros Htot. split; simpl.
  - apply ordered_cons. split_and!; [done|constructor|apply ordered_nil].
  - intros p a. by rewrite lookup_empty.
  - intros p a. by rewrite lookup_empty.
  - intros p q a b _. by rewrite lookup_empty.
Qed.

Lemma call_Inv c m :
  positive_sizes [c] = true → Inv m → Inv (call c m).
Proof.
  destruct c as [pid size|pid]; simpl; intros Hc Hinv.
  - apply firstFitAllocate_inv; [|done].
    apply andb_true_iff in Hc as [Hc _]. by apply bool_decide_eq_true in Hc.
  - by apply freeAlloc_inv.
Qed.

Lemma positive_sizes_cons c cs :
  positive_sizes (c :: cs) = positive_sizes [c] && positive_sizes cs.
Proof. destruct c; simpl; [|done]. by rewrite andb_true_r. Qed.

Lemma run_Inv cs : ∀ m, positive_sizes cs = true → Inv m → Inv (run cs m).
Proof.
  induction cs as [|c cs IH]; intros m Hcs Hinv; [done|].
  rewrite positive_sizes_cons in Hcs. apply andb_true_iff in Hcs as [Hc Hcs].
  rewrite run_cons. apply IH; [done|]. by apply call_Inv.
Qed.

(** A manager of non-positive capacity never grants a positive request. *)
Lemma call_degenerate tot c :
  tot ≤ 0 → positive_sizes [c] = true → call c (new tot) = new tot.
Proof.
  intros Htot. destruct c as [pid size|pid]; simpl; intros Hc; [|done].
  apply andb_true_iff in Hc as [Hc _]. apply bool_decide_eq_true in Hc.
  unfold firstFitAllocate; simpl. case_decide; [lia|done].
Qed.

Lemma run_degenerate tot cs :
  tot ≤ 0 → positive_sizes cs = true → run cs (new tot) = new tot.
Proof.
  intros Htot. induction cs as [|c cs IH]; intros Hcs; [done|].
  rewrite positive_sizes_cons in Hcs. apply andb_true_iff in Hcs as [Hc Hcs].
  rewrite run_cons, call_degenerate by done. by apply IH.
Qed.

Lemma run_conserves cs : ∀ m,
  fresh_pids cs m = true →
  freeSpace (run cs m) + allocatedSpace (run cs m) = freeSpace m + allocatedSpace m.
Proof.
  induction cs as [|c cs IH]; intros m Hfresh; [done|].
  simpl in Hfresh. apply andb_true_iff in Hfresh as [Hc Hfresh].
  rewrite run_cons, IH by done.
  destruct c as [pid size|pid]; simpl.
  - apply firstFitAllocate_conserves. by apply bool_decide_eq_true in Hc.
  - apply freeAlloc_conserves.
Qed.

(** *** From the invariant to the stated properties *)
Lemma ordered_lookup R (l : list Block) : ∀ (i j : nat) f g,
  ordered R l → (i < j)%nat → l !! i = Some f → l !! j = Some g → ends_before R f g.
Proof.
  induction l as [|c r IH]; intros i j f g Hord Hij Hi Hj; [done|].
  apply ordered_cons in Hord as (_ & Hfa & Hord).
  destruct j as [|j]; [lia|]. simpl in Hj. destruct i as [|i]; simpl in Hi.
  - injection Hi as <-. rewrite Forall_lookup in Hfa. eauto.
  - apply (IH i j); [done|lia|done..].
Qed.

Lemma ordered_positive R (l : list Block) (i : nat) f :
  ordered R l → l !! i = Some f → 0 < f.2.
Proof. intros [_ Hpos] Hi. rewrite Forall_lookup in Hpos. eauto. Qed.

Lemma apart_no_overlap a b : apart a b → ¬ overlap a b.
Proof. intros Hap (x & Ha & Hb). unfold apart, in_block in *. lia. Qed.

Lemma ordered_sorted l : ordered Z.lt l → sorted_by_start l.
Proof.
  intros Hord i j f g Hij Hi Hj.
  pose proof (ordered_lookup _ _ _ _ _ _ Hord Hij Hi Hj) as Hfg.
  pose proof (ordered_positive _ _ _ _ Hord Hi). unfold ends_before in Hfg. lia.
Qed.

Lemma ordered_no_adjacent l : ordered Z.lt l → no_adjacent l.
Proof.
  intros Hord i j f g Hij Hi Hj.
  pose proof (ordered_positive _ _ _ _ Hord Hi).
  pose proof (ordered_positive _ _ _ _ Hord Hj).
  destruct (decide (i < j)%nat) as [Hlt|Hge].
  - pose proof (ordered_lookup _ _ _ _ _ _ Hord Hlt Hi Hj) as Hfg.
    unfold ends_before in Hfg. lia.
  - assert (Hlt : (j < i)%nat) by lia.
    pose proof (ordered_lookup _ _ _ _ _ _ Hord Hlt Hj Hi) as Hfg.
    unfold ends_before in Hfg. lia.
Qed.

Lemma Inv_regions_disjoint m : Inv m → regions_disjoint m.
Proof.
  intros [Hfree Hpos Haf Haa]. split_and!.
  - intros p q a b Hpq Hp Hq. apply apart_no_overlap. eauto.
  - intros p i a f Hp Hi. apply apart_no_overlap.
    specialize (Haf p a Hp). rewrite Forall_lookup in Haf. eauto.
  - intros i j f g Hij Hi Hj. apply apart_no_overlap.
    destruct (decide (i < j)%nat) as [Hlt|Hge].
    + pose proof (ordered_lookup _ _ _ _ _ _ Hfree Hlt Hi Hj) as Hfg.
      unfold ends_before, apart in *. lia.
    + assert (Hlt : (j < i)%nat) by lia.
      pose proof (ordered_lookup _ _ _ _ _ _ Hfree Hlt Hj Hi) as Hfg.
      unfold ends_before, apart in *. lia.
Qed.

Lemma singleton_lookup_eq {A} (x : A) (i j : nat) f g :
  [x] !! i = Some f → [x] !! j = Some g → i = j.
Proof.
  intros [-> _]%list_lookup_singleton_Some [-> _]%list_lookup_singleton_Some. done.
Qed.

Lemma new_regions_disjoint tot : regions_disjoint (new tot).
Proof.
  split_and!; simpl.
  - intros p q a b _. by rewrite lookup_empty.
  - intros p i a f. by rewrite lookup_empty.
  - intros i j f g Hij Hi Hj. destruct Hij. by eapply singleton_lookup_eq.
Qed.

Lemma new_conserved tot : freeSpace (new tot) + allocatedSpace (new tot) = tot.
Proof. unfold freeSpace, allocatedSpace; simpl. rewrite map_fold_empty. lia. Qed.


Lemma positive_sizes_app pre post :
  positive_sizes (pre ++ post) = positive_sizes pre && positive_sizes post.
Proof.
  induction pre as [|c pre IH]; [done|].
  rewrite <- app_comm_cons, (positive_sizes_cons c (pre ++ post)),
    (positive_sizes_cons c pre), IH.
  by rewrite andb_assoc.
Qed.

Lemma fresh_pids_app pre post m :
  fresh_pids (pre ++ post) m = fresh_pids pre m && fresh_pids post (run pre m).
Proof.
  revert m. induction pre as [|c pre IH]; intros m; [done|].
  simpl. rewrite IH. by rewrite andb_assoc.
Qed.

Lemma run_reachable tot cs :
  positive_sizes cs = true →
  (0 < tot ∧ Inv (run cs (new tot))) ∨ (tot ≤ 0 ∧ run cs (new tot) = new tot).
Proof.
  intros Hcs. destruct (decide (0 < tot)) as [Hpos|Hneg].
  - left. split; [done|]. apply run_Inv; [done|]. by apply new_Inv.
  - right. split; [lia|]. apply run_degenerate; [lia|done].
Qed.

(** Conservation in integer arithmetic: for every sequence of
    [firstFitAllocate] and [freeAlloc] calls with positive sizes in which no
    pid is allocated while it holds a block, on a manager of capacity [tot],
    after each call the free space plus the allocated space is [tot] and the
    allocated and free regions are pairwise disjoint. *)
Lemma conservation_and_disjointness tot cs pre post :
  positive_sizes cs = true →
  fresh_pids cs (new tot) = true →
  cs = pre ++ post →
  let m := run pre (new tot) in
  freeSpace m + allocatedSpace m = tot ∧ regions_disjoint m.
Proof.
  intros Hpos Hfresh -> m.
  rewrite positive_sizes_app in Hpos. apply andb_true_iff in Hpos as [Hpos _].
  rewrite fresh_pids_app in Hfresh. apply andb_true_iff in Hfresh as [Hfresh _].
  split.
  - unfold m. rewrite run_conserves by done. apply new_conserved.
  - destruct (run_reachable tot pre Hpos) as [[_ Hinv]|[_ Heq]].
    + by apply Inv_regions_disjoint.
    + unfold m. rewrite Heq. apply new_regions_disjoint.
Qed.

(** Coalescing in integer arithmetic: after every [freeAlloc] call (on a
    manager reached by calls with positive sizes) the free list is sorted by
    start address and no two of its intervals are adjacent. *)
Lemma freeAlloc_restores_coalescing tot cs pid :
  positive_sizes cs = true →
  let m := freeAlloc pid (run cs (new tot)) in
  sorted_by_start (free m) ∧ no_adjacent (free m).
Proof.
  intros Hpos m. destruct (run_reachable tot cs Hpos) as [[_ Hinv]|[_ Heq]].
  - apply (freeAlloc_inv pid) in Hinv as [Hfree _ _ _].
    split; [by apply ordered_sorted|by apply ordered_no_adjacent].
  - unfold m. rewrite Heq. unfold freeAlloc; simpl. rewrite lookup_empty; simpl.
    split; intros i j f g Hij Hi Hj.
    + pose proof (singleton_lookup_eq _ _ _ _ _ Hi Hj). lia.
    + destruct Hij. by eapply singleton_lookup_eq.
Qed.

(** *** First fit *)
Lemma list_find_first_fit (size : Z) (pre post : list Block) (b : Block) :
  Forall (λ c : Block, c.2 < size) pre → size ≤ b.2 →
  list_find (λ c : Block, size ≤ c.2) (pre ++ b :: post) = Some (length pre, b).
Proof.
  intros Hpre Hb. apply list_find_Some. split_and!.
  - by apply list_lookup_middle.
  - done.
  - intros j y Hj Hlt. rewrite lookup_app_l in Hj by done.
    rewrite Forall_lookup in Hpre. specialize (Hpre j y Hj). simpl in Hpre. lia.
Qed.

(** First fit in integer arithmetic: [firstFitAllocate] takes the first
    interval, in list order, that is large enough; an exact fit removes the
    interval, a larger one is shrunk from the front; the returned block
    starts where the interval started; when no interval fits the result is
    [null] and nothing changes.  In a reachable manager the list order is
    the ascending start order, so the chosen interval is the lowest one that
    fits. *)
Lemma firstFitAllocate_first_fit :
  (∀ pid size m pre start sz post,
     free m = pre ++ (start, sz) :: post →
     Forall (λ c : Block, c.2 < size) pre →
     size ≤ sz →
     firstFitAllocate pid size m =
       (Some (start, size),
        {| total := total m;
           free := if decide (sz = size) then pre ++ post
                   else pre ++ (start + size, sz - size) :: post;
           allocs := <[pid := (start, size)]> (allocs m) |}))
  ∧ (∀ pid size m,
       Forall (λ c : Block, c.2 < size) (free m) →
       firstFitAllocate pid size m = (None, m))
  ∧ (∀ tot cs pid size b m',
       positive_sizes cs = true →
       firstFitAllocate pid size (run cs (new tot)) = (Some b, m') →
       ∀ f, f ∈ free (run cs (new tot)) → size ≤ f.2 → b.1 ≤ f.1)
  ∧ (let m0 := new 100 in
     let '(r1, m1) := firstFitAllocate 1 40 m0 in
     let '(r2, m2) := firstFitAllocate 2 50 m1 in
     let '(r3, m3) := firstFitAllocate 3 20 m2 in
     let m4 := freeAlloc 1 m3 in
     let '(r5, m5) := firstFitAllocate 3 20 m4 in
     r1 = Some (0, 40) ∧ r2 = Some (40, 50) ∧ free m2 = [(90, 10)]
     ∧ r3 = None ∧ m3 = m2
     ∧ free m4 = [(0, 40); (90, 10)]
     ∧ r5 = Some (0, 20)
     ∧ allocs m5 = <[2 := (40, 50)]> (<[3 := (0, 20)]> ∅)
     ∧ free m5 = [(20, 20); (90, 10)]
     ∧ freeSpace m5 = 30).
Proof.
  split_and!.
  - intros pid size m pre start sz post Hl Hpre Hfit. unfold firstFitAllocate.
    rewrite Hl, (list_find_first_fit size pre post (start, sz)) by done.
    destruct (decide (sz = size)).
    + by rewrite delete_middle.
    + replace (length pre) with (length pre + 0)%nat by lia.
      by rewrite insert_app_r.
  - intros pid size m Hall. unfold firstFitAllocate.
    assert (list_find (λ b : Block, size ≤ b.2) (free m) = None) as ->; [|done].
    apply list_find_None. eapply Forall_impl; [exact Hall|]. intros c; simpl. lia.
  - intros tot cs pid size b m' Hpos Hfit f Hf Hfsize.
    unfold firstFitAllocate in Hfit.
    destruct (list_find _ _) as [[idx [start sz]]|] eqn:Hfind; [|done].
    injection Hfit as <- _. simpl.
    apply list_find_Some in Hfind as (Hidx & _ & Hbefore).
    apply list_elem_of_lookup in Hf as [j Hj].
    destruct (decide (j < idx)%nat) as [Hlt|Hge].
    { exfalso. by apply (Hbefore j f). }
    destruct (decide (j = idx)) as [->|Hne].
    { rewrite Hidx in Hj. by injection Hj as <-. }
    destruct (run_reachable tot cs Hpos) as [[_ [Hfree _ _ _]]|[_ Heq]].
    + apply ordered_sorted in Hfree.
      assert (idx < j)%nat as Hlt by lia.
      specialize (Hfree idx j _ _ Hlt Hidx Hj). simpl in Hfree. lia.
    + rewrite Heq in Hidx, Hj. simpl in Hidx, Hj.
      destruct Hne. by eapply singleton_lookup_eq.
  - vm_compute. split_and!; reflexivity.
Qed.

End AllocFacts.

Module SimFacts.
Import Sim.

(** *** The memory-retry loop of [tick] *)
Lemma tick_retry_loop_throws n : ∀ s (j : nat) w,
  (j < n)%nat → waitingForMem s !! j = Some w → is_Some (processes s !! w) →
  ∃ s', tick_retry_loop MemoryManager_alloc n s = Threw s'.
Proof.
  induction n as [|i IH]; intros s j w Hj Hw [p Hp]; [lia|].
  simpl. destruct (decide (j = i)) as [->|Hne].
  - rewrite Hw; simpl. rewrite Hp. by eexists.
  - destruct (waitingForMem s !! i ≫= _) as [q|] eqn:Hq; [by eexists|].
    apply (IH _ j w); simpl; [lia| |by rewrite Hp].
    rewrite list_lookup_delete_lt by lia. done.
Qed.

(** C1: a tick that reaches its memory-retry loop with a live process in
    [waitingForMem] throws: the loop calls [memoryManager.alloc], which
    does not exist. *)
Theorem tick_throws_on_live_waiter cfg d s s1 w :
  tick_phases_with cfg MemoryManager_alloc d s = Returned s1 →
  w ∈ waitingForMem s1 →
  is_Some (processes s1 !! w) →
  ∃ s', tick cfg d s = Threw s'.
Proof.
  intros Hph Hw Hlive. unfold tick, tick_with. rewrite Hph; simpl.
  apply list_elem_of_lookup in Hw as [j Hj].
  apply (tick_retry_loop_throws _ _ j w); [|done..].
  by eapply lookup_lt_Some.
Qed.

Lemma tick_throws_on_live_waiter_witness :
  ∃ s', tick CONFIG (spawning 300 15) three_loaded = Threw s'.
Proof.
  eapply (tick_throws_on_live_waiter CONFIG (spawning 300 15) three_loaded _ 4).
  - vm_compute. reflexivity.
  - vm_compute. apply list_elem_of_here.
  - vm_compute. eexists. reflexivity.
Defined.

(** *** [contextSwitches] under the tick engine *)
Lemma tryAllocateAndEnqueue_cs p s :
  contextSwitches (tryAllocateAndEnqueue p s) = contextSwitches s.
Proof.
  unfold tryAllocateAndEnqueue.
  by destruct (firstFitAllocateN _ _ _) as [[?|] ?].
Qed.

Lemma maybeCreateRandomProcess_cs cfg d s :
  contextSwitches (maybeCreateRandomProcess cfg d s) = contextSwitches s.
Proof.
  unfold maybeCreateRandomProcess. destruct (spawn d) as [[? ?]|]; [|done].
  simpl. by rewrite tryAllocateAndEnqueue_cs.
Qed.

Lemma tick_io_loop_cs cfg n : ∀ s,
  contextSwitches (tick_io_loop cfg n s) = contextSwitches s.
Proof.
  induction n as [|i IH]; intros s; [done|]. simpl.
  destruct (ioQueue s !! i) as [pid|]; [|by rewrite IH].
  destruct (processes s !! pid) as [p|]; [|by rewrite IH].
  case_bool_decide; by rewrite IH.
Qed.

Lemma schedule_cs cfg s : contextSwitches (final (schedule cfg s)) = contextSwitches s.
Proof.
  unfold schedule.
  destruct (currentRunning s) as [cur|], (readyQueue s) as [|pid rest]; simpl; try done.
  - by destruct (processes s !! cur).
  - by destruct (processes s !! pid).
Qed.

Lemma awaken_loop_cs toTry : ∀ s,
  contextSwitches (awaken_loop toTry s) = contextSwitches s.
Proof.
  induction toTry as [|w rest IH]; intros s; [done|]. simpl.
  destruct (processes s !! w) as [p|]; [|by rewrite IH].
  destruct (firstFitAllocateN _ _ _) as [[?|] ?]; [by rewrite IH|done].
Qed.

Lemma freeMemoryAndAwaken_cs pid s :
  contextSwitches (freeMemoryAndAwaken pid s) = contextSwitches s.
Proof. unfold freeMemoryAndAwaken. by rewrite awaken_loop_cs. Qed.

Lemma processMemoryQueue_loop_cs allocm n : ∀ s,
  contextSwitches (final (processMemoryQueue_loop allocm n s)) = contextSwitches s.
Proof.
  induction n as [|i IH]; intros s; [done|]. simpl.
  destruct (waitingForMem s !! i ≫= _) as [p|]; [|done].
  destruct allocm as [alloc|]; [|done].
  destruct (alloc _ _ _) as [[?|] ?], (waitingForMem s !! i); by rewrite IH.
Qed.

Lemma terminateProcess_cs allocm pid s :
  contextSwitches (final (terminateProcess_with allocm pid s)) = contextSwitches s.
Proof.
  unfold terminateProcess_with, processMemoryQueue_with.
  destruct (processes s !! pid) as [p|]; [|done].
  rewrite processMemoryQueue_loop_cs. by destruct (truthy _).
Qed.

Lemma tick_execute_cs cfg allocm d s :
  contextSwitches (final (tick_execute_with cfg allocm d s)) = contextSwitches s.
Proof.
  unfold tick_execute_with.
  destruct (currentRunning s) as [cur|]; [|done].
  destruct (processes s !! cur) as [p|]; [|done].
  destruct (io d); [done|].
  destruct (js_le _ _).
  - rewrite terminateProcess_cs. cbn [contextSwitches set_currentRunning].
    by rewrite freeMemoryAndAwaken_cs.
  - destruct (_ && _); [done|]. by case_bool_decide.
Qed.

Lemma tick_retry_loop_cs allocm n : ∀ s,
  contextSwitches (final (tick_retry_loop allocm n s)) = contextSwitches s.
Proof.
  induction n as [|i IH]; intros s; [done|]. simpl.
  destruct (waitingForMem s !! i ≫= _) as [p|]; [|by rewrite IH].
  destruct allocm as [alloc|]; [|done].
  destruct (alloc _ _ _) as [[?|] ?], (waitingForMem s !! i); by rewrite IH.
Qed.

Lemma tick_with_cs cfg allocm d s :
  contextSwitches (final (tick_with cfg allocm d s)) = contextSwitches s.
Proof.
  unfold tick_with, tick_phases_with, tick_retry_with.
  set (s1 := tick_io_loop cfg _ _).
  assert (contextSwitches s1 = contextSwitches s) as Hs1.
  { unfold s1. by rewrite tick_io_loop_cs, maybeCreateRandomProcess_cs. }
  pose proof (schedule_cs cfg s1) as Hsch.
  destruct (schedule cfg s1) as [s2|s2]; simpl in *; [|congruence].
  pose proof (tick_execute_cs cfg allocm d s2) as Hex.
  destruct (tick_execute_with cfg allocm d s2) as [s3|s3]; simpl in *; [|congruence].
  rewrite tick_retry_loop_cs. congruence.
Qed.

(** C7: no tick changes [contextSwitches], whatever it does.  On
    [three_loaded] a quiet tick preempts P1 (Ejecutando to Listo, back of the
    ready queue) and a tick with an I/O draw blocks it (Ejecutando to
    Bloqueado); the counter is 0 before and after both.  (Only
    [executeCurrentProcess] and [resetSimulation] assign the counter.) *)
Theorem tick_never_counts_context_switches :
  (∀ cfg d s, contextSwitches (final (tick cfg d s)) = contextSwitches s)
  ∧ (state <$> processes three_loaded !! 1 = Some Ejecutando
     ∧ contextSwitches three_loaded = 0
     ∧ ∃ s', tick CONFIG quiet three_loaded = Returned s'
        ∧ state <$> processes s' !! 1 = Some Listo
        ∧ readyQueue s' = [2; 3; 1]
        ∧ currentRunning s' = None
        ∧ contextSwitches s' = 0)
  ∧ (∃ s', tick CONFIG {| spawn := None; io := Some 4 |} three_loaded = Returned s'
        ∧ state <$> processes s' !! 1 = Some Bloqueado
        ∧ ioQueue s' = [1]
        ∧ currentRunning s' = None
        ∧ contextSwitches s' = 0).
Proof.
  split_and!.
  - intros. apply tick_with_cs.
  - vm_compute. reflexivity.
  - vm_compute. reflexivity.
  - eexists. split_and!; vm_compute; reflexivity.
  - eexists. split_and!; vm_compute; reflexivity.
Qed.


(** *** Quantum expiry in the execution block *)

(** C6 (as stated) fails: the quiet tick on [three_loaded] preempts P1 with
    its quantum already back at [TIME_QUANTUM]. *)
Lemma preemption_resets_quantum_at_once :
  ¬ preemption_keeps_quantum CONFIG quiet three_loaded.
Proof.
  intros H.
  assert (∃ p, processes three_loaded !! 1 = Some p
               ∧ state p = Ejecutando ∧ quantumLeft p = 1)
    as (p & Hp & Hst & Hq) by (eexists; split_and!; vm_compute; reflexivity).
  assert (∃ s' p', tick_execute_with CONFIG MemoryManager_alloc quiet three_loaded
                     = Returned s'
                   ∧ processes s' !! 1 = Some p'
                   ∧ state p' = Listo ∧ quantumLeft p' = 3)
    as (s' & p' & He & Hp' & Hst' & Hq')
    by (do 2 eexists; split_and!; vm_compute; reflexivity).
  assert (currentRunning three_loaded = Some 1) as Hc by (vm_compute; reflexivity).
  specialize (H 1 p s' p' Hc Hp He Hp' Hst Hst'). lia.
Qed.

(** C6 (amended): on an executed tick (no I/O draw) on which the running
    process does not finish and its quantum reaches 0: if the ready queue is
    non-empty the process becomes Listo, goes to the tail of the ready queue
    and the CPU is released, its quantum being set back to [TIME_QUANTUM] at
    that moment (and again by [schedule] when it is dequeued); if the ready
    queue is empty its quantum is set back in place and it keeps the CPU. *)
Theorem quantum_expiry_rule cfg d s cur p :
  currentRunning s = Some cur →
  processes s !! cur = Some p →
  io d = None →
  js_le (js_sub (remainingCpu p) (Num 1)) (Num 0) = false →
  quantumLeft p - 1 ≤ 0 →
  let p1 := set_quantumLeft (quantumLeft p - 1)
              (set_remainingCpu (js_sub (remainingCpu p) (Num 1)) p) in
  (∃ s', tick_execute_with cfg MemoryManager_alloc d s = Returned s'
     ∧ (readyQueue s ≠ [] →
          processes s' !! cur = Some (set_quantumLeft (TIME_QUANTUM cfg) (set_state Listo p1))
          ∧ readyQueue s' = readyQueue s ++ [pid p]
          ∧ currentRunning s' = None)
     ∧ (readyQueue s = [] →
          processes s' !! cur = Some (set_quantumLeft (TIME_QUANTUM cfg) p1)
          ∧ readyQueue s' = []
          ∧ currentRunning s' = Some cur))
  ∧ (∀ s2 p2 rest,
       currentRunning s2 = None → readyQueue s2 = cur :: rest →
       processes s2 !! cur = Some p2 →
       ∃ s3, schedule cfg s2 = Returned s3
         ∧ processes s3 !! cur
             = Some (set_quantumLeft (TIME_QUANTUM cfg) (set_state Ejecutando p2))
         ∧ currentRunning s3 = Some cur
         ∧ readyQueue s3 = rest).
Proof.
  intros Hcur Hp Hio Hrem Hq p1. split.
  - unfold tick_execute_with. rewrite Hcur, Hp, Hio.
    cbn [remainingCpu set_quantumLeft set_remainingCpu quantumLeft].
    rewrite Hrem. cbn [readyQueue set_processes].
    rewrite (bool_decide_eq_true_2 (quantumLeft p - 1 ≤ 0)) by done.
    destruct (readyQueue s) as [|r rs] eqn:Hrq.
    + eexists. split; [reflexivity|]. split; [done|]. intros _.
      cbn. rewrite lookup_insert_eq. by split_and!.
    + eexists. split; [reflexivity|]. split; [|done]. intros _.
      cbn. rewrite lookup_insert_eq. by split_and!.
  - intros s2 p2 rest Hnone Hrq Hp2. unfold schedule. rewrite Hnone, Hrq.
    cbn. rewrite Hp2. eexists. split; [reflexivity|].
    cbn. by rewrite lookup_insert_eq.
Qed.

Lemma quantum_expiry_rule_witness :
  ∃ s', tick_execute_with CONFIG MemoryManager_alloc quiet three_loaded = Returned s'
    ∧ state <$> processes s' !! 1 = Some Listo
    ∧ quantumLeft <$> processes s' !! 1 = Some 3
    ∧ readyQueue s' = [2; 3; 1]
    ∧ currentRunning s' = None.
Proof.
  destruct (quantum_expiry_rule CONFIG quiet three_loaded 1
              {| pid := 1; memReq := Num 300; totalCpu := Num 15;
                 remainingCpu := Num 12; state := Ejecutando;
                 memBlock := MemBlk (0, 300); quantumLeft := 1; ioRemaining := 0 |})
    as [(s' & Hs' & Hne & _) _].
  - vm_compute. reflexivity.
  - vm_compute. reflexivity.
  - reflexivity.
  - reflexivity.
  - simpl. lia.
  - exists s'. destruct Hne as (Hp & Hrq & Hcr); [by vm_compute|].
    split; [exact Hs'|]. rewrite Hp, Hrq, Hcr. vm_compute. by split_and!.
Defined.

(** *** Manual creation *)
Lemma js_lt_Num a b : js_lt (Num a) (Num b) = bool_decide (a < b).
Proof. done. Qed.

(** On numbers the validation works: [createManualProcess] with a memory
    requirement or a burst outside the configured bounds leaves every
    variable as it was; with both inside it does exactly what
    [maybeCreateRandomProcess] does when it draws these two numbers: the
    process gets the next pid, is registered and counted, and an allocation
    is attempted at once, which puts it at the tail of the ready queue
    (Listo) or of [waitingForMem] (EsperandoMem). *)
Lemma createManualProcess_validates cfg m c s :
  ((m < MIN_PROC_MEM cfg ∨ MAX_PROC_MEM cfg < m
    ∨ c < MIN_CPU_BURST cfg ∨ MAX_CPU_BURST cfg < c) →
   createManualProcess cfg (Num m) (Num c) s = s)
  ∧ (MIN_PROC_MEM cfg ≤ m ≤ MAX_PROC_MEM cfg →
     MIN_CPU_BURST cfg ≤ c ≤ MAX_CPU_BURST cfg →
     let s' := createManualProcess cfg (Num m) (Num c) s in
     let k := PID_COUNTER s in
     let fresh st blk :=
       {| pid := k; memReq := Num m; totalCpu := Num c; remainingCpu := Num c;
          state := st; memBlock := blk; quantumLeft := TIME_QUANTUM cfg;
          ioRemaining := 0 |} in
     (∀ d, spawn d = Some (m, c) → maybeCreateRandomProcess cfg d s = s')
     ∧ PID_COUNTER s' = k + 1
     ∧ totalProcessesCreated s' = totalProcessesCreated s + 1
     ∧ processStartTimes s' = <[k := tickCount s]> (processStartTimes s)
     ∧ match Alloc.firstFitAllocate k m (memoryManager s) with
       | (Some b, mm) =>
           processes s' !! k = Some (fresh Listo (MemBlk b))
           ∧ readyQueue s' = readyQueue s ++ [k]
           ∧ waitingForMem s' = waitingForMem s
           ∧ memoryManager s' = mm
       | (None, _) =>
           processes s' !! k = Some (fresh EsperandoMem MemNull)
           ∧ waitingForMem s' = waitingForMem s ++ [k]
           ∧ readyQueue s' = readyQueue s
           ∧ memoryManager s' = memoryManager s
       end).
Proof.
  split.
  - intros Hout. unfold createManualProcess, js_gt. rewrite !js_lt_Num.
    repeat case_bool_decide; simpl; try done; lia.
  - intros Hm Hc s' k fresh.
    assert (s' = tryAllocateAndEnqueue
              (fresh Nuevo MemNull)
              (set_totalProcessesCreated (totalProcessesCreated s + 1)
                 (set_processStartTimes (<[k := tickCount s]> (processStartTimes s))
                    (set_processes (<[k := fresh Nuevo MemNull]> (processes s))
                       (set_PID_COUNTER (k + 1) s))))) as Hs'.
    { unfold s', createManualProcess, js_gt. rewrite !js_lt_Num.
      rewrite !bool_decide_eq_false_2 by lia. reflexivity. }
    split; [|rewrite Hs'; clear Hs'].
    { intros d Hd. unfold maybeCreateRandomProcess. rewrite Hd, Hs'. reflexivity. }
    unfold tryAllocateAndEnqueue, firstFitAllocateN.
    cbn [pid memReq memoryManager set_totalProcessesCreated set_processStartTimes
         set_processes set_PID_COUNTER].
    destruct (Alloc.firstFitAllocate k m (memoryManager s)) as [[b|] mm] eqn:Hfit.
    + cbn. rewrite Hfit. cbn. rewrite lookup_insert_eq. by split_and!.
    + cbn. rewrite Hfit. cbn. rewrite lookup_insert_eq.
      unfold Alloc.firstFitAllocate in Hfit.
      destruct (list_find _ _) as [[? [? ?]]|]; [done|]. injection Hfit as <-.
      by split_and!.
Qed.

(** C8: the validation of [createManualProcess] compares with [<] and [>],
    which are both false on NaN, so a field that [parseInt] cannot read (an
    empty one) passes both tests.  Whatever is not rejected, a number inside
    its range or NaN, is created: the process takes the next pid, is counted
    and stored.  With a NaN memory requirement no interval ever fits: the
    process goes to the tail of [waitingForMem] without a block and the
    allocator is untouched. *)
Theorem createManualProcess_accepts_NaN cfg m c s :
  (m = NaN ∨ ∃ z, m = Num z ∧ MIN_PROC_MEM cfg ≤ z ≤ MAX_PROC_MEM cfg) →
  (c = NaN ∨ ∃ z, c = Num z ∧ MIN_CPU_BURST cfg ≤ z ≤ MAX_CPU_BURST cfg) →
  let s' := createManualProcess cfg m c s in
  let k := PID_COUNTER s in
  PID_COUNTER s' = k + 1
  ∧ totalProcessesCreated s' = totalProcessesCreated s + 1
  ∧ (∃ p, processes s' !! k = Some p
          ∧ pid p = k ∧ memReq p = m ∧ totalCpu p = c ∧ remainingCpu p = c)
  ∧ (m = NaN →
       processes s' !! k
       = Some {| pid := k; memReq := NaN; totalCpu := c; remainingCpu := c;
                 state := EsperandoMem; memBlock := MemNull;
                 quantumLeft := TIME_QUANTUM cfg; ioRemaining := 0 |}
       ∧ waitingForMem s' = waitingForMem s ++ [k]
       ∧ readyQueue s' = readyQueue s
       ∧ memoryManager s' = memoryManager s).
Proof.
  intros Hm Hc s' k.
  set (p0 := {| pid := k; memReq := m; totalCpu := c; remainingCpu := c;
                state := Nuevo; memBlock := MemNull;
                quantumLeft := TIME_QUANTUM cfg; ioRemaining := 0 |}).
  assert (s' = tryAllocateAndEnqueue p0
                 (set_totalProcessesCreated (totalProcessesCreated s + 1)
                    (set_processStartTimes (<[k := tickCount s]> (processStartTimes s))
                       (set_processes (<[k := p0]> (processes s))
                          (set_PID_COUNTER (k + 1) s))))) as ->.
  { unfold s', createManualProcess, js_gt.
    assert (js_lt m (Num (MIN_PROC_MEM cfg)) || js_lt (Num (MAX_PROC_MEM cfg)) m
            = false) as ->.
    { destruct Hm as [->|(z & -> & Hz)]; [done|]. simpl.
      rewrite !bool_decide_eq_false_2 by lia. done. }
    assert (js_lt c (Num (MIN_CPU_BURST cfg)) || js_lt (Num (MAX_CPU_BURST cfg)) c
            = false) as ->.
    { destruct Hc as [->|(z & -> & Hz)]; [done|]. simpl.
      rewrite !bool_decide_eq_false_2 by lia. done. }
    reflexivity. }
  unfold tryAllocateAndEnqueue.
  cbn [pid memReq memoryManager set_totalProcessesCreated set_processStartTimes
       set_processes set_PID_COUNTER p0].
  split_and!.
  - by destruct (firstFitAllocateN k m (memoryManager s)) as [[b|] mm].
  - by destruct (firstFitAllocateN k m (memoryManager s)) as [[b|] mm].
  - destruct (firstFitAllocateN k m (memoryManager s)) as [[b|] mm];
      cbn; rewrite lookup_insert_eq; by eexists.
  - intros ->. cbn. rewrite lookup_insert_eq. by split_and!.
Qed.

(** Both fields empty, on the initial state. *)
Lemma createManualProcess_accepts_NaN_witness :
  let s' := createManualProcess CONFIG NaN NaN (initial CONFIG) in
  PID_COUNTER s' = 1 + 1
  ∧ totalProcessesCreated s' = 0 + 1
  ∧ (∃ p, processes s' !! 1 = Some p
          ∧ pid p = 1 ∧ memReq p = NaN ∧ totalCpu p = NaN ∧ remainingCpu p = NaN)
  ∧ (NaN = NaN →
       processes s' !! 1
       = Some {| pid := 1; memReq := NaN; totalCpu := NaN; remainingCpu := NaN;
                 state := EsperandoMem; memBlock := MemNull;
                 quantumLeft := TIME_QUANTUM CONFIG; ioRemaining := 0 |}
       ∧ waitingForMem s' = [] ++ [1]
       ∧ readyQueue s' = []
       ∧ memoryManager s' = memoryManager (initial CONFIG)).
Proof.
  apply (createManualProcess_accepts_NaN CONFIG NaN NaN (initial CONFIG)).
  - by left.
  - by left.
Defined.

(** *** Stale and live entries in [processMemoryQueue] *)

(** [processMemoryQueue] has no method to call: with any entry in
    [waitingForMem] it throws and removes nothing. *)
Lemma processMemoryQueue_throws s :
  waitingForMem s ≠ [] → processMemoryQueue s = Threw s.
Proof.
  intros Hne. unfold processMemoryQueue, processMemoryQueue_with.
  destruct (waitingForMem s) as [|w rest] eqn:Hw; [done|].
  cbn [length processMemoryQueue_loop]. by destruct (_ ≫= _).
Qed.

(** *** The second release in [terminateProcess] *)
Lemma firstFitAllocateN_allocs k size m :
  match firstFitAllocateN k size m with
  | (Some b, m') => Alloc.allocs m' = <[k := b]> (Alloc.allocs m)
  | (None, m') => m' = m
  end.
Proof.
  destruct size as [z|]; [|done]. unfold firstFitAllocateN, Alloc.firstFitAllocate.
  by destruct (list_find _ _) as [[? [? ?]]|].
Qed.

Lemma awaken_loop_unallocated k toTry : ∀ s,
  Alloc.allocs (memoryManager s) !! k = None →
  (∀ w p, w ∈ toTry → processes s !! w = Some p → pid p ≠ k) →
  Alloc.allocs (memoryManager (awaken_loop toTry s)) !! k = None.
Proof.
  induction toTry as [|w rest IH]; intros s Hk Hpid; [done|]. simpl.
  destruct (processes s !! w) as [p|] eqn:Hp.
  - pose proof (firstFitAllocateN_allocs (pid p) (memReq p) (memoryManager s)) as Hal.
    destruct (firstFitAllocateN _ _ _) as [[b|] mm].
    + apply IH; cbn.
      * rewrite Hal, lookup_insert_ne; [done|]. apply (Hpid w); [by left|done].
      * intros w' p' Hw'. rewrite lookup_insert. case_decide as Heq.
        -- intros [= <-]. cbn. apply (Hpid w); [by left|done].
        -- apply Hpid. by right.
    + cbn. by rewrite Hal.
  - apply IH; cbn; [done|]. intros w' p' Hw'. apply Hpid. by right.
Qed.

(** C10: [freeAlloc] of a pid without an entry in [allocs] returns the
    manager unchanged; after [freeMemoryAndAwaken(pid)] the pid has no entry
    (no waiting process carries that pid), so the release that
    [terminateProcess] performs next changes nothing. *)
Theorem double_free_is_noop :
  (∀ k m, Alloc.allocs m !! k = None → Alloc.freeAlloc k m = m)
  ∧ (∀ k s,
       (∀ w p, w ∈ waitingForMem s → processes s !! w = Some p → pid p ≠ k) →
       let s' := freeMemoryAndAwaken k s in
       Alloc.allocs (memoryManager s') !! k = None
       ∧ Alloc.freeAlloc k (memoryManager s') = memoryManager s').
Proof.
  assert (Hnoop : ∀ k m, Alloc.allocs m !! k = None → Alloc.freeAlloc k m = m).
  { intros k m Hk. unfold Alloc.freeAlloc. by rewrite Hk. }
  split; [exact Hnoop|].
  intros k s Hw s'.
  assert (Alloc.allocs (memoryManager s') !! k = None) as Hk; [|by auto].
  unfold s', freeMemoryAndAwaken. apply awaken_loop_unallocated; cbn; [|done].
  unfold Alloc.freeAlloc.
  destruct (Alloc.allocs (memoryManager s) !! k) as [[start size]|] eqn:Hk; [|done].
  cbn. apply lookup_delete_eq.
Qed.

Lemma double_free_is_noop_witness :
  Alloc.freeAlloc 1 (memoryManager (freeMemoryAndAwaken 1 three_loaded))
  = memoryManager (freeMemoryAndAwaken 1 three_loaded).
Proof.
  apply (proj2 double_free_is_noop 1 three_loaded).
  intros w p Hw. vm_compute in Hw. inversion Hw.
Defined.

End SimFacts.

Module AllocMore.
Import Alloc AllocFacts Props.

(** *** Allocate, then free *)
Lemma insert_by_start_head c r :
  match r with [] => True | h :: _ => c.1 ≤ h.1 end →
  insert_by_start c r = c :: r.
Proof. destruct r as [|h r]; simpl; [done|]. intros Hle. by rewrite decide_True. Qed.

Lemma sort_onto_place b (pre post : list Block) :
  ordered Z.lt (pre ++ post) →
  Forall (λ c : Block, c.1 < b.1) pre →
  Forall (λ c : Block, b.1 < c.1) post →
  foldr insert_by_start [b] (pre ++ post) = pre ++ b :: post.
Proof.
  induction pre as [|c pre IH]; simpl; intros Hord Hpre Hpost.
  - clear Hpre. induction post as [|c r IHr]; simpl; [done|].
    apply Forall_cons in Hpost as [Hc Hr].
    apply ordered_cons in Hord as (Hcpos & Hcr & Hordr).
    rewrite IHr by done. simpl. rewrite decide_False by lia. f_equal.
    apply insert_by_start_head. destruct r as [|h r]; [done|].
    apply Forall_cons in Hcr as [Hh _]. unfold ends_before in Hh. lia.
  - apply Forall_cons in Hpre as [Hc Hpre].
    apply ordered_cons in Hord as (Hcpos & Hcr & Hordr).
    rewrite IH by done. apply insert_by_start_head.
    destruct pre as [|h pre]; simpl; [lia|].
    apply Forall_cons in Hcr as [Hh _]. unfold ends_before in Hh. lia.
Qed.

Lemma merge_from_strict rest : ∀ cur,
  ordered Z.lt (cur :: rest) → merge_from cur rest = cur :: rest.
Proof.
  induction rest as [|b r IH]; intros cur Hord; simpl; [done|].
  apply ordered_cons in Hord as (_ & Hfa & Hord).
  apply Forall_cons in Hfa as [Hb _]. unfold ends_before in Hb.
  rewrite decide_False by lia. by rewrite IH.
Qed.

Lemma merge_adjacent_strict l : ordered Z.lt l → merge_adjacent l = l.
Proof.
  destruct l as [|x rest]; [done|]. intros Hord.
  by rewrite merge_adjacent_cons, merge_from_strict.
Qed.

Lemma merge_from_app r1 : ∀ cur x r2,
  ordered Z.lt (cur :: r1 ++ [x]) →
  merge_from cur (r1 ++ x :: r2) = cur :: r1 ++ merge_from x r2.
Proof.
  induction r1 as [|y r1 IH]; intros cur x r2 Hord; simpl.
  - apply ordered_cons in Hord as (_ & Hfa & _).
    apply Forall_cons in Hfa as [Hx _]. unfold ends_before in Hx.
    by rewrite decide_False by lia.
  - apply ordered_cons in Hord as (_ & Hfa & Hord). simpl in Hfa.
    apply Forall_cons in Hfa as [Hy _]. unfold ends_before in Hy.
    rewrite decide_False by lia. by rewrite IH.
Qed.

Lemma merge_adjacent_app pre x r2 :
  ordered Z.lt (pre ++ [x]) →
  merge_adjacent (pre ++ x :: r2) = pre ++ merge_from x r2.
Proof.
  destruct pre as [|c pre]; simpl; intros Hord.
  - apply merge_adjacent_cons.
  - by rewrite merge_adjacent_cons, merge_from_app.
Qed.

Lemma ordered_split pre (x : Block) post :
  ordered Z.lt (pre ++ x :: post) →
  Forall (λ c : Block, c.1 < x.1) pre ∧ Forall (λ c : Block, x.1 < c.1) post
  ∧ 0 < x.2.
Proof.
  rewrite ordered_app, ordered_cons. intros (Hx & [_ Hpre] & Hpos & Hfa & _).
  split_and!; [| |done].
  - apply Forall_forall. intros c Hc.
    specialize (Hx c x Hc (list_elem_of_here _ _)).
    rewrite Forall_forall in Hpre. specialize (Hpre c Hc).
    unfold ends_before in Hx. simpl in Hpre. lia.
  - eapply Forall_impl; [exact Hfa|]. intros c. unfold ends_before. lia.
Qed.

(** The round trip in integer arithmetic. *)
Lemma allocate_then_free pid size m b m' :
  Inv m → 0 < size → allocs m !! pid = None →
  firstFitAllocate pid size m = (Some b, m') →
  freeAlloc pid m' = m.
Proof.
  intros [Hfree _ _ _] Hsize Hnone Hfit. unfold firstFitAllocate in Hfit.
  destruct (list_find _ _) as [[idx [start sz]]|] eqn:Hfind; [|done].
  apply list_find_split in Hfind as (pre & post & Hl & Hlen & _ & Hle).
  simpl in Hle. injection Hfit as <- <-.
  unfold freeAlloc. cbn [allocs free total]. rewrite lookup_insert_eq.
  rewrite delete_insert_eq, delete_id by done.
  rewrite sort_by_start_push.
  rewrite Hl in Hfree. pose proof (ordered_split _ _ _ Hfree) as (Hpre & Hpost & Hpos).
  simpl in Hpre, Hpost, Hpos.
  destruct m as [tot fr al]. simpl in *. subst fr. f_equal.
  rewrite <- Hlen. destruct (decide (sz = size)) as [->|Hne].
  - rewrite delete_middle.
    rewrite (sort_onto_place (start, size) pre post); [|by eapply ordered_delete|done..].
    by apply merge_adjacent_strict.
  - replace (length pre) with (length pre + 0)%nat by lia.
    rewrite insert_app_r. simpl.
    rewrite (sort_onto_place (start, size) pre ((start + size, sz - size) :: post)).
    + rewrite merge_adjacent_app.
      * simpl. rewrite decide_True by done. simpl.
        replace (size + (sz - size)) with sz by lia.
        rewrite merge_from_strict; [done|].
        apply ordered_app in Hfree as (_ & _ & Hfree). done.
      * apply ordered_app. apply ordered_app in Hfree as (Hx & Hordpre & _).
        split_and!; [|done|].
        -- intros x1 x2 H1 ->%list_elem_of_singleton.
           apply (Hx x1 (start, sz) H1). by left.
        -- apply ordered_cons. split_and!; [done|constructor|apply ordered_nil].
    + apply ordered_shrink; [lia..|done].
    + done.
    + apply Forall_cons. split; [simpl; lia|done].
Qed.

(** *** Blocks stay inside the address space *)
Lemma merge_from_inside tot rest : ∀ cur,
  Forall (inside tot) (cur :: rest) → Forall (inside tot) (merge_from cur rest).
Proof.
  induction rest as [|b r IH]; intros cur Hfa; simpl; [done|].
  apply Forall_cons in Hfa as [Hc Hfa]. pose proof Hfa as Hfa'.
  apply Forall_cons in Hfa' as [Hb Hr].
  case_decide as Heq.
  - apply IH. apply Forall_cons. split; [|done].
    unfold inside in *; simpl. lia.
  - apply Forall_cons. split; [done|]. by apply IH.
Qed.

Lemma merge_adjacent_inside tot l :
  Forall (inside tot) l → Forall (inside tot) (merge_adjacent l).
Proof.
  destruct l as [|x rest]; [done|]. rewrite merge_adjacent_cons.
  apply merge_from_inside.
Qed.

Lemma call_total c m : total (call c m) = total m.
Proof.
  destruct c as [pid size|pid]; simpl.
  - unfold firstFitAllocate. by destruct (list_find _ _) as [[? [? ?]]|].
  - unfold freeAlloc. by destruct (allocs m !! pid) as [[? ?]|].
Qed.

Lemma run_total cs : ∀ m, total (run cs m) = total m.
Proof.
  induction cs as [|c cs IH]; intros m; [done|].
  by rewrite run_cons, IH, call_total.
Qed.

Lemma firstFitAllocate_bounded pid size m :
  0 < size → bounded m → bounded (firstFitAllocate pid size m).2.
Proof.
  intros Hsize [Hfr Hal]. unfold firstFitAllocate.
  destruct (list_find _ _) as [[idx [start sz]]|] eqn:Hfind; [|by split].
  apply list_find_Some in Hfind as (Hidx & Hfit & _). simpl in Hfit.
  assert (inside (total m) (start, sz)) as Hin.
  { rewrite Forall_lookup in Hfr. eauto. }
  split; simpl.
  - destruct (decide (sz = size)); [by apply Forall_delete|].
    apply Forall_insert; [done|]. unfold inside in *; simpl in *. lia.
  - intros p a. rewrite lookup_insert. destruct (decide (pid = p)); [|eauto].
    intros [= <-]. unfold inside in *; simpl in *. lia.
Qed.

Lemma freeAlloc_bounded pid m : bounded m → bounded (freeAlloc pid m).
Proof.
  intros [Hfr Hal]. unfold freeAlloc.
  destruct (allocs m !! pid) as [[start size]|] eqn:Hpid; [|by split].
  split; simpl.
  - apply merge_adjacent_inside. rewrite sort_by_start_push, sort_onto_perm.
    apply Forall_app. split; [done|]. apply Forall_singleton. eauto.
  - intros p a [_ Hp]%lookup_delete_Some. eauto.
Qed.

Lemma run_bounded cs : ∀ m, positive_sizes cs = true → bounded m → bounded (run cs m).
Proof.
  induction cs as [|c cs IH]; intros m Hcs Hb; [done|].
  rewrite positive_sizes_cons in Hcs. apply andb_true_iff in Hcs as [Hc Hcs].
  rewrite run_cons. apply IH; [done|].
  destruct c as [pid size|pid]; simpl.
  - apply firstFitAllocate_bounded; [|done].
    simpl in Hc. apply andb_true_iff in Hc as [Hc _]. by apply bool_decide_eq_true in Hc.
  - by apply freeAlloc_bounded.
Qed.

Lemma new_bounded tot : 0 ≤ tot → bounded (new tot).
Proof.
  intros Htot. split; simpl.
  - apply Forall_singleton. unfold inside; simpl. lia.
  - intros p a. by rewrite lookup_empty.
Qed.

(** In integer arithmetic every block handed out lies inside the address
    space and has a positive size. *)
Lemma allocated_blocks_inside tot cs pid b :
  positive_sizes cs = true →
  allocs (run cs (new tot)) !! pid = Some b →
  0 ≤ b.1 ∧ 0 < b.2 ∧ b.1 + b.2 ≤ tot.
Proof.
  intros Hcs Hb. destruct (run_reachable tot cs Hcs) as [[Htot Hinv]|[_ Heq]].
  - pose proof (run_bounded cs (new tot) Hcs (new_bounded tot ltac:(lia))) as [_ Hal].
    specialize (Hal pid b Hb). rewrite run_total in Hal. simpl in Hal.
    destruct Hinv as [_ Hpos _ _]. specialize (Hpos pid b Hb).
    unfold inside in Hal. lia.
  - rewrite Heq in Hb. simpl in Hb. by rewrite lookup_empty in Hb.
Qed.

(** *** Releasing everything *)
Lemma ordered_sum_bound hi (l : list Block) : ∀ c,
  ordered Z.lt (c :: l) → Forall (λ f : Block, f.1 + f.2 ≤ hi) (c :: l) →
  sizes_sum (c :: l) ≤ hi - c.1 - Z.of_nat (length l).
Proof.
  induction l as [|c' r IH]; intros c Hord Hhi.
  - apply Forall_cons in Hhi as [Hc _]. simpl. lia.
  - apply ordered_cons in Hord as (_ & Hfa & Hord).
    apply Forall_cons in Hfa as [Hc' _]. unfold ends_before in Hc'.
    apply Forall_cons in Hhi as [_ Hhi].
    specialize (IH c' Hord Hhi).
    change (sizes_sum (c :: c' :: r)) with (c.2 + sizes_sum (c' :: r)).
    rewrite length_cons, Nat2Z.inj_succ. lia.
Qed.

(** In integer arithmetic a full release gives the constructor's free list
    back. *)
Lemma all_released_restores_initial tot cs :
  positive_sizes cs = true →
  fresh_pids cs (new tot) = true →
  allocs (run cs (new tot)) = ∅ →
  run cs (new tot) = new tot.
Proof.
  intros Hcs Hfresh Hempty.
  destruct (run_reachable tot cs Hcs) as [[Htot Hinv]|[_ Heq]]; [|done].
  pose proof (run_conserves cs (new tot) Hfresh) as Hsum.
  rewrite new_conserved in Hsum.
  pose proof (run_bounded cs (new tot) Hcs (new_bounded tot ltac:(lia))) as [Hbd _].
  pose proof (run_total cs (new tot)) as Htotal. simpl in Htotal.
  destruct Hinv as [Hfree _ _ _].
  destruct (run cs (new tot)) as [tot' fr al]. simpl in *. subst tot' al.
  unfold allocatedSpace in Hsum. cbn [allocs] in Hsum. rewrite map_fold_empty in Hsum.
  rewrite freeSpace_sum in Hsum. cbn [free] in Hsum.
  unfold new. f_equal.
  destruct fr as [|c l]; [cbn in Hsum; lia|].
  assert (Forall (λ f : Block, f.1 + f.2 ≤ tot) (c :: l)) as Hhi.
  { eapply Forall_impl; [exact Hbd|]. intros f [_ ?]. done. }
  pose proof (ordered_sum_bound tot l c Hfree Hhi) as Hle.
  apply Forall_cons in Hbd as [[Hc0 _] _].
  destruct l as [|c' l].
  - cbn in Hsum, Hle. destruct c as [s sz]. cbn in *. f_equal. f_equal; lia.
  - rewrite length_cons, Nat2Z.inj_succ in Hle. lia.
Qed.

End AllocMore.

Module DoubleFacts.
Import Alloc Props AllocFacts AllocMore.

(** *** Rounding *)
Lemma pow_2_53 : 2 ^ 53 = 9007199254740992.
Proof. reflexivity. Qed.

Lemma round_double_exact z : Z.abs z ≤ 2 ^ 53 → round_double z = z.
Proof. intros Hz. unfold round_double. by rewrite decide_True. Qed.

Lemma round_double_within tot z :
  tot ≤ MAX_SAFE_INTEGER → 0 ≤ z ≤ tot → round_double z = z.
Proof.
  unfold MAX_SAFE_INTEGER. rewrite pow_2_53. intros Htot Hz.
  apply round_double_exact. rewrite pow_2_53. lia.
Qed.

Lemma round_double_safe z : safe_integer z → round_double z = z.
Proof.
  unfold safe_integer, MAX_SAFE_INTEGER. rewrite pow_2_53. intros Hz.
  apply round_double_exact. rewrite pow_2_53. lia.
Qed.

(** Rounding keeps the sign, so the comparator of the sort orders by start. *)
Lemma round_double_sign z : round_double z ≤ 0 ↔ z ≤ 0.
Proof.
  unfold round_double. case_decide as Hsmall; [done|].
  set (a := Z.abs z) in *.
  assert (2 ^ 53 < a) as Ha by lia.
  assert (53 ≤ Z.log2 a) as Hk.
  { rewrite <- (Z.log2_pow2 53) by lia. apply Z.log2_le_mono. lia. }
  destruct (Z.log2_spec a) as [Hlo _]; [rewrite pow_2_53 in Ha; lia|].
  set (ulp := 2 ^ (Z.log2 a - 52)).
  assert (0 < ulp) as Hulp by (apply Z.pow_pos_nonneg; lia).
  assert (ulp ≤ a) as Hle.
  { etrans; [|exact Hlo]. apply Z.pow_le_mono_r; lia. }
  assert (0 < a / ulp) as Hq by (apply Z.div_str_pos; lia).
  set (q := a / ulp) in *.
  assert (∀ q', q ≤ q' → (Z.sgn z * (q' * ulp) ≤ 0 ↔ z ≤ 0)) as Hsgn.
  { intros q' Hq'. assert (0 < q' * ulp) by nia.
    destruct (Z.lt_trichotomy z 0) as [Hz|[->|Hz]].
    - rewrite Z.sgn_neg by done. lia.
    - simpl. lia.
    - rewrite Z.sgn_pos by done. lia. }
  repeat case_decide; try destruct (Z.even q); apply Hsgn; lia.
Qed.

(** *** The sort *)
Lemma insert_by_start_exact b l :
  Doubles.insert_by_start b l = insert_by_start b l.
Proof.
  induction l as [|c r IH]; [done|]. simpl. rewrite IH.
  destruct (decide (round_double (b.1 - c.1) ≤ 0)) as [H|H], (decide (b.1 ≤ c.1));
    try done; rewrite round_double_sign in H; lia.
Qed.

Lemma sort_by_start_exact l : Doubles.sort_by_start l = sort_by_start l.
Proof.
  induction l as [|b l IH]; [done|].
  unfold Doubles.sort_by_start, sort_by_start in *. simpl.
  by rewrite IH, insert_by_start_exact.
Qed.

(** *** The merge pass on safe blocks *)
Lemma merge_step_exact tot merged b :
  tot ≤ MAX_SAFE_INTEGER →
  Forall (safe_block tot) merged → safe_block tot b →
  Doubles.merge_step merged b = merge_step merged b
  ∧ Forall (safe_block tot) (merge_step merged b).
Proof.
  intros Htot Hm Hb. destruct b as [s sz].
  unfold Doubles.merge_step, merge_step.
  destruct (last merged) as [[lastS lastSz]|] eqn:Hlast.
  - apply last_Some in Hlast as [l' ->].
    apply Forall_app in Hm as [Hl' Hx]. apply Forall_cons in Hx as [Hx _].
    unfold safe_block, inside in Hx, Hb. simpl in Hx, Hb.
    rewrite (round_double_within tot (lastS + lastSz)) by (done || lia).
    destruct (decide (lastS + lastSz = s)) as [Heq|Hne].
    + rewrite (round_double_within tot (lastSz + sz)) by (done || lia).
      split; [done|].
      rewrite length_app, Nat.add_1_r. simpl.
      replace (length l') with (length l' + 0)%nat by lia.
      rewrite insert_app_r. simpl.
      apply Forall_app. split; [done|]. apply Forall_singleton.
      unfold safe_block, inside; simpl; lia.
    + split; [done|]. apply Forall_app. split.
      * apply Forall_app. split; [done|]. apply Forall_singleton.
        unfold safe_block, inside; simpl; lia.
      * by apply Forall_singleton.
  - split; [done|]. by apply Forall_singleton.
Qed.

Lemma merge_fold_exact tot l : ∀ merged,
  tot ≤ MAX_SAFE_INTEGER →
  Forall (safe_block tot) merged → Forall (safe_block tot) l →
  foldl Doubles.merge_step merged l = foldl merge_step merged l
  ∧ Forall (safe_block tot) (foldl merge_step merged l).
Proof.
  induction l as [|b l IH]; intros merged Htot Hm Hl; [done|].
  apply Forall_cons in Hl as [Hb Hl]. simpl.
  destruct (merge_step_exact tot merged b Htot Hm Hb) as [-> Hm'].
  by apply IH.
Qed.

Lemma merge_adjacent_exact tot l :
  tot ≤ MAX_SAFE_INTEGER → Forall (safe_block tot) l →
  Doubles.merge_adjacent l = merge_adjacent l
  ∧ Forall (safe_block tot) (merge_adjacent l).
Proof. intros Htot Hl. by apply merge_fold_exact. Qed.

(** *** The two methods on a safe manager *)
Lemma firstFitAllocate_exact pid size m :
  safe_manager m → 0 ≤ size →
  Doubles.firstFitAllocate pid size m = firstFitAllocate pid size m
  ∧ safe_manager (firstFitAllocate pid size m).2.
Proof.
  intros (Htot & Hfr & Hal) Hsize.
  unfold Doubles.firstFitAllocate, firstFitAllocate.
  destruct (list_find _ _) as [[idx [start sz]]|] eqn:Hfind; [|by split].
  apply list_find_Some in Hfind as (Hidx & Hfit & _). simpl in Hfit.
  assert (safe_block (total m) (start, sz)) as Hs.
  { rewrite Forall_lookup in Hfr. eauto. }
  unfold safe_block, inside in Hs. simpl in Hs.
  rewrite (round_double_within (total m) (start + size)) by (done || lia).
  rewrite (round_double_within (total m) (sz - size)) by (done || lia).
  split; [done|]. split_and!; simpl; [done| |].
  - destruct (decide (sz = size)); [by apply Forall_delete|].
    apply Forall_insert; [done|]. unfold safe_block, inside; simpl; lia.
  - intros p a. rewrite lookup_insert. destruct (decide (pid = p)); [|eauto].
    intros [= <-]. unfold safe_block, inside; simpl; lia.
Qed.

Lemma freeAlloc_exact pid m :
  safe_manager m →
  Doubles.freeAlloc pid m = freeAlloc pid m ∧ safe_manager (freeAlloc pid m).
Proof.
  intros (Htot & Hfr & Hal). unfold Doubles.freeAlloc, freeAlloc.
  destruct (allocs m !! pid) as [[start size]|] eqn:Hpid; [|by split].
  rewrite sort_by_start_exact.
  assert (Forall (safe_block (total m)) (sort_by_start (free m ++ [(start, size)])))
    as Hsorted.
  { rewrite sort_by_start_push, sort_onto_perm.
    apply Forall_app. split; [done|]. apply Forall_singleton. eauto. }
  destruct (merge_adjacent_exact (total m) _ Htot Hsorted) as [-> Hmerged].
  split; [done|]. split_and!; simpl; [done..|].
  intros p a [_ Hp]%lookup_delete_Some. eauto.
Qed.

Lemma call_exact c m :
  safe_manager m → positive_sizes [c] = true →
  Doubles.call c m = call c m ∧ safe_manager (call c m).
Proof.
  intros Hm Hc. destruct c as [pid size|pid]; simpl.
  - simpl in Hc. apply andb_true_iff in Hc as [Hc _].
    apply bool_decide_eq_true in Hc.
    destruct (firstFitAllocate_exact pid size m Hm ltac:(lia)) as [-> Hs]. done.
  - by apply freeAlloc_exact.
Qed.

Lemma run_exact_from cs : ∀ m,
  safe_manager m → positive_sizes cs = true →
  Doubles.run cs m = run cs m ∧ safe_manager (run cs m).
Proof.
  induction cs as [|c cs IH]; intros m Hm Hcs; [done|].
  rewrite positive_sizes_cons in Hcs. apply andb_true_iff in Hcs as [Hc Hcs].
  destruct (call_exact c m Hm Hc) as [Hcall Hm'].
  rewrite run_cons. change (Doubles.run (c :: cs) m) with (Doubles.run cs (Doubles.call c m)).
  rewrite Hcall. by apply IH.
Qed.

Lemma fresh_pids_exact_from cs : ∀ m,
  safe_manager m → positive_sizes cs = true →
  Doubles.fresh_pids cs m = fresh_pids cs m.
Proof.
  induction cs as [|c cs IH]; intros m Hm Hcs; [done|].
  rewrite positive_sizes_cons in Hcs. apply andb_true_iff in Hcs as [Hc Hcs].
  destruct (call_exact c m Hm Hc) as [Hcall Hm'].
  simpl. rewrite Hcall. f_equal. by apply IH.
Qed.

Lemma new_safe tot : 0 ≤ tot ≤ MAX_SAFE_INTEGER → safe_manager (new tot).
Proof.
  intros Htot. split_and!; simpl; [lia| |].
  - apply Forall_singleton. unfold safe_block, inside; simpl; lia.
  - intros p a. by rewrite lookup_empty.
Qed.

(** A manager of negative capacity never grants a positive request. *)
Lemma call_negative tot c :
  tot < 0 → positive_sizes [c] = true → Doubles.call c (new tot) = new tot.
Proof.
  intros Htot. destruct c as [pid size|pid]; simpl; intros Hc; [|done].
  apply andb_true_iff in Hc as [Hc _]. apply bool_decide_eq_true in Hc.
  unfold Doubles.firstFitAllocate; simpl. case_decide; [lia|done].
Qed.

Lemma run_negative tot cs :
  tot < 0 → positive_sizes cs = true →
  Doubles.run cs (new tot) = new tot ∧ Doubles.fresh_pids cs (new tot) = true.
Proof.
  intros Htot. induction cs as [|c cs IH]; intros Hcs; [done|].
  rewrite positive_sizes_cons in Hcs. apply andb_true_iff in Hcs as [Hc Hcs].
  change (Doubles.run (c :: cs) (new tot))
    with (Doubles.run cs (Doubles.call c (new tot))).
  simpl. rewrite call_negative by done. destruct (IH Hcs) as [-> ->].
  split; [done|]. by destruct c.
Qed.

Lemma fresh_pids_negative tot cs :
  tot ≤ 0 → positive_sizes cs = true → fresh_pids cs (new tot) = true.
Proof.
  intros Htot. induction cs as [|c cs IH]; intros Hcs; [done|].
  rewrite positive_sizes_cons in Hcs. apply andb_true_iff in Hcs as [Hc Hcs].
  simpl. rewrite call_degenerate by done. rewrite IH by done. by destruct c.
Qed.

(** On a capacity that is a safe integer, the class in double arithmetic
    and the class in integer arithmetic go through the same managers. *)
Lemma run_exact tot cs :
  safe_integer tot → positive_sizes cs = true →
  Doubles.run cs (new tot) = run cs (new tot)
  ∧ Doubles.fresh_pids cs (new tot) = fresh_pids cs (new tot)
  ∧ (0 ≤ tot → safe_manager (run cs (new tot))).
Proof.
  intros [Hlo Hhi] Hcs. destruct (decide (0 ≤ tot)) as [Hpos|Hneg].
  - pose proof (new_safe tot ltac:(lia)) as Hnew.
    destruct (run_exact_from cs (new tot) Hnew Hcs) as [-> Hsafe].
    by rewrite fresh_pids_exact_from.
  - destruct (run_negative tot cs ltac:(lia) Hcs) as [-> ->].
    rewrite run_degenerate, fresh_pids_negative by (done || lia).
    split_and!; [done..|lia].
Qed.


Lemma freeAlloc_run_exact tot cs pid :
  safe_integer tot → positive_sizes cs = true →
  Doubles.freeAlloc pid (Doubles.run cs (new tot)) = freeAlloc pid (run cs (new tot)).
Proof.
  intros Htot Hcs. destruct (run_exact tot cs Htot Hcs) as (-> & _ & Hsafe).
  destruct (decide (0 ≤ tot)) as [Hpos|Hneg].
  - by destruct (freeAlloc_exact pid _ (Hsafe Hpos)) as [-> _].
  - rewrite run_degenerate by (done || lia). done.
Qed.

(** *** [freeSpace()] *)
Lemma sizes_sum_nonneg (l : list Block) :
  Forall (λ b : Block, 0 ≤ b.2) l → 0 ≤ sizes_sum l.
Proof.
  induction 1 as [|b l Hb _ IH]; [done|].
  change (sizes_sum (b :: l)) with (b.2 + sizes_sum l). lia.
Qed.

Lemma freeSpace_fold_exact (l : list Block) : ∀ acc,
  0 ≤ acc → Forall (λ b : Block, 0 ≤ b.2) l → acc + sizes_sum l ≤ 2 ^ 53 →
  foldl (λ tot (b : Block), round_double (tot + b.2)) acc l
  = foldl (λ tot (b : Block), tot + b.2) acc l.
Proof.
  induction l as [|b l IH]; intros acc Hacc Hl Hsum; [done|].
  apply Forall_cons in Hl as [Hb Hl].
  change (sizes_sum (b :: l)) with (b.2 + sizes_sum l) in Hsum.
  pose proof (sizes_sum_nonneg l Hl) as Hnn.
  simpl. rewrite (round_double_exact (acc + b.2)) by lia.
  apply IH; [lia|done|lia].
Qed.

Lemma freeSpace_exact tot cs :
  safe_integer tot → positive_sizes cs = true →
  Doubles.freeSpace (run cs (new tot)) = freeSpace (run cs (new tot)).
Proof.
  intros Htot Hcs. pose proof Htot as [Hlo Hhi].
  unfold MAX_SAFE_INTEGER in Hlo, Hhi.
  destruct (run_reachable tot cs Hcs) as [[Hpos [Hfree _ _ _]]|[Hneg ->]].
  - destruct (run_exact tot cs Htot Hcs) as (_ & _ & Hsafe).
    destruct (Hsafe ltac:(lia)) as (_ & Hfr & _).
    rewrite run_total in Hfr. simpl in Hfr.
    unfold Doubles.freeSpace, freeSpace.
    destruct (free (run cs (new tot))) as [|c l]; [done|].
    apply freeSpace_fold_exact; [done| |].
    + eapply Forall_impl; [exact Hfr|]. by intros b [_ ?].
    + assert (Forall (λ f : Block, f.1 + f.2 ≤ tot) (c :: l)) as Hend.
      { eapply Forall_impl; [exact Hfr|]. by intros b [[_ ?] _]. }
      pose proof (ordered_sum_bound tot l c Hfree Hend) as Hle.
      apply Forall_cons in Hfr as [[[Hc0 _] _] _]. lia.
  - unfold Doubles.freeSpace, freeSpace. simpl.
    apply round_double_exact. lia.
Qed.

(** *** Conservation *)

(** C3 (as stated) fails, in two ways.  A second [firstFitAllocate] for a
    pid that still holds a block overwrites the map entry, and the first
    block is neither free nor allocated any more.  And on a capacity above
    [2^53] the remainder of an interval is rounded: after one allocation
    of size 1 on capacity [2^53 + 2] the free list is [[1, 2^53]]. *)
Lemma conservation_fails :
  (let m := Doubles.run [CAlloc 1 40; CAlloc 1 50] (new 100) in
   ¬ (Doubles.freeSpace m + allocatedSpace m = 100 ∧ regions_disjoint m))
  ∧ (let m := Doubles.run [CAlloc 1 1] (new (2 ^ 53 + 2)) in
     ¬ (Doubles.freeSpace m + allocatedSpace m = 2 ^ 53 + 2 ∧ regions_disjoint m)).
Proof.
  split; intros m [Hsum _]; vm_compute in Hsum; discriminate.
Qed.

(** C3 (amended): on a manager whose capacity [tot] is a safe integer, for
    every sequence of [firstFitAllocate] and [freeAlloc] calls with positive
    sizes in which no pid is allocated while it holds a block, after each
    call [freeSpace()] plus the allocated space is [tot] and the allocated
    and free regions are pairwise disjoint. *)
Theorem conservation_on_safe_capacity tot cs pre post :
  safe_integer tot →
  positive_sizes cs = true →
  Doubles.fresh_pids cs (new tot) = true →
  cs = pre ++ post →
  let m := Doubles.run pre (new tot) in
  Doubles.freeSpace m + allocatedSpace m = tot ∧ regions_disjoint m.
Proof.
  intros Htot Hpos Hfresh Hcs m.
  destruct (run_exact tot cs Htot Hpos) as (_ & Hfr & _). rewrite Hfr in Hfresh.
  assert (positive_sizes pre = true) as Hpre.
  { rewrite Hcs, positive_sizes_app in Hpos. by apply andb_true_iff in Hpos as [? _]. }
  unfold m. destruct (run_exact tot pre Htot Hpre) as (-> & _ & _).
  rewrite freeSpace_exact by done.
  exact (conservation_and_disjointness tot cs pre post Hpos Hfresh Hcs).
Qed.

Lemma conservation_on_safe_capacity_witness :
  let m := Doubles.run [CAlloc 1 40; CAlloc 2 50; CFree 1] (new 100) in
  Doubles.freeSpace m + allocatedSpace m = 100 ∧ regions_disjoint m.
Proof.
  apply (conservation_on_safe_capacity 100
           [CAlloc 1 40; CAlloc 2 50; CFree 1; CAlloc 3 20]
           [CAlloc 1 40; CAlloc 2 50; CFree 1] [CAlloc 3 20]).
  - split; vm_compute; discriminate.
  - vm_compute; reflexivity.
  - vm_compute; reflexivity.
  - reflexivity.
Defined.

(** *** Coalescing *)

(** C4 (as stated) fails, in two ways.  A block of size 0 is released next
    to the interval it was taken from and is not merged into it:
    [[0, 100], [0, 0]].  And on a capacity above [2^53] the starts of the
    remainders are rounded: releasing the second of three blocks on
    capacity [2^53 + 10] leaves [[2^53, 8], [2^53, 1]]. *)
Lemma coalescing_fails :
  (let m := Doubles.freeAlloc 1 (Doubles.run [CAlloc 1 0] (new 100)) in
   ¬ (sorted_by_start (free m) ∧ no_adjacent (free m)))
  ∧ (let m := Doubles.freeAlloc 2
                (Doubles.run [CAlloc 1 (2 ^ 53); CAlloc 2 1; CAlloc 3 1]
                   (new (2 ^ 53 + 10))) in
     ¬ (sorted_by_start (free m) ∧ no_adjacent (free m))).
Proof.
  split.
  - intros m [_ Hna].
    apply (Hna 1%nat 0%nat (0, 0) (0, 100)); [lia|vm_compute; reflexivity..].
  - intros m [Hso _].
    assert ((2 ^ 53, 8).1 < (2 ^ 53, 1).1) as Hlt; [|simpl in Hlt; lia].
    apply (Hso 0%nat 1%nat); [lia|vm_compute; reflexivity..].
Qed.

(** C4 (amended): on a manager whose capacity is a safe integer, reached
    from the constructor by calls with positive sizes, after every
    [freeAlloc] call the free list is sorted by start address and no two of
    its intervals are adjacent. *)
Theorem coalescing_on_safe_capacity tot cs pid :
  safe_integer tot →
  positive_sizes cs = true →
  let m := Doubles.freeAlloc pid (Doubles.run cs (new tot)) in
  sorted_by_start (free m) ∧ no_adjacent (free m).
Proof.
  intros Htot Hcs m. unfold m. rewrite freeAlloc_run_exact by done.
  exact (freeAlloc_restores_coalescing tot cs pid Hcs).
Qed.

Lemma coalescing_on_safe_capacity_witness :
  let m := Doubles.freeAlloc 2
             (Doubles.run [CAlloc 1 40; CAlloc 2 50; CAlloc 3 10; CFree 1; CFree 3]
                (new 100)) in
  sorted_by_start (free m) ∧ no_adjacent (free m).
Proof.
  apply (coalescing_on_safe_capacity 100
           [CAlloc 1 40; CAlloc 2 50; CAlloc 3 10; CFree 1; CFree 3] 2).
  - split; vm_compute; discriminate.
  - vm_compute; reflexivity.
Defined.

(** *** First fit *)
Lemma firstFitAllocate_result pid size m :
  (Doubles.firstFitAllocate pid size m).1 = (firstFitAllocate pid size m).1.
Proof.
  unfold Doubles.firstFitAllocate, firstFitAllocate.
  by destruct (list_find _ _) as [[? [? ?]]|].
Qed.

(** C5 (as stated) fails on a capacity above [2^53]: the interval is shrunk
    from the front, but the remainder that is kept is rounded.  Taking 1
    from [[0, 2^53 + 2]] leaves [[1, 2^53]], not [[1, 2^53 + 1]]. *)
Lemma first_fit_remainder_is_rounded :
  let m := (Doubles.firstFitAllocate 1 1 (new (2 ^ 53 + 2))).2 in
  free m = [(1, 2 ^ 53)] ∧ free m ≠ [(0 + 1, (2 ^ 53 + 2) - 1)].
Proof. split; [vm_compute; reflexivity|vm_compute; discriminate]. Qed.

(** C5 (amended): [firstFitAllocate] takes the first interval, in list
    order, that is large enough; an exact fit removes the interval; a larger
    one, when the new start and the new size are safe integers, is shrunk
    from the front, the remainder staying free; the
    returned block starts where the interval started; when no interval fits
    the result is [null] and nothing changes.  In a manager reached from a
    safe capacity the list order is the ascending start order, so the
    chosen interval is the lowest one that fits.  The capacity-100 scenario
    ends as the document says. *)
Theorem first_fit_on_safe_integers :
  (∀ pid size m pre start sz post,
     free m = pre ++ (start, sz) :: post →
     Forall (λ c : Block, c.2 < size) pre →
     size ≤ sz →
     (sz ≠ size → safe_integer (start + size) ∧ safe_integer (sz - size)) →
     Doubles.firstFitAllocate pid size m =
       (Some (start, size),
        {| total := total m;
           free := if decide (sz = size) then pre ++ post
                   else pre ++ (start + size, sz - size) :: post;
           allocs := <[pid := (start, size)]> (allocs m) |}))
  ∧ (∀ pid size m,
       Forall (λ c : Block, c.2 < size) (free m) →
       Doubles.firstFitAllocate pid size m = (None, m))
  ∧ (∀ tot cs pid size b m',
       safe_integer tot →
       positive_sizes cs = true →
       Doubles.firstFitAllocate pid size (Doubles.run cs (new tot)) = (Some b, m') →
       ∀ f, f ∈ free (Doubles.run cs (new tot)) → size ≤ f.2 → b.1 ≤ f.1)
  ∧ (let m0 := new 100 in
     let '(r1, m1) := Doubles.firstFitAllocate 1 40 m0 in
     let '(r2, m2) := Doubles.firstFitAllocate 2 50 m1 in
     let '(r3, m3) := Doubles.firstFitAllocate 3 20 m2 in
     let m4 := Doubles.freeAlloc 1 m3 in
     let '(r5, m5) := Doubles.firstFitAllocate 3 20 m4 in
     r1 = Some (0, 40) ∧ r2 = Some (40, 50) ∧ free m2 = [(90, 10)]
     ∧ r3 = None ∧ m3 = m2
     ∧ free m4 = [(0, 40); (90, 10)]
     ∧ r5 = Some (0, 20)
     ∧ allocs m5 = <[2 := (40, 50)]> (<[3 := (0, 20)]> ∅)
     ∧ free m5 = [(20, 20); (90, 10)]
     ∧ Doubles.freeSpace m5 = 30).
Proof.
  split_and!.
  - intros pid size m pre start sz post Hl Hpre Hfit Hsafe.
    unfold Doubles.firstFitAllocate.
    rewrite Hl, (list_find_first_fit size pre post (start, sz)) by done.
    destruct (decide (sz = size)) as [Heq|Hne].
    + by rewrite delete_middle.
    + destruct (Hsafe Hne) as [Hstart Hsize].
      rewrite (round_double_safe (start + size)), (round_double_safe (sz - size))
        by done.
      replace (length pre) with (length pre + 0)%nat by lia.
      by rewrite insert_app_r.
  - intros pid size m Hall. unfold Doubles.firstFitAllocate.
    assert (list_find (λ b : Block, size ≤ b.2) (free m) = None) as ->; [|done].
    apply list_find_None. eapply Forall_impl; [exact Hall|]. intros c; simpl. lia.
  - intros tot cs pid size b m' Htot Hpos Hfit.
    destruct (run_exact tot cs Htot Hpos) as (Hrun & _ & _). rewrite Hrun in *.
    pose proof (firstFitAllocate_result pid size (run cs (new tot))) as Hres.
    rewrite Hfit in Hres. simpl in Hres.
    destruct (firstFitAllocate pid size (run cs (new tot))) as [r m''] eqn:Hfit'.
    simpl in Hres. subst r.
    exact (proj1 (proj2 (proj2 firstFitAllocate_first_fit))
             tot cs pid size b m'' Hpos Hfit').
  - vm_compute. split_and!; reflexivity.
Qed.

Lemma first_fit_on_safe_integers_witness :
  Doubles.firstFitAllocate 3 20
    {| total := 100; free := [(0, 10); (20, 40); (90, 10)]; allocs := ∅ |}
  = (Some (20, 20),
     {| total := 100; free := [(0, 10); (40, 20); (90, 10)];
        allocs := <[3 := (20, 20)]> ∅ |}).
Proof.
  apply (proj1 first_fit_on_safe_integers 3 20
           {| total := 100; free := [(0, 10); (20, 40); (90, 10)]; allocs := ∅ |}
           [(0, 10)] 20 40 [(90, 10)]).
  - reflexivity.
  - repeat constructor.
  - lia.
  - intros _. split; split; vm_compute; discriminate.
Defined.

(** *** Round trip, bounds and full release *)

(** X1: on a safe manager that satisfies the representation invariant, a
    successful [firstFitAllocate] for a pid without a block, followed by
    [freeAlloc] of that pid, gives back the manager one started from: the
    same free list (the freed block is merged back into the interval it was
    cut from) and the same map. *)
Theorem allocate_then_free_restores pid size m b m' :
  Inv m → safe_manager m → 0 < size → allocs m !! pid = None →
  Doubles.firstFitAllocate pid size m = (Some b, m') →
  Doubles.freeAlloc pid m' = m.
Proof.
  intros Hinv Hsafe Hsize Hpid Hfit.
  destruct (firstFitAllocate_exact pid size m Hsafe ltac:(lia)) as [Heq Hsafe'].
  rewrite Heq in Hfit. rewrite Hfit in Hsafe'. simpl in Hsafe'.
  destruct (freeAlloc_exact pid m' Hsafe') as [-> _].
  by apply (allocate_then_free pid size m b m').
Qed.

Lemma allocate_then_free_restores_witness :
  Doubles.freeAlloc 3
    {| total := 100; free := [(20, 20); (90, 10)];
       allocs := <[3 := (0, 20)]> (<[2 := (40, 50)]> ∅) |}
  = {| total := 100; free := [(0, 40); (90, 10)]; allocs := <[2 := (40, 50)]> ∅ |}.
Proof.
  apply (allocate_then_free_restores 3 20
           (run [CAlloc 1 40; CAlloc 2 50; CFree 1] (new 100)) (0, 20)).
  - apply run_Inv; [vm_compute; reflexivity|]. by apply new_Inv.
  - apply run_exact_from; [|vm_compute; reflexivity].
    apply new_safe. split; vm_compute; discriminate.
  - lia.
  - vm_compute; reflexivity.
  - vm_compute; reflexivity.
Defined.

(** X2: on a capacity [tot] that is a safe integer, every block handed out
    by the allocator lies inside the address space and has a positive
    size: in a manager reached from the constructor by calls with positive
    sizes, a block [b] held by a pid satisfies [0 ≤ start], [0 < size] and
    [start + size ≤ tot]. *)
Theorem blocks_inside_safe_capacity tot cs pid b :
  safe_integer tot →
  positive_sizes cs = true →
  allocs (Doubles.run cs (new tot)) !! pid = Some b →
  0 ≤ b.1 ∧ 0 < b.2 ∧ b.1 + b.2 ≤ tot.
Proof.
  intros Htot Hcs. destruct (run_exact tot cs Htot Hcs) as (-> & _ & _).
  by apply allocated_blocks_inside.
Qed.

Lemma blocks_inside_safe_capacity_witness :
  0 ≤ (40, 50).1 ∧ 0 < (40, 50).2 ∧ (40, 50).1 + (40, 50).2 ≤ 100.
Proof.
  apply (blocks_inside_safe_capacity 100 [CAlloc 1 40; CAlloc 2 50; CFree 1] 2 (40, 50)).
  - split; vm_compute; discriminate.
  - vm_compute; reflexivity.
  - vm_compute; reflexivity.
Defined.

(** X3: no fragmentation survives a full release.  On a capacity that is a
    safe integer, after any sequence of calls with positive sizes that
    never allocates for a pid holding a block, if no pid holds a block any
    more, the free list is again the single interval [[0, tot]] of the
    constructor. *)
Theorem full_release_restores_initial tot cs :
  safe_integer tot →
  positive_sizes cs = true →
  Doubles.fresh_pids cs (new tot) = true →
  allocs (Doubles.run cs (new tot)) = ∅ →
  Doubles.run cs (new tot) = new tot.
Proof.
  intros Htot Hcs. destruct (run_exact tot cs Htot Hcs) as (-> & -> & _).
  by apply all_released_restores_initial.
Qed.

Lemma full_release_restores_initial_witness :
  Doubles.run [CAlloc 1 40; CAlloc 2 50; CAlloc 3 10; CFree 2; CFree 1; CFree 3] (new 100)
  = new 100.
Proof.
  apply full_release_restores_initial.
  - split; vm_compute; discriminate.
  - vm_compute; reflexivity.
  - vm_compute; reflexivity.
  - vm_compute; reflexivity.
Defined.

End DoubleFacts.

Module SimMore.
Import Sim Props SimFacts.

(** *** [freeMemoryAndAwaken] serves the queue in arrival order *)
Lemma remove_first_head w rest : remove_first w (w :: rest) = rest.
Proof. unfold remove_first. simpl. by rewrite decide_True. Qed.

Lemma awaken_loop_fifo toTry : ∀ s,
  waitingForMem s = toTry →
  let s' := awaken_loop toTry s in
  ∃ served,
    toTry = served ++ waitingForMem s'
    ∧ readyQueue s' = readyQueue s ++ filter (λ w, is_Some (processes s !! w)) served
    ∧ match waitingForMem s' with
      | [] => True
      | w :: _ =>
          ∃ p, processes s' !! w = Some p
            ∧ (firstFitAllocateN (pid p) (memReq p) (memoryManager s')).1 = None
      end.
Proof.
  induction toTry as [|w rest IH]; intros s Hw; simpl.
  - exists []. rewrite Hw. split_and!; [done| |done]. simpl. by rewrite app_nil_r.
  - destruct (processes s !! w) as [p|] eqn:Hp.
    + pose proof (firstFitAllocateN_allocs (pid p) (memReq p) (memoryManager s)) as Hal.
      destruct (firstFitAllocateN (pid p) (memReq p) (memoryManager s))
        as [[b|] mm] eqn:Hfit.
      * match goal with |- context [awaken_loop rest ?s1] =>
          destruct (IH s1) as (served & Hsplit & Hrq & Hhead)
        end.
        { cbn. by rewrite Hw, remove_first_head. }
        exists (w :: served). split_and!.
        -- simpl. f_equal. exact Hsplit.
        -- rewrite Hrq. cbn [readyQueue set_readyQueue processes set_waitingForMem
                             set_processes set_memoryManager].
           rewrite filter_cons_True by (by rewrite Hp).
           rewrite <- app_assoc. simpl. do 2 f_equal.
           apply list_filter_iff. intros x. rewrite lookup_insert.
           case_decide; subst; [|done]. rewrite Hp. split; intros _; by eexists.
        -- exact Hhead.
      * subst mm. exists []. cbn. rewrite Hw. split_and!; [done|by rewrite app_nil_r|].
        exists p. by rewrite Hfit.
    + match goal with |- context [awaken_loop rest ?s1] =>
        destruct (IH s1) as (served & Hsplit & Hrq & Hhead)
      end.
      { cbn. by rewrite Hw, remove_first_head. }
      exists (w :: served). split_and!.
      * simpl. f_equal. exact Hsplit.
      * rewrite Hrq. cbn [readyQueue processes set_waitingForMem].
        rewrite filter_cons_False; [done|]. rewrite Hp. by intros [? ?].
      * exact Hhead.
Qed.

(** X4: [freeMemoryAndAwaken] is first-in first-out.  The entries it takes
    out of [waitingForMem] are a prefix [served] of the queue; of these,
    the ones that are in the process table are appended to the ready queue
    in their arrival order (the others are stale and dropped); and if the
    queue is not emptied, the walk stopped at its new head: a live process
    whose request the allocator cannot satisfy. *)
Theorem freeMemoryAndAwaken_fifo k s :
  let s' := freeMemoryAndAwaken k s in
  ∃ served,
    waitingForMem s = served ++ waitingForMem s'
    ∧ readyQueue s' = readyQueue s ++ filter (λ w, is_Some (processes s !! w)) served
    ∧ match waitingForMem s' with
      | [] => True
      | w :: _ =>
          ∃ p, processes s' !! w = Some p
            ∧ (firstFitAllocateN (pid p) (memReq p) (memoryManager s')).1 = None
      end.
Proof.
  unfold freeMemoryAndAwaken.
  apply (awaken_loop_fifo
           (waitingForMem (set_memoryManager (Alloc.freeAlloc k (memoryManager s)) s))
           (set_memoryManager (Alloc.freeAlloc k (memoryManager s)) s)).
  reflexivity.
Qed.


(** *** The "Progress IO" loop of [tick] *)
Lemma filter_ext_in {A} (P1 P2 : A → Prop)
    `{!∀ x, Decision (P1 x), !∀ x, Decision (P2 x)} (l : list A) :
  (∀ x, x ∈ l → (P1 x ↔ P2 x)) → filter P1 l = filter P2 l.
Proof.
  induction l as [|a l IH]; intros Hiff; [done|].
  rewrite !filter_cons.
  rewrite IH by (intros x Hx; apply Hiff; by right).
  apply decide_ext. apply Hiff. by left.
Qed.

Ltac io_member Hk' Hx0 :=
  first
    [ done
    | by destruct Hx0
    | exfalso; apply Hk', elem_of_app; by left
    | exfalso; apply Hk', elem_of_app; right; by left
    | exfalso; apply elem_of_app in Hk' as [?|?%list_elem_of_singleton]; congruence
    | idtac ].

Lemma tick_io_loop_pre cfg pre : ∀ suf s,
  ioQueue s = pre ++ suf → NoDup pre →
  let s' := tick_io_loop cfg (length pre) s in
  ioQueue s' = filter (λ k, io_stays s k) pre ++ suf
  ∧ readyQueue s' = readyQueue s ++ reverse (filter (λ k, io_wakes s k) pre)
  ∧ (∀ k, processes s' !! k
          = if decide (k ∈ pre) then io_step cfg <$> processes s !! k
            else processes s !! k).
Proof.
  induction pre as [|x pre0 IH] using rev_ind; intros suf s Hq Hnd.
  { cbn [length tick_io_loop]. split_and!; [done|by rewrite app_nil_r|].
    intros k. destruct (decide (k ∈ [])) as [Hin|]; [|done].
    by apply not_elem_of_nil in Hin. }
  apply NoDup_app in Hnd as (Hnd0 & Hx & _).
  assert (x ∉ pre0) as Hx0.
  { intros Hin. apply (Hx x Hin). by left. }
  rewrite <- app_assoc in Hq. simpl in Hq.
  rewrite length_app. simpl. rewrite Nat.add_1_r. cbn [tick_io_loop].
  rewrite Hq, list_lookup_middle by done. rewrite <- Hq.
  assert (∀ (P : Z → Prop) `{!∀ k, Decision (P k)},
            filter P (pre0 ++ [x]) = filter P pre0 ++ (if decide (P x) then [x] else []))
    as Hfilter.
  { intros P ?. by rewrite filter_app. }
  destruct (processes s !! x) as [p|] eqn:Hp.
  - cbn [ioRemaining set_ioRemaining].
    destruct (bool_decide (ioRemaining p - 1 ≤ 0)) eqn:Hdone.
    + apply bool_decide_eq_true in Hdone.
      match goal with |- context [tick_io_loop cfg _ ?s1] =>
        destruct (IH suf s1) as (Hio & Hrq & Hproc); [|done|]
      end.
      { cbn. by rewrite Hq, delete_middle. }
      cbn [processes readyQueue set_readyQueue set_processes set_ioQueue] in *.
      assert (∀ k, k ∈ pre0 → io_stays
                (set_readyQueue (readyQueue s ++ [x])
                   (set_processes
                      (<[x:=set_quantumLeft (TIME_QUANTUM cfg)
                              (set_state Listo (set_ioRemaining (ioRemaining p - 1) p))]>
                         (processes s))
                      (set_ioQueue (delete (length pre0) (ioQueue s)) s))) k
              = io_stays s k
              ∧ io_wakes
                (set_readyQueue (readyQueue s ++ [x])
                   (set_processes
                      (<[x:=set_quantumLeft (TIME_QUANTUM cfg)
                              (set_state Listo (set_ioRemaining (ioRemaining p - 1) p))]>
                         (processes s))
                      (set_ioQueue (delete (length pre0) (ioQueue s)) s))) k
              = io_wakes s k) as Hsame.
      { intros k Hk. unfold io_stays, io_wakes. cbn.
        rewrite lookup_insert_ne; [done|]. by intros ->. }
      split_and!.
      * rewrite Hio, Hfilter. rewrite decide_False.
        2:{ unfold io_stays. rewrite Hp. intros ?%Is_true_true%bool_decide_eq_true. lia. }
        rewrite app_nil_r. f_equal. apply filter_ext_in. intros k Hk.
        by rewrite (proj1 (Hsame k Hk)).
      * rewrite Hrq, Hfilter. rewrite decide_True.
        2:{ unfold io_wakes. rewrite Hp. apply Is_true_true, bool_decide_eq_true. lia. }
        rewrite reverse_snoc, <- app_assoc. simpl. do 3 f_equal.
        apply filter_ext_in. intros k Hk. by rewrite (proj2 (Hsame k Hk)).
      * intros k. rewrite Hproc, lookup_insert.
        destruct (decide (k ∈ pre0)) as [Hk|Hk],
          (decide (k ∈ pre0 ++ [x])) as [Hk'|Hk'],
          (decide (x = k)) as [->|Hne];
          io_member Hk' Hx0.
        rewrite Hp. simpl. unfold io_step. cbn [ioRemaining set_ioRemaining].
        by rewrite bool_decide_eq_true_2.
    + apply bool_decide_eq_false in Hdone.
      match goal with |- context [tick_io_loop cfg _ ?s1] =>
        destruct (IH (x :: suf) s1) as (Hio & Hrq & Hproc); [done|done|]
      end.
      cbn [processes readyQueue set_processes] in *.
      assert (∀ k, k ∈ pre0 → io_stays
                (set_processes
                   (<[x:=set_ioRemaining (ioRemaining p - 1) p]> (processes s)) s) k
              = io_stays s k
              ∧ io_wakes
                (set_processes
                   (<[x:=set_ioRemaining (ioRemaining p - 1) p]> (processes s)) s) k
              = io_wakes s k) as Hsame.
      { intros k Hk. unfold io_stays, io_wakes. cbn.
        rewrite lookup_insert_ne; [done|]. by intros ->. }
      split_and!.
      * rewrite Hio, Hfilter. rewrite decide_True.
        2:{ unfold io_stays. rewrite Hp. apply Is_true_true, bool_decide_eq_true. lia. }
        rewrite <- app_assoc. simpl. f_equal. apply filter_ext_in. intros k Hk.
        by rewrite (proj1 (Hsame k Hk)).
      * rewrite Hrq, Hfilter. rewrite decide_False.
        2:{ unfold io_wakes. rewrite Hp. intros ?%Is_true_true%bool_decide_eq_true. lia. }
        rewrite app_nil_r. do 2 f_equal.
        apply filter_ext_in. intros k Hk. by rewrite (proj2 (Hsame k Hk)).
      * intros k. rewrite Hproc, lookup_insert.
        destruct (decide (k ∈ pre0)) as [Hk|Hk],
          (decide (k ∈ pre0 ++ [x])) as [Hk'|Hk'],
          (decide (x = k)) as [->|Hne];
          io_member Hk' Hx0.
        rewrite Hp. simpl. unfold io_step. cbn [ioRemaining set_ioRemaining].
        by rewrite bool_decide_eq_false_2.
  - match goal with |- context [tick_io_loop cfg _ ?s1] =>
      destruct (IH suf s1) as (Hio & Hrq & Hproc); [|done|]
    end.
    { cbn. by rewrite Hq, delete_middle. }
    cbn [processes readyQueue set_ioQueue] in *.
    split_and!.
    + rewrite Hio, Hfilter. rewrite decide_False.
      2:{ unfold io_stays. rewrite Hp. intros []. }
      rewrite app_nil_r. done.
    + rewrite Hrq, Hfilter. rewrite decide_False.
      2:{ unfold io_wakes. rewrite Hp. intros []. }
      by rewrite app_nil_r.
    + intros k. rewrite Hproc.
      destruct (decide (k ∈ pre0)) as [Hk|Hk],
        (decide (k ∈ pre0 ++ [x])) as [Hk'|Hk'];
        io_member Hk' Hx0.
      apply elem_of_app in Hk' as [?|Hkx]; [done|].
      apply list_elem_of_singleton in Hkx as ->. by rewrite Hp.
Qed.

(** X5: the "Progress IO" loop of [tick], on an I/O queue without
    duplicates: every blocked process has its countdown decremented once;
    those that reach 0 become Listo with a full quantum and enter the ready
    queue, in the reverse of their order in the I/O queue (the loop runs
    from the tail); the others stay in the I/O queue in their order; an
    entry without a process is dropped; no other process is touched. *)
Theorem tick_io_loop_spec cfg s :
  NoDup (ioQueue s) →
  let s' := tick_io_loop cfg (length (ioQueue s)) s in
  ioQueue s' = filter (λ k, io_stays s k) (ioQueue s)
  ∧ readyQueue s' = readyQueue s ++ reverse (filter (λ k, io_wakes s k) (ioQueue s))
  ∧ (∀ k, processes s' !! k
          = if decide (k ∈ ioQueue s) then io_step cfg <$> processes s !! k
            else processes s !! k).
Proof.
  intros Hnd.
  destruct (tick_io_loop_pre cfg (ioQueue s) [] s) as (Hio & Hrq & Hproc);
    [by rewrite app_nil_r|done|].
  split_and!; [|done|done]. by rewrite Hio, app_nil_r.
Qed.


Lemma tick_io_loop_spec_witness :
  let s' := tick_io_loop CONFIG (length (ioQueue one_blocked)) one_blocked in
  ioQueue s' = filter (λ k, io_stays one_blocked k) (ioQueue one_blocked)
  ∧ readyQueue s'
    = readyQueue one_blocked
      ++ reverse (filter (λ k, io_wakes one_blocked k) (ioQueue one_blocked))
  ∧ (∀ k, processes s' !! k
          = if decide (k ∈ ioQueue one_blocked)
            then io_step CONFIG <$> processes one_blocked !! k
            else processes one_blocked !! k).
Proof.
  apply (tick_io_loop_spec CONFIG one_blocked).
  vm_compute. apply NoDup_singleton.
Defined.

(** *** What the queue phases leave alone *)

Lemma firstFitAllocateN_total k size m :
  Alloc.total (firstFitAllocateN k size m).2 = Alloc.total m.
Proof.
  destruct size as [z|]; [|done]. unfold firstFitAllocateN, Alloc.firstFitAllocate.
  by destruct (list_find _ _) as [[? [? ?]]|].
Qed.

Lemma freeAlloc_total k m : Alloc.total (Alloc.freeAlloc k m) = Alloc.total m.
Proof. unfold Alloc.freeAlloc. by destruct (Alloc.allocs m !! k) as [[? ?]|]. Qed.

Section Frame.
Context {A : Type} (f : Sim → A) `{!Frame f}.

Lemma tryAllocateAndEnqueue_frame p s : f (tryAllocateAndEnqueue p s) = f s.
Proof.
  unfold tryAllocateAndEnqueue.
  pose proof (firstFitAllocateN_total (pid p) (memReq p) (memoryManager s)) as Ht.
  destruct (firstFitAllocateN _ _ _) as [[b|] mm]; simpl in Ht.
  - by rewrite frame_readyQueue, frame_processes, frame_memoryManager.
  - by rewrite frame_waitingForMem, frame_processes, frame_memoryManager.
Qed.

Lemma tick_io_loop_frame cfg n : ∀ s, f (tick_io_loop cfg n s) = f s.
Proof.
  induction n as [|i IH]; intros s; [done|]. simpl.
  destruct (ioQueue s !! i) as [k|]; [|by rewrite IH].
  destruct (processes s !! k) as [p|]; [|by rewrite IH, frame_ioQueue].
  case_bool_decide; rewrite IH.
  - by rewrite frame_readyQueue, frame_processes, frame_ioQueue.
  - by rewrite frame_processes.
Qed.

Lemma schedule_frame cfg s : f (final (schedule cfg s)) = f s.
Proof.
  unfold schedule.
  destruct (currentRunning s) as [cur|], (readyQueue s) as [|k rest]; simpl; try done.
  - destruct (processes s !! cur); simpl; [|done]. by rewrite frame_processes.
  - destruct (processes s !! k); simpl;
      rewrite ?frame_processes; by rewrite frame_currentRunning, frame_readyQueue.
Qed.

Lemma awaken_loop_frame toTry : ∀ s, f (awaken_loop toTry s) = f s.
Proof.
  induction toTry as [|w rest IH]; intros s; [done|]. simpl.
  destruct (processes s !! w) as [p|]; [|by rewrite IH, frame_waitingForMem].
  pose proof (firstFitAllocateN_total (pid p) (memReq p) (memoryManager s)) as Ht.
  destruct (firstFitAllocateN _ _ _) as [[b|] mm]; simpl in Ht.
  - rewrite IH.
    by rewrite frame_readyQueue, frame_waitingForMem, frame_processes, frame_memoryManager.
  - by rewrite frame_memoryManager.
Qed.

Lemma freeMemoryAndAwaken_frame k s : f (freeMemoryAndAwaken k s) = f s.
Proof.
  unfold freeMemoryAndAwaken. rewrite awaken_loop_frame.
  apply frame_memoryManager, freeAlloc_total.
Qed.

Lemma processMemoryQueue_final s : final (processMemoryQueue s) = s.
Proof.
  unfold processMemoryQueue, processMemoryQueue_with.
  destruct (length (waitingForMem s)); [done|]. simpl.
  by destruct (_ ≫= _).
Qed.

Lemma terminateProcess_frame k s : f (final (terminateProcess k s)) = f s.
Proof.
  unfold terminateProcess, terminateProcess_with.
  destruct (processes s !! k) as [p|]; [|done].
  change (processMemoryQueue_with MemoryManager_alloc) with processMemoryQueue.
  rewrite processMemoryQueue_final.
  rewrite frame_currentRunning, frame_processStartTimes, frame_processes,
    frame_processWaitTimes, frame_totalWaitTime, frame_completedProcesses.
  destruct (truthy _); [|done]. apply frame_memoryManager, freeAlloc_total.
Qed.

Lemma tick_execute_frame cfg d s :
  f (final (tick_execute_with cfg MemoryManager_alloc d s)) = f s.
Proof.
  unfold tick_execute_with.
  destruct (currentRunning s) as [cur|]; [|done].
  destruct (processes s !! cur) as [p|]; [|apply frame_currentRunning].
  destruct (io d).
  { simpl. by rewrite frame_currentRunning, frame_ioQueue, frame_processes. }
  destruct (js_le _ _).
  - change (terminateProcess_with MemoryManager_alloc) with terminateProcess.
    rewrite terminateProcess_frame, frame_currentRunning, freeMemoryAndAwaken_frame.
    apply frame_processes.
  - destruct (_ && _); simpl.
    + by rewrite frame_currentRunning, frame_readyQueue, !frame_processes.
    + case_bool_decide; simpl; by rewrite !frame_processes.
Qed.

Lemma tick_retry_loop_frame n : ∀ s,
  f (final (tick_retry_loop MemoryManager_alloc n s)) = f s.
Proof.
  induction n as [|i IH]; intros s; [done|]. simpl.
  destruct (_ ≫= _); [done|]. by rewrite IH, frame_waitingForMem.
Qed.

Lemma tick_frame cfg d s :
  f (final (tick cfg d s))
  = f (maybeCreateRandomProcess cfg d (set_tickCount (tickCount s + 1) s)).
Proof.
  unfold tick, tick_with, tick_phases_with, tick_retry_with.
  set (s1 := maybeCreateRandomProcess cfg d _).
  rewrite <- (tick_io_loop_frame cfg (length (ioQueue s1)) s1).
  set (s2 := tick_io_loop cfg _ s1).
  pose proof (schedule_frame cfg s2) as Hsch.
  destruct (schedule cfg s2) as [s3|s3]; simpl in *; [|done].
  pose proof (tick_execute_frame cfg d s3) as Hex.
  destruct (tick_execute_with cfg MemoryManager_alloc d s3) as [s4|s4];
    simpl in *; [|congruence].
  rewrite tick_retry_loop_frame. congruence.
Qed.

End Frame.

(** X6: whatever a tick does, and whether it returns or throws, it
    advances [tickCount] by exactly one, takes one new pid and counts one
    created process exactly when it spawns, and leaves [isRunning] and the
    capacity of the memory manager alone. *)
Theorem tick_counters cfg d s :
  let s' := final (tick cfg d s) in
  let spawned := match spawn d with Some _ => 1 | None => 0 end in
  tickCount s' = tickCount s + 1
  ∧ PID_COUNTER s' = PID_COUNTER s + spawned
  ∧ totalProcessesCreated s' = totalProcessesCreated s + spawned
  ∧ isRunning s' = isRunning s
  ∧ Alloc.total (memoryManager s') = Alloc.total (memoryManager s).
Proof.
  cbv zeta.
  rewrite (tick_frame tickCount), (tick_frame PID_COUNTER),
    (tick_frame totalProcessesCreated), (tick_frame isRunning),
    (tick_frame (λ s, Alloc.total (memoryManager s))).
  unfold maybeCreateRandomProcess.
  destruct (spawn d) as [[m c]|].
  - cbn [newProcess].
    rewrite (tryAllocateAndEnqueue_frame tickCount),
      (tryAllocateAndEnqueue_frame PID_COUNTER),
      (tryAllocateAndEnqueue_frame totalProcessesCreated),
      (tryAllocateAndEnqueue_frame isRunning),
      (tryAllocateAndEnqueue_frame (λ s, Alloc.total (memoryManager s))).
    cbn. by split_and!.
  - cbn. split_and!; (done || lia).
Qed.

End SimMore.

Module SimInv.
Import Sim Props SimFacts SimMore.

(** *** Counting occurrences *)
Lemma count_nil k : count k [] = 0%nat.
Proof. done. Qed.

Lemma count_cons k x l :
  count k (x :: l) = ((if decide (x = k) then 1 else 0) + count k l)%nat.
Proof. unfold count. rewrite filter_cons. by case_decide. Qed.

Lemma count_app k l1 l2 : count k (l1 ++ l2) = (count k l1 + count k l2)%nat.
Proof. unfold count. by rewrite filter_app, length_app. Qed.

Lemma count_snoc k l x :
  count k (l ++ [x]) = (count k l + if decide (x = k) then 1 else 0)%nat.
Proof. rewrite count_app, count_cons, count_nil. case_decide; lia. Qed.

Lemma count_delete k l (i : nat) x :
  l !! i = Some x →
  (count k (delete i l) + (if decide (x = k) then 1 else 0) = count k l)%nat.
Proof.
  intros Hi. rewrite <- (take_drop_middle l i x Hi) at 2.
  rewrite delete_take_drop, !count_app, count_cons. case_decide; lia.
Qed.

Lemma count_lookup l (i : nat) x : l !! i = Some x → (0 < count x l)%nat.
Proof.
  intros Hi. pose proof (count_delete x l i x Hi) as H.
  rewrite decide_True in H by done. lia.
Qed.

Lemma count_elem_of k l : (0 < count k l)%nat ↔ k ∈ l.
Proof.
  induction l as [|x l IH]; [rewrite count_nil, elem_of_nil; lia|].
  rewrite count_cons, elem_of_cons. case_decide; subst.
  - split; [by left|lia].
  - rewrite <- IH. split; [by right|]. intros [->|?]; [done|lia].
Qed.


(** *** Moves between the places keep the queue invariant *)

(** The queue invariant reads only the process table, the three queues,
    the CPU and the pid counter. *)
Lemma queues_wf_ext s s' :
  processes s' = processes s → readyQueue s' = readyQueue s →
  ioQueue s' = ioQueue s → waitingForMem s' = waitingForMem s →
  currentRunning s' = currentRunning s → PID_COUNTER s' = PID_COUNTER s →
  queues_wf s → queues_wf s'.
Proof.
  intros Hp Hr Hi Hw Hc Hn [Hpid Hocc Hst]. split.
  - intros k p. rewrite Hp, Hn. apply Hpid.
  - intros k. unfold occurrences, on_cpu. rewrite Hp, Hr, Hi, Hw, Hc. apply Hocc.
  - intros k p. unfold placed. rewrite Hp, Hr, Hi, Hw, Hc. apply Hst.
Qed.

(** A pid found in a queue, or on the CPU, is in the process table. *)
Lemma occurs_live s k :
  queues_wf s → (0 < occurrences s k)%nat → is_Some (processes s !! k).
Proof.
  intros [_ Hocc _] Hk. specialize (Hocc k).
  destruct (processes s !! k); [by eexists|lia].
Qed.

Lemma ready_live s k : queues_wf s → k ∈ readyQueue s → is_Some (processes s !! k).
Proof.
  intros Hwf Hk%count_elem_of. apply (occurs_live s k Hwf). unfold occurrences. lia.
Qed.
Lemma io_live s k : queues_wf s → k ∈ ioQueue s → is_Some (processes s !! k).
Proof.
  intros Hwf Hk%count_elem_of. apply (occurs_live s k Hwf). unfold occurrences. lia.
Qed.
Lemma waiting_live s k :
  queues_wf s → k ∈ waitingForMem s → is_Some (processes s !! k).
Proof.
  intros Hwf Hk%count_elem_of. apply (occurs_live s k Hwf). unfold occurrences. lia.
Qed.
Lemma running_live s k :
  queues_wf s → currentRunning s = Some k → is_Some (processes s !! k).
Proof.
  intros Hwf Hk. apply (occurs_live s k Hwf). unfold occurrences, on_cpu.
  rewrite decide_True by done. lia.
Qed.

(** Where a live process is, by its state. *)
Lemma state_of_place s k p :
  queues_wf s → processes s !! k = Some p →
  (k ∈ readyQueue s → state p = Listo)
  ∧ (k ∈ ioQueue s → state p = Bloqueado)
  ∧ (k ∈ waitingForMem s → state p = EsperandoMem)
  ∧ (currentRunning s = Some k → state p = Ejecutando).
Proof.
  intros [_ Hocc Hst] Hp. specialize (Hocc k). specialize (Hst k p Hp).
  rewrite Hp in Hocc. unfold occurrences, on_cpu, placed in *.
  rewrite <- !count_elem_of.
  destruct (state p); try done; case_decide; split_and!; intros; (done || lia).
Qed.

(** An update of a process that keeps its pid and state. *)
Lemma queues_wf_update s k p p' :
  queues_wf s → processes s !! k = Some p →
  pid p' = pid p → state p' = state p →
  queues_wf (set_processes (<[k := p']> (processes s)) s).
Proof.
  intros [Hpid Hocc Hst] Hp Hpid' Hstate'. split; cbn.
  - intros j q. rewrite lookup_insert. case_decide; [|by apply Hpid].
    intros [= <-]. subst j. rewrite Hpid'. by apply Hpid.
  - intros j. specialize (Hocc j). rewrite lookup_insert.
    case_decide; [subst j; by rewrite Hp in Hocc|done].
  - intros j q. rewrite lookup_insert. case_decide; [|by apply Hst].
    intros [= <-]. subst j. specialize (Hst k p Hp).
    unfold placed in *. by rewrite Hstate'.
Qed.


(** The general step: the entry of one pid [x] is written (or deleted) and
    [x] is put in the place its new state names (or in none); every other
    pid stays where it is. *)
Lemma queues_wf_change s s' x (o' : option Process) :
  queues_wf s →
  processes s' = match o' with
                 | Some p' => <[x := p']> (processes s)
                 | None => delete x (processes s)
                 end →
  same_places s s' x →
  PID_COUNTER s ≤ PID_COUNTER s' →
  match o' with
  | Some p' => pid p' = x ∧ x < PID_COUNTER s'
               ∧ occurrences s' x = 1%nat ∧ placed s' x p'
  | None => occurrences s' x = 0%nat
  end →
  queues_wf s'.
Proof.
  intros [Hpid Hocc Hst] Hproc Hsame Hn Hx. split.
  - intros k q. rewrite Hproc. destruct o' as [p'|].
    + rewrite lookup_insert. case_decide.
      * intros [= <-]. subst k. tauto.
      * intros Hq. destruct (Hpid k q Hq). split; [done|lia].
    + intros [_ Hq]%lookup_delete_Some. destruct (Hpid k q Hq). split; [done|lia].
  - intros k. rewrite Hproc. destruct (decide (k = x)) as [->|Hne].
    + destruct o' as [p'|].
      * rewrite lookup_insert_eq. tauto.
      * by rewrite lookup_delete_eq.
    + assert (occurrences s' k = occurrences s k) as ->.
      { destruct (Hsame k Hne) as (Hr & Hi & Hw & Hc).
        unfold occurrences, on_cpu. rewrite Hr, Hi, Hw.
        do 2 case_decide; tauto || lia. }
      rewrite Hocc. destruct o' as [p'|].
      * by rewrite lookup_insert_ne.
      * by rewrite lookup_delete_ne.
  - intros k q. rewrite Hproc. destruct (decide (k = x)) as [->|Hne].
    + destruct o' as [p'|].
      * rewrite lookup_insert_eq. intros [= <-]. tauto.
      * by rewrite lookup_delete_eq.
    + intros Hq. assert (processes s !! k = Some q) as Hq'.
      { destruct o' as [p'|].
        - by rewrite lookup_insert_ne in Hq.
        - by rewrite lookup_delete_ne in Hq. }
      specialize (Hst k q Hq'). destruct (Hsame k Hne) as (Hr & Hi & Hw & Hc).
      unfold placed in *. destruct (state q); rewrite ?Hr, ?Hi, ?Hw; tauto.
Qed.

(** The places of a pid that is not in the table are all empty. *)
Lemma dead_nowhere s k :
  queues_wf s → processes s !! k = None →
  count k (readyQueue s) = 0%nat ∧ count k (ioQueue s) = 0%nat
  ∧ count k (waitingForMem s) = 0%nat ∧ currentRunning s ≠ Some k.
Proof.
  intros [_ Hocc _] Hk. specialize (Hocc k). rewrite Hk in Hocc.
  unfold occurrences, on_cpu in Hocc. case_decide; [lia|]. split_and!; (done || lia).
Qed.

(** The places of a live pid, by the place it is found in. *)
Lemma live_elsewhere s k :
  queues_wf s → is_Some (processes s !! k) →
  (count k (readyQueue s) + count k (ioQueue s) + count k (waitingForMem s)
   + on_cpu s k = 1)%nat.
Proof.
  intros [_ Hocc _] [p Hp]. specialize (Hocc k). by rewrite Hp in Hocc.
Qed.


(** *** The allocator under the simulator's requests *)
Lemma allocN_step k size m :
  Alloc.Inv m →
  Alloc.freeSpace m + Alloc.allocatedSpace m = Alloc.total m →
  Alloc.allocs m !! k = None →
  req_ok size →
  let r := firstFitAllocateN k size m in
  Alloc.Inv r.2
  ∧ Alloc.freeSpace r.2 + Alloc.allocatedSpace r.2 = Alloc.total r.2
  ∧ match r.1 with
    | Some b => Alloc.allocs r.2 = <[k := b]> (Alloc.allocs m) ∧ size = Num b.2
    | None => r.2 = m
    end.
Proof.
  intros Hinv Hsum Hnone Hreq r.
  pose proof (firstFitAllocateN_allocs k size m) as Hal.
  pose proof (firstFitAllocateN_total k size m) as Ht.
  unfold r. destruct size as [z|]; simpl in *.
  - split_and!.
    + by apply AllocFacts.firstFitAllocate_inv.
    + rewrite Ht, <- Hsum. by apply AllocFacts.firstFitAllocate_conserves.
    + unfold Alloc.firstFitAllocate in *.
      by destruct (list_find _ _) as [[? [? ?]]|].
  - by split_and!.
Qed.

Lemma freeAlloc_step k m :
  Alloc.Inv m →
  Alloc.freeSpace m + Alloc.allocatedSpace m = Alloc.total m →
  Alloc.Inv (Alloc.freeAlloc k m)
  ∧ Alloc.freeSpace (Alloc.freeAlloc k m) + Alloc.allocatedSpace (Alloc.freeAlloc k m)
    = Alloc.total (Alloc.freeAlloc k m)
  ∧ Alloc.allocs (Alloc.freeAlloc k m) = delete k (Alloc.allocs m).
Proof.
  intros Hinv Hsum. split_and!.
  - by apply AllocFacts.freeAlloc_inv.
  - by rewrite freeAlloc_total, AllocFacts.freeAlloc_conserves.
  - unfold Alloc.freeAlloc. destruct (Alloc.allocs m !! k) as [[? ?]|] eqn:Hk; [done|].
    by rewrite delete_id.
Qed.

(** *** Steps that keep well-formedness *)

(** A process is rewritten, keeping its pid, block and requirement, and
    moved to the place of its new state; the memory manager is untouched. *)
Lemma WF_move c s s' x p p' :
  WF_except c s →
  processes s !! x = Some p →
  processes s' = <[x := p']> (processes s) →
  memoryManager s' = memoryManager s →
  PID_COUNTER s' = PID_COUNTER s →
  pid p' = pid p → memBlock p' = memBlock p → memReq p' = memReq p →
  state p ≠ EsperandoMem → state p' ≠ EsperandoMem →
  same_places s s' x →
  occurrences s' x = 1%nat →
  placed s' x p' →
  WF_except c s'.
Proof.
  intros (Hq & [Hal Hrel Hwt Hho Hreq] & Ha) Hp Hproc Hmm Hn Hpid Hblk Hmr Hst0 Hst
    Hsame Hocc Hpl.
  split_and!.
  - apply (queues_wf_change s s' x (Some p')); [done..|lia|].
    destruct (wf_pid s Hq x p Hp). split_and!; [congruence|lia|done..].
  - split.
    + intros k Hk. rewrite Hmm, Hproc, (Hal k Hk), lookup_insert.
      case_decide; [subst k; by rewrite Hp; simpl; rewrite Hblk|done].
    + intros k Hk. rewrite Hmm. by apply Hrel.
    + intros k q. rewrite Hproc, lookup_insert. case_decide; [|by apply Hwt].
      intros [= <-]. done.
    + intros k q. rewrite Hproc, lookup_insert. case_decide; [|by apply Hho].
      intros [= <-] _. rewrite Hblk, Hmr. by apply (Hho x).
    + intros k q. rewrite Hproc, lookup_insert. case_decide; [|by apply Hreq].
      intros [= <-]. rewrite Hmr. by apply (Hreq x).
  - unfold allocator_wf. by rewrite Hmm.
Qed.

(** The same, when the process also stays in its place and state. *)
Lemma WF_update c s x p p' :
  WF_except c s →
  processes s !! x = Some p →
  pid p' = pid p → memBlock p' = memBlock p → memReq p' = memReq p →
  state p' = state p →
  WF_except c (set_processes (<[x := p']> (processes s)) s).
Proof.
  intros (Hq & [Hal Hrel Hwt Hho Hreq] & Ha) Hp Hpid Hblk Hmr Hst. split_and!.
  - by eapply queues_wf_update.
  - split; cbn.
    + intros k Hk. rewrite (Hal k Hk), lookup_insert.
      case_decide; [subst k; by rewrite Hp; simpl; rewrite Hblk|done].
    + done.
    + intros k q. rewrite lookup_insert. case_decide; [|by apply Hwt].
      intros [= <-]. rewrite Hst, Hblk. by apply (Hwt x).
    + intros k q. rewrite lookup_insert. case_decide; [|by apply Hho].
      intros [= <-]. rewrite Hst, Hblk, Hmr. by apply (Hho x).
    + intros k q. rewrite lookup_insert. case_decide; [|by apply Hreq].
      intros [= <-]. rewrite Hmr. by apply (Hreq x).
  - done.
Qed.


(** Rewriting the counts of the queues that the code builds. *)
Ltac fields :=
  cbn [processes readyQueue ioQueue waitingForMem currentRunning PID_COUNTER
       memoryManager state pid memBlock memReq
       set_processes set_readyQueue set_ioQueue set_waitingForMem
       set_currentRunning set_memoryManager set_PID_COUNTER
       set_totalProcessesCreated set_processStartTimes set_tickCount
       set_completedProcesses set_totalWaitTime set_processWaitTimes
       set_state set_memBlock set_quantumLeft set_ioRemaining set_remainingCpu] in *.

Ltac counts :=
  unfold occurrences, on_cpu, placed in *;
  fields;
  rewrite ?count_snoc, ?count_cons, ?count_nil in *;
  repeat case_decide; simplify_eq;
  repeat match goal with |- _ ∧ _ => split end;
  try done; try lia; try tauto; try (split; intros ?; congruence).

(** *** Creating a process *)
Lemma spawn_WF cfg (req cpu : JsNum) s :
  WF s → req_ok req →
  let k0 := PID_COUNTER s in
  let p0 := {| pid := k0; memReq := req; totalCpu := cpu; remainingCpu := cpu;
               state := Nuevo; memBlock := MemNull;
               quantumLeft := TIME_QUANTUM cfg; ioRemaining := 0 |} in
  WF (tryAllocateAndEnqueue p0
        (set_totalProcessesCreated (totalProcessesCreated s + 1)
           (set_processStartTimes (<[k0 := tickCount s]> (processStartTimes s))
              (set_processes (<[k0 := p0]> (processes s))
                 (set_PID_COUNTER (k0 + 1) s))))).
Proof.
  intros (Hq & [Hal _ Hwt Hho Hreq] & Hinv & Hsum) Hok k0 p0.
  assert (processes s !! k0 = None) as Hfresh.
  { destruct (processes s !! k0) as [q|] eqn:Hk; [|done].
    destruct (wf_pid s Hq k0 q Hk). unfold k0 in *. lia. }
  destruct (dead_nowhere s k0 Hq Hfresh) as (Hr0 & Hi0 & Hw0 & Hc0).
  assert (Alloc.allocs (memoryManager s) !! k0 = None) as Hnone.
  { rewrite Hal by done. by rewrite Hfresh. }
  unfold tryAllocateAndEnqueue.
  change (pid p0) with k0. change (memReq p0) with req.
  match goal with |- context [firstFitAllocateN k0 req ?m] =>
    change m with (memoryManager s)
  end.
  pose proof (allocN_step k0 req (memoryManager s) Hinv Hsum Hnone Hok)
    as (Hinv' & Hsum' & Hres).
  destruct (firstFitAllocateN k0 req (memoryManager s)) as [[b|] mm]; simpl in *.
  - split_and!.
    + eapply (queues_wf_change s _ k0 (Some _)); [done|..].
      * cbn. apply insert_insert_eq.
      * intros k Hk. counts.
      * cbn. lia.
      * split_and!; [done|cbn; lia|counts|counts].
    + destruct Hres as [Hres Hsize]. split; cbn.
      * intros k _. rewrite Hres, insert_insert_eq, !lookup_insert.
        case_decide; [done|]. by apply Hal.
      * done.
      * intros k q. rewrite insert_insert_eq, lookup_insert. case_decide; [|by apply Hwt].
        by intros [= <-].
      * intros k q. rewrite insert_insert_eq, lookup_insert. case_decide; [|by apply Hho].
        intros [= <-] _. by exists b.
      * intros k q. rewrite insert_insert_eq, lookup_insert. case_decide; [|by apply Hreq].
        by intros [= <-].
    + by split.
  - subst mm. split_and!.
    + eapply (queues_wf_change s _ k0 (Some _)); [done|..].
      * cbn. apply insert_insert_eq.
      * intros k Hk. counts.
      * cbn. lia.
      * split_and!; [done|cbn; lia|counts|counts].
    + split; cbn.
      * intros k _. rewrite insert_insert_eq, lookup_insert.
        case_decide; [by subst k|]. by apply Hal.
      * done.
      * intros k q. rewrite insert_insert_eq, lookup_insert. case_decide; [|by apply Hwt].
        by intros [= <-].
      * intros k q. rewrite insert_insert_eq, lookup_insert. case_decide; [|by apply Hho].
        by intros [= <-].
      * intros k q. rewrite insert_insert_eq, lookup_insert. case_decide; [|by apply Hreq].
        by intros [= <-].
    + by split.
Qed.

(** *** The "Progress IO" loop *)
Lemma tick_io_loop_WF cfg c n : ∀ s,
  WF_except c s → WF_except c (tick_io_loop cfg n s).
Proof.
  induction n as [|i IH]; intros s Hwf; [done|]. cbn [tick_io_loop].
  destruct (ioQueue s !! i) as [x|] eqn:Hi; [|by apply IH].
  pose proof Hwf as (Hq & _ & _).
  destruct (io_live s x Hq) as [p Hp]; [by eapply list_elem_of_lookup_2|].
  rewrite Hp.
  pose proof (live_elsewhere s x Hq (mk_is_Some _ _ Hp)) as Hone.
  pose proof (count_lookup _ _ _ Hi) as Hin.
  assert (state p = Bloqueado) as Hsp.
  { apply (state_of_place s x p Hq Hp). by eapply list_elem_of_lookup_2. }
  case_bool_decide; apply IH.
  - eapply (WF_move c s _ x p); [done|done|reflexivity..|by rewrite Hsp|done| | |].
    + intros k Hk. pose proof (count_delete k _ _ _ Hi). counts.
    + pose proof (count_delete x _ _ _ Hi). counts.
    + counts.
  - eapply WF_update; done.
Qed.


(** *** [schedule] *)
Lemma schedule_WF cfg c s :
  WF_except c s → ∃ s', schedule cfg s = Returned s' ∧ WF_except c s'.
Proof.
  intros Hwf. pose proof Hwf as (Hq & _ & _). unfold schedule.
  destruct (currentRunning s) as [cur|] eqn:Hcur, (readyQueue s) as [|k rest] eqn:Hrq.
  - destruct (running_live s cur Hq Hcur) as [p Hp]. rewrite Hp.
    eexists. split; [done|]. by eapply WF_update.
  - by eexists.
  - by eexists.
  - destruct (ready_live s k Hq) as [p Hp]; [rewrite Hrq; by left|].
    cbn [processes set_currentRunning set_readyQueue]. rewrite Hp.
    eexists. split; [done|].
    pose proof (live_elsewhere s k Hq (mk_is_Some _ _ Hp)) as Hone.
    unfold on_cpu in Hone. rewrite Hrq, Hcur in Hone.
    assert (state p = Listo) as Hsp.
    { apply (state_of_place s k p Hq Hp). rewrite Hrq. by left. }
    eapply (WF_move c s _ k p); [done|done|reflexivity..|by rewrite Hsp|done| | |].
    + intros j Hj. fields. rewrite Hrq, Hcur. counts.
    + counts.
    + done.
Qed.

(** *** [freeMemoryAndAwaken] *)
Lemma set_memoryManager_id s : set_memoryManager (memoryManager s) s = s.
Proof. by destruct s. Qed.

Lemma awaken_loop_currentRunning toTry : ∀ s,
  currentRunning (awaken_loop toTry s) = currentRunning s.
Proof.
  induction toTry as [|w rest IH]; intros s; [done|]. simpl.
  destruct (processes s !! w) as [p|]; [|by rewrite IH].
  destruct (firstFitAllocateN _ _ _) as [[b|] mm]; [by rewrite IH|done].
Qed.

Lemma awaken_loop_WF c toTry : ∀ s,
  WF_except c s → waitingForMem s = toTry →
  (∀ k, c = Some k → k ∉ toTry) →
  WF_except c (awaken_loop toTry s).
Proof.
  induction toTry as [|w rest IH]; intros s Hwf Hw Hc; [done|]. simpl.
  pose proof Hwf as (Hq & [Hal Hrel Hwt Hho Hreq] & Hinv & Hsum).
  destruct (waiting_live s w Hq) as [p Hp]; [rewrite Hw; by left|].
  rewrite Hp.
  destruct (wf_pid s Hq w p Hp) as [Hpid _].
  assert (state p = EsperandoMem) as Hst.
  { apply (state_of_place s w p Hq Hp). rewrite Hw. by left. }
  assert (c ≠ Some w) as Hcw.
  { intros ->. apply (Hc w eq_refl). by left. }
  assert (Alloc.allocs (memoryManager s) !! w = None) as Hnone.
  { rewrite (Hal w Hcw), Hp. simpl. by rewrite (Hwt w p Hp Hst). }
  rewrite Hpid.
  pose proof (allocN_step w (memReq p) (memoryManager s) Hinv Hsum Hnone (Hreq w p Hp))
    as (Hinv' & Hsum' & Hres).
  destruct (firstFitAllocateN w (memReq p) (memoryManager s)) as [[b|] mm]; simpl in *.
  - pose proof (live_elsewhere s w Hq (mk_is_Some _ _ Hp)) as Hone.
    rewrite Hw in Hone.
    apply IH.
    + split_and!.
      * eapply (queues_wf_change s _ w (Some _)); [done|reflexivity|..].
        -- intros j Hj. fields. rewrite Hw, remove_first_head. counts.
        -- cbn. lia.
        -- destruct (wf_pid s Hq w p Hp). split_and!; [done|done|..].
           ++ unfold occurrences, on_cpu in *. fields. rewrite Hw, remove_first_head.
              counts.
           ++ counts.
      * destruct Hres as [Hres Hsize]. split; cbn.
        -- intros k Hk. rewrite Hres, !lookup_insert. case_decide; [done|].
           by apply Hal.
        -- intros k Hk. rewrite Hres, lookup_insert_ne; [by apply Hrel|].
           intros ->. by subst c.
        -- intros k q. rewrite lookup_insert. case_decide; [|by apply Hwt].
           by intros [= <-].
        -- intros k q. rewrite lookup_insert. case_decide; [|by apply Hho].
           intros [= <-] _. by exists b.
        -- intros k q. rewrite lookup_insert. case_decide; [|by apply Hreq].
           intros [= <-]. exact (Hreq w p Hp).
      * by split.
    + cbn. by rewrite Hw, remove_first_head.
    + intros k Hk Hin. apply (Hc k Hk). by right.
  - subst mm. by rewrite set_memoryManager_id.
Qed.


(** *** Fields that well-formedness does not read *)
Lemma WF_except_ext c s s' :
  processes s' = processes s → readyQueue s' = readyQueue s →
  ioQueue s' = ioQueue s → waitingForMem s' = waitingForMem s →
  currentRunning s' = currentRunning s → PID_COUNTER s' = PID_COUNTER s →
  memoryManager s' = memoryManager s →
  WF_except c s → WF_except c s'.
Proof.
  intros Hp Hr Hi Hw Hc Hn Hm (Hq & [Hal Hrel Hwt Hho Hreq] & Ha). split_and!.
  - by eapply queues_wf_ext.
  - split; rewrite ?Hp, ?Hm; done.
  - unfold allocator_wf. by rewrite Hm.
Qed.

(** *** The execution block *)
Lemma terminate_WF s cur :
  WF_except (Some cur) s → currentRunning s = Some cur →
  ∃ s', final (terminateProcess cur (set_currentRunning None s)) = s'
    ∧ WF s'
    ∧ processes s' = delete cur (processes s)
    ∧ readyQueue s' = readyQueue s ∧ ioQueue s' = ioQueue s
    ∧ waitingForMem s' = waitingForMem s ∧ currentRunning s' = None
    ∧ memoryManager s' = memoryManager s
    ∧ completedProcesses s' = completedProcesses s + 1.
Proof.
  intros Hwf Hcur. pose proof Hwf as (Hq & [Hal Hrel Hwt Hho Hreq] & Hinv & Hsum).
  destruct (running_live s cur Hq Hcur) as [p Hp].
  unfold terminateProcess, terminateProcess_with.
  cbn [processes set_currentRunning]. rewrite Hp.
  change (processMemoryQueue_with MemoryManager_alloc) with processMemoryQueue.
  rewrite processMemoryQueue_final.
  assert (Alloc.freeAlloc cur (memoryManager s) = memoryManager s) as Hnoop.
  { unfold Alloc.freeAlloc. by rewrite (Hrel cur eq_refl). }
  pose proof (live_elsewhere s cur Hq (mk_is_Some _ _ Hp)) as Hone.
  unfold on_cpu in Hone. rewrite decide_True in Hone by done.
  assert ((if truthy (memBlock p)
           then set_memoryManager
                  (Alloc.freeAlloc cur (memoryManager (set_currentRunning None s)))
                  (set_currentRunning None s)
           else set_currentRunning None s) = set_currentRunning None s) as ->.
  { destruct (truthy _); [|done]. cbn [memoryManager set_currentRunning].
    rewrite Hnoop. by destruct s. }
  eexists. split; [reflexivity|].
  split_and!; try done.
  split_and!.
  - eapply (queues_wf_change s _ cur None); [done|reflexivity|..].
    + intros j Hj. fields. rewrite Hcur. counts.
    + fields. lia.
    + unfold occurrences, on_cpu. fields. rewrite decide_False by done. lia.
  - split; fields.
    + intros k _. destruct (decide (k = cur)) as [->|Hne].
      * by rewrite (Hrel cur eq_refl), lookup_delete_eq.
      * rewrite lookup_delete_ne by done. apply Hal. congruence.
    + done.
    + intros k q [_ Hk]%lookup_delete_Some. by apply (Hwt k).
    + intros k q [_ Hk]%lookup_delete_Some. by apply (Hho k).
    + intros k q [_ Hk]%lookup_delete_Some. by apply (Hreq k).
  - done.
Qed.


Lemma processMemoryQueue_outcome s :
  processMemoryQueue s
  = match waitingForMem s with [] => Returned s | _ :: _ => Threw s end.
Proof.
  unfold processMemoryQueue, processMemoryQueue_with.
  destruct (waitingForMem s) as [|w rest] eqn:Hw; [done|].
  cbn [length processMemoryQueue_loop]. by destruct (_ ≫= _).
Qed.

Lemma terminateProcess_throws k s :
  is_Some (processes s !! k) → throws_only_waiting (terminateProcess k s).
Proof.
  intros [p Hp]. unfold terminateProcess, terminateProcess_with. rewrite Hp.
  change (processMemoryQueue_with MemoryManager_alloc) with processMemoryQueue.
  rewrite processMemoryQueue_outcome.
  match goal with |- context [waitingForMem ?x] =>
    destruct (waitingForMem x) eqn:Hw'; [done|]
  end.
  unfold throws_only_waiting. by rewrite Hw'.
Qed.

Lemma tick_execute_WF cfg d s :
  WF s →
  WF (final (tick_execute_with cfg MemoryManager_alloc d s))
  ∧ throws_only_waiting (tick_execute_with cfg MemoryManager_alloc d s).
Proof.
  intros Hwf. pose proof Hwf as (Hq & _ & _). unfold tick_execute_with.
  destruct (currentRunning s) as [cur|] eqn:Hcur; [|done].
  destruct (running_live s cur Hq Hcur) as [p Hp]. rewrite Hp.
  destruct (wf_pid s Hq cur p Hp) as [Hpid _].
  pose proof (live_elsewhere s cur Hq (mk_is_Some _ _ Hp)) as Hone.
  unfold on_cpu in Hone. rewrite decide_True in Hone by done.
  assert (state p = Ejecutando) as Hsp by (by apply (state_of_place s cur p Hq Hp)).
  destruct (io d) as [dur|].
  { split; [|done]. cbn [final pid set_ioRemaining set_state]. rewrite Hpid.
    eapply (WF_move None s _ cur p); [done|done|reflexivity..|by rewrite Hsp|done| | |].
    - intros j Hj. fields. rewrite Hcur. counts.
    - counts.
    - counts. }
  set (p1 := set_quantumLeft _ _).
  set (s1 := set_processes (<[cur := p1]> (processes s)) s).
  assert (WF s1) as Hwf1 by (by eapply WF_update).
  assert (processes s1 !! cur = Some p1) as Hp1 by apply lookup_insert_eq.
  change (pid p1) with (pid p). rewrite Hpid.
  change (remainingCpu p1) with (js_sub (remainingCpu p) (Num 1)).
  change (quantumLeft p1) with (quantumLeft p - 1).
  destruct (js_le _ _).
  - (* the burst is over *)
    change (terminateProcess_with MemoryManager_alloc) with terminateProcess.
    pose proof Hwf1 as (Hq1 & [Hal Hrel Hwt Hho Hreq] & Hinv & Hsum).
    destruct (freeAlloc_step cur (memoryManager s1) Hinv Hsum) as (Hinv' & Hsum' & Hdel).
    assert (WF_except (Some cur)
              (set_memoryManager (Alloc.freeAlloc cur (memoryManager s1)) s1)) as Hfreed.
    { split_and!.
      - by apply (queues_wf_ext s1).
      - split; fields.
        + intros k Hk. rewrite Hdel, lookup_delete_ne by congruence. by apply Hal.
        + intros k [= <-]. rewrite Hdel. apply lookup_delete_eq.
        + done.
        + done.
        + done.
      - by split. }
    assert (WF_except (Some cur) (freeMemoryAndAwaken cur s1)) as Haw.
    { unfold freeMemoryAndAwaken. apply awaken_loop_WF; [done|done|].
      intros k [= <-] Hin%count_elem_of. unfold s1 in Hin. fields. lia. }
    assert (currentRunning (freeMemoryAndAwaken cur s1) = Some cur) as Hcur2.
    { unfold freeMemoryAndAwaken. by rewrite awaken_loop_currentRunning. }
    destruct (terminate_WF _ cur Haw Hcur2) as (s' & Hs' & Hwf' & _).
    split; [by rewrite Hs'|].
    apply terminateProcess_throws. fields.
    apply (running_live _ cur); [by destruct Haw|done].
  - split; [|by destruct (_ && _); [|case_bool_decide]].
    destruct (_ && _).
    + cbn [final].
      eapply (WF_move None s1 _ cur p1);
        [done|done|reflexivity..|by unfold p1; cbn; rewrite Hsp|done| | |].
      * intros j Hj. unfold s1. fields. rewrite Hcur. counts.
      * unfold s1. counts.
      * unfold s1. counts.
    + case_bool_decide; cbn [final]; [|done].
      by eapply WF_update.
Qed.

(** *** The memory-retry loop and the whole tick *)
Lemma tick_retry_WF s :
  queues_wf s →
  tick_retry_with MemoryManager_alloc s
  = match waitingForMem s with [] => Returned s | _ :: _ => Threw s end.
Proof.
  intros Hq. unfold tick_retry_with.
  destruct (waitingForMem s) as [|w rest] eqn:Hw using rev_ind; [done|].
  clear IHrest. rewrite length_app. simpl. rewrite Nat.add_1_r.
  cbn [tick_retry_loop]. rewrite Hw, list_lookup_middle by done. simpl.
  destruct (waiting_live s w Hq) as [p Hp].
  { rewrite Hw. apply elem_of_app. right. by left. }
  rewrite Hp. by destruct rest.
Qed.


Lemma tick_WF cfg d s :
  WF s →
  match spawn d with Some (m, _) => 0 < m | None => True end →
  WF (final (tick cfg d s))
  ∧ match tick cfg d s with
    | Returned s' => waitingForMem s' = []
    | Threw s' => waitingForMem s' ≠ []
    end.
Proof.
  intros Hwf Hdraw. unfold tick, tick_with, tick_phases_with.
  assert (WF (set_tickCount (tickCount s + 1) s)) as Hwf0.
  { by apply (WF_except_ext None s). }
  assert (WF (maybeCreateRandomProcess cfg d (set_tickCount (tickCount s + 1) s)))
    as Hwf1.
  { unfold maybeCreateRandomProcess. destruct (spawn d) as [[m c]|]; [|done].
    by apply (spawn_WF cfg (Num m) (Num c)). }
  set (s1 := maybeCreateRandomProcess cfg d _) in *.
  pose proof (tick_io_loop_WF cfg None (length (ioQueue s1)) s1 Hwf1) as Hwf2.
  set (s2 := tick_io_loop cfg _ s1) in *.
  destruct (schedule_WF cfg None s2 Hwf2) as (s3 & -> & Hwf3).
  cbn [and_then].
  destruct (tick_execute_WF cfg d s3 Hwf3) as [Hwf4 Hthrow].
  destruct (tick_execute_with cfg MemoryManager_alloc d s3) as [s4|s4];
    cbn [and_then final] in *; [|done].
  rewrite tick_retry_WF by (by destruct Hwf4).
  destruct (waitingForMem s4) eqn:Hw; cbn [final]; by rewrite Hw.
Qed.

(** *** Events *)
Lemma reset_WF s : 0 < Alloc.total (memoryManager s) → WF (resetSimulation s).
Proof.
  intros Htot. split_and!.
  - split; cbn; intros; by rewrite ?lookup_empty in *.
  - split; cbn; intros; by rewrite ?lookup_empty in *.
  - split; cbn.
    + by apply (AllocFacts.new_Inv (Alloc.total (memoryManager s))).
    + apply (AllocFacts.new_conserved (Alloc.total (memoryManager s))).
Qed.

Lemma initial_WF cfg : 0 < MEM_TOTAL cfg → WF (initial cfg).
Proof.
  intros Htot. split_and!.
  - split; cbn; intros; by rewrite ?lookup_empty in *.
  - split; cbn; intros; by rewrite ?lookup_empty in *.
  - split; cbn.
    + by apply AllocFacts.new_Inv.
    + apply AllocFacts.new_conserved.
Qed.

Lemma createManualProcess_WF cfg m c s :
  0 < MIN_PROC_MEM cfg → WF s → WF (createManualProcess cfg m c s).
Proof.
  intros Hmin Hwf. unfold createManualProcess.
  destruct (js_lt m _ || js_gt m _) eqn:Hm; [done|].
  destruct (js_lt c _ || js_gt c _); [done|].
  apply (spawn_WF cfg m c); [done|].
  destruct m as [z|]; [|done]. simpl in *.
  apply orb_false_iff in Hm as [Hlo _]. apply bool_decide_eq_false in Hlo. lia.
Qed.

Lemma step_WF cfg e s :
  0 < MIN_PROC_MEM cfg → drawn_in_range cfg e →
  0 < Alloc.total (memoryManager s) →
  WF s → WF (step cfg e s).
Proof.
  intros Hmin He Htot Hwf. destruct e as [d|m c|m c| |]; simpl in *.
  - apply tick_WF; [done|]. destruct (spawn d) as [[m c]|]; [|done].
    unfold in_range in He. lia.
  - apply (spawn_WF cfg (Num m) (Num c)); [done|]. unfold in_range in He. simpl. lia.
  - by apply createManualProcess_WF.
  - by apply reset_WF.
  - revert Hwf. by apply WF_except_ext.
Qed.

Lemma step_capacity cfg e s :
  Alloc.total (memoryManager (step cfg e s)) = Alloc.total (memoryManager s).
Proof.
  destruct e as [d|m c|m c| |]; simpl.
  - rewrite (tick_frame (λ s, Alloc.total (memoryManager s))).
    unfold maybeCreateRandomProcess. destruct (spawn d) as [[m c]|]; [|done].
    cbn [newProcess].
    by rewrite (tryAllocateAndEnqueue_frame (λ s, Alloc.total (memoryManager s))).
  - unfold addRandomProcess. cbn [newProcess].
    by rewrite (tryAllocateAndEnqueue_frame (λ s, Alloc.total (memoryManager s))).
  - unfold createManualProcess.
    destruct (_ || _); [done|]. destruct (_ || _); [done|]. cbn [newProcess].
    by rewrite (tryAllocateAndEnqueue_frame (λ s, Alloc.total (memoryManager s))).
  - done.
  - done.
Qed.

Lemma run_events_snoc cfg es e s :
  run_events cfg (es ++ [e]) s = step cfg e (run_events cfg es s).
Proof. unfold run_events. by rewrite foldl_snoc. Qed.

Lemma run_events_capacity cfg es s :
  Alloc.total (memoryManager (run_events cfg es s)) = Alloc.total (memoryManager s).
Proof.
  induction es as [|e es IH] using rev_ind; [done|].
  by rewrite run_events_snoc, step_capacity.
Qed.

Lemma reachable_WF cfg es :
  0 < MEM_TOTAL cfg → 0 < MIN_PROC_MEM cfg →
  Forall (drawn_in_range cfg) es →
  WF (run_events cfg es (initial cfg)).
Proof.
  intros Htot Hmin. induction es as [|e es IH] using rev_ind; intros Hes.
  - by apply initial_WF.
  - apply Forall_app in Hes as [Hes He]. apply Forall_cons in He as [He _].
    rewrite run_events_snoc. apply step_WF; [done|done| |by apply IH].
    by rewrite run_events_capacity.
Qed.

End SimInv.

Module SimReach.
Import Sim Props SimFacts SimMore SimInv.

Lemma NoDup_count (l : list Z) : (∀ k, (count k l ≤ 1)%nat) → NoDup l.
Proof.
  induction l as [|x r IH]; intros Hc; [constructor|].
  apply NoDup_cons. split.
  - intros Hin%count_elem_of. specialize (Hc x). rewrite count_cons in Hc.
    rewrite decide_True in Hc by done. lia.
  - apply IH. intros k. specialize (Hc k). rewrite count_cons in Hc. lia.
Qed.

Lemma count_places s k : count k (places s) = occurrences s k.
Proof.
  unfold places, occurrences, on_cpu. rewrite !count_app.
  destruct (currentRunning s) as [cur|].
  - change (option_list (Some cur)) with [cur]. rewrite count_cons, count_nil.
    destruct (decide (cur = k)), (decide (Some cur = Some k)); (congruence || lia).
  - change (option_list None) with (@nil Z). rewrite count_nil.
    destruct (decide (@None Z = Some k)); [done|lia].
Qed.

Lemma WF_places s :
  queues_wf s →
  NoDup (places s)
  ∧ (∀ k, k ∈ places s ↔ is_Some (processes s !! k))
  ∧ (∀ k p, processes s !! k = Some p →
       pid p = k ∧ k < PID_COUNTER s
       ∧ match state p with
         | Listo => k ∈ readyQueue s
         | Bloqueado => k ∈ ioQueue s
         | EsperandoMem => k ∈ waitingForMem s
         | Ejecutando => currentRunning s = Some k
         | Nuevo => False
         end).
Proof.
  intros Hq. pose proof Hq as [Hpid Hocc Hst]. split_and!.
  - apply NoDup_count. intros k. rewrite count_places, Hocc.
    destruct (processes s !! k); lia.
  - intros k. rewrite <- count_elem_of, count_places, Hocc.
    destruct (processes s !! k); split; (lia || by eexists || by intros [? ?]).
  - intros k p Hp. destruct (Hpid k p Hp). split_and!; [done..|].
    specialize (Hst k p Hp). unfold placed in Hst.
    destruct (state p); rewrite <- ?count_elem_of; done.
Qed.

(** X7: in every state that the page can reach from the initial one
    (ticks with any draws inside the configured ranges, thrown or not,
    manual and random creations, resets), the ready queue, the I/O queue,
    the memory queue and the CPU partition the process table: no pid
    occurs twice in them, a pid occurs in them exactly when it has a
    process, each process is stored under its own pid, below the pid
    counter, and is in the place its state names.  In particular no queue
    ever holds a stale entry. *)
Theorem reachable_places cfg es :
  0 < MEM_TOTAL cfg → 0 < MIN_PROC_MEM cfg →
  Forall (drawn_in_range cfg) es →
  let s := run_events cfg es (initial cfg) in
  NoDup (places s)
  ∧ (∀ k, k ∈ places s ↔ is_Some (processes s !! k))
  ∧ (∀ k p, processes s !! k = Some p →
       pid p = k ∧ k < PID_COUNTER s
       ∧ match state p with
         | Listo => k ∈ readyQueue s
         | Bloqueado => k ∈ ioQueue s
         | EsperandoMem => k ∈ waitingForMem s
         | Ejecutando => currentRunning s = Some k
         | Nuevo => False
         end).
Proof.
  intros Htot Hmin Hes s. apply WF_places.
  by destruct (reachable_WF cfg es Htot Hmin Hes).
Qed.

Lemma reachable_places_witness :
  let s := run_events CONFIG sample_events (initial CONFIG) in
  NoDup (places s)
  ∧ (∀ k, k ∈ places s ↔ is_Some (processes s !! k))
  ∧ (∀ k p, processes s !! k = Some p →
       pid p = k ∧ k < PID_COUNTER s
       ∧ match state p with
         | Listo => k ∈ readyQueue s
         | Bloqueado => k ∈ ioQueue s
         | EsperandoMem => k ∈ waitingForMem s
         | Ejecutando => currentRunning s = Some k
         | Nuevo => False
         end).
Proof.
  apply (reachable_places CONFIG sample_events).
  - vm_compute; reflexivity.
  - vm_compute; reflexivity.
  - unfold sample_events, drawn_in_range, in_range.
    repeat constructor; vm_compute; discriminate.
Defined.

(** X8: in every reachable state the allocator and the process table
    agree: free space plus allocated space is [MEM_TOTAL], allocated and
    free regions are pairwise disjoint, the allocation map holds exactly
    the blocks of the live processes (the block of a terminated process is
    gone), a waiting process holds no block and every other process holds
    a block of the size it requires. *)
Theorem reachable_memory cfg es :
  0 < MEM_TOTAL cfg → 0 < MIN_PROC_MEM cfg →
  Forall (drawn_in_range cfg) es →
  let s := run_events cfg es (initial cfg) in
  let m := memoryManager s in
  Alloc.freeSpace m + Alloc.allocatedSpace m = MEM_TOTAL cfg
  ∧ Alloc.regions_disjoint m
  ∧ (∀ k b, Alloc.allocs m !! k = Some b
            ↔ ∃ p, processes s !! k = Some p ∧ memBlock p = MemBlk b)
  ∧ (∀ k p, processes s !! k = Some p →
       match state p with
       | EsperandoMem => memBlock p = MemNull
       | _ => ∃ b, memBlock p = MemBlk b ∧ memReq p = Num b.2
       end).
Proof.
  intros Htot Hmin Hes s m.
  destruct (reachable_WF cfg es Htot Hmin Hes)
    as (_ & [Hal _ Hwt Hho _] & Hinv & Hsum).
  fold s in Hal, Hwt, Hho, Hinv, Hsum. fold m in Hal, Hinv, Hsum.
  split_and!.
  - rewrite Hsum. unfold m, s. by rewrite run_events_capacity.
  - by apply AllocFacts.Inv_regions_disjoint.
  - intros k b. rewrite Hal by done. split.
    + destruct (processes s !! k) as [p|]; [|done]. simpl.
      destruct (memBlock p) eqn:Hb; try done. intros [= ->]. by exists p.
    + intros (p & -> & Hb). simpl. by rewrite Hb.
  - intros k p Hp. destruct (state p) eqn:Hs; (by apply (Hwt k)) || (apply (Hho k); congruence).
Qed.

Lemma reachable_memory_witness :
  let s := run_events CONFIG sample_events (initial CONFIG) in
  let m := memoryManager s in
  Alloc.freeSpace m + Alloc.allocatedSpace m = MEM_TOTAL CONFIG
  ∧ Alloc.regions_disjoint m
  ∧ (∀ k b, Alloc.allocs m !! k = Some b
            ↔ ∃ p, processes s !! k = Some p ∧ memBlock p = MemBlk b)
  ∧ (∀ k p, processes s !! k = Some p →
       match state p with
       | EsperandoMem => memBlock p = MemNull
       | _ => ∃ b, memBlock p = MemBlk b ∧ memReq p = Num b.2
       end).
Proof.
  apply (reachable_memory CONFIG sample_events).
  - vm_compute; reflexivity.
  - vm_compute; reflexivity.
  - unfold sample_events, drawn_in_range, in_range.
    repeat constructor; vm_compute; discriminate.
Defined.

(** X9: in a reachable state, [tick] returns exactly when no process is
    waiting for memory once it is over: neither [schedule] nor the
    execution block can fail on a missing process, and the only throw
    left is the call of the missing [alloc] method, made whenever an entry
    of [waitingForMem] is retried. *)
Theorem tick_returns_iff_no_waiter cfg es d :
  0 < MEM_TOTAL cfg → 0 < MIN_PROC_MEM cfg →
  Forall (drawn_in_range cfg) es →
  drawn_in_range cfg (ETick d) →
  let s := run_events cfg es (initial cfg) in
  (∃ s', tick cfg d s = Returned s') ↔ waitingForMem (final (tick cfg d s)) = [].
Proof.
  intros Htot Hmin Hes Hd s.
  pose proof (reachable_WF cfg es Htot Hmin Hes) as Hwf. fold s in Hwf.
  destruct (tick_WF cfg d s Hwf) as [_ Hout].
  { simpl in Hd. destruct (spawn d) as [[m c]|]; [|done]. unfold in_range in Hd. lia. }
  destruct (tick cfg d s) as [s'|s']; simpl.
  - split; [done|]. by eexists.
  - split; [by intros [? ?]|done].
Qed.

Lemma tick_returns_iff_no_waiter_witness :
  let s := run_events CONFIG sample_events (initial CONFIG) in
  (∃ s', tick CONFIG (spawning 20 3) s = Returned s')
  ↔ waitingForMem (final (tick CONFIG (spawning 20 3) s)) = [].
Proof.
  apply (tick_returns_iff_no_waiter CONFIG sample_events (spawning 20 3)).
  - vm_compute; reflexivity.
  - vm_compute; reflexivity.
  - unfold sample_events, drawn_in_range, in_range.
    repeat constructor; vm_compute; discriminate.
  - vm_compute. split; discriminate.
Defined.

Lemma awaken_loop_completedProcesses toTry : ∀ s,
  completedProcesses (awaken_loop toTry s) = completedProcesses s.
Proof.
  induction toTry as [|w rest IH]; intros s; [done|]. simpl.
  destruct (processes s !! w) as [p|]; [|by rewrite IH].
  destruct (firstFitAllocateN _ _ _) as [[b|] mm]; [by rewrite IH|done].
Qed.

(** X10: the end of a burst.  In a well-formed state, when the running
    process executes its last unit, the execution block of [tick] removes
    it from the process table and from every place, releases its block,
    counts one more completed process and leaves the CPU idle; the state is
    well-formed again, whether or not [terminateProcess] then throws. *)
Theorem burst_end cfg d s cur p :
  WF s →
  currentRunning s = Some cur → processes s !! cur = Some p →
  io d = None →
  js_le (js_sub (remainingCpu p) (Num 1)) (Num 0) = true →
  let s' := final (tick_execute_with cfg MemoryManager_alloc d s) in
  processes s' !! cur = None
  ∧ Alloc.allocs (memoryManager s') !! cur = None
  ∧ (cur ∉ places s')
  ∧ currentRunning s' = None
  ∧ completedProcesses s' = completedProcesses s + 1
  ∧ WF s'.
Proof.
  intros Hwf Hcur Hp Hio Hend s'.
  destruct (tick_execute_WF cfg d s Hwf) as [Hwf' _]. fold s' in Hwf'.
  pose proof Hwf as (Hq & _ & _).
  destruct (wf_pid s Hq cur p Hp) as [Hpid _].
  assert (processes s' !! cur = None
          ∧ currentRunning s' = None
          ∧ completedProcesses s' = completedProcesses s + 1) as (Hgone & Hidle & Hdone).
  { unfold s', tick_execute_with. rewrite Hcur, Hp, Hio.
    cbn [remainingCpu set_quantumLeft set_remainingCpu pid]. rewrite Hend, Hpid.
    set (s1 := set_processes _ s).
    assert (WF s1) as Hwf1 by (by eapply WF_update).
    pose proof Hwf1 as (Hq1 & Hm1 & Hinv & Hsum).
    destruct (freeAlloc_step cur (memoryManager s1) Hinv Hsum) as (Hinv' & Hsum' & Hdel).
    assert (WF_except (Some cur) (freeMemoryAndAwaken cur s1)) as Haw.
    { unfold freeMemoryAndAwaken. apply awaken_loop_WF; [|done|].
      - destruct Hm1 as [Hal Hrel Hwt Hho Hreq]. split_and!.
        + by apply (queues_wf_ext s1).
        + split; fields; try done.
          * intros k Hk. rewrite Hdel, lookup_delete_ne by congruence. by apply Hal.
          * intros k [= <-]. rewrite Hdel. apply lookup_delete_eq.
        + by split.
      - intros k [= <-] Hin%count_elem_of.
        pose proof (live_elsewhere s cur Hq (mk_is_Some _ _ Hp)) as Hone.
        unfold on_cpu in Hone. rewrite decide_True in Hone by done.
        unfold s1 in Hin. fields. lia. }
    assert (currentRunning (freeMemoryAndAwaken cur s1) = Some cur) as Hcur2.
    { unfold freeMemoryAndAwaken. rewrite awaken_loop_currentRunning. done. }
    change (terminateProcess_with MemoryManager_alloc) with terminateProcess.
    destruct (terminate_WF _ cur Haw Hcur2)
      as (s2 & -> & _ & Hproc & _ & _ & _ & Hc2 & _ & Hcomp).
    split_and!.
    - rewrite Hproc. apply lookup_delete_eq.
    - done.
    - rewrite Hcomp. unfold freeMemoryAndAwaken.
      by rewrite awaken_loop_completedProcesses. }
  pose proof Hwf' as (Hq' & [Hal' _ _ _ _] & _).
  split_and!; [done| | |done..].
  - rewrite Hal' by done. by rewrite Hgone.
  - destruct (WF_places s' Hq') as (_ & Hlive & _). rewrite Hlive, Hgone.
    by intros [? ?].
Qed.

Lemma burst_end_witness :
  let s' := final (tick_execute_with CONFIG MemoryManager_alloc quiet last_unit) in
  processes s' !! 1 = None
  ∧ Alloc.allocs (memoryManager s') !! 1 = None
  ∧ (1 ∉ places s')
  ∧ currentRunning s' = None
  ∧ completedProcesses s' = completedProcesses last_unit + 1
  ∧ WF s'.
Proof.
  apply (burst_end CONFIG quiet last_unit 1
           (mkProcess 1 (Num 100) (Num 3) (Num 1) Ejecutando (MemBlk (0, 100)) 3 0)).
  - apply (reachable_WF CONFIG last_unit_events).
    + vm_compute; reflexivity.
    + vm_compute; reflexivity.
    + unfold last_unit_events, drawn_in_range, in_range.
      repeat constructor; vm_compute; discriminate.
  - vm_compute; reflexivity.
  - vm_compute; reflexivity.
  - reflexivity.
  - vm_compute; reflexivity.
Defined.

(** X11: [resetSimulation] after anything the page can do gives the
    initial state back: all counters, queues and tables are cleared and
    the free list is again the single interval of [MEM_TOTAL]. *)
Theorem reset_restores_initial cfg es :
  resetSimulation (run_events cfg es (initial cfg)) = initial cfg.
Proof.
  unfold resetSimulation. rewrite run_events_capacity. reflexivity.
Qed.

End SimReach.

Module SimOrder.
Import Sim Props SimFacts SimMore.

Lemma pushes_refl s : pushes s s.
Proof. split; [done|]. exists []. by rewrite app_nil_r. Qed.

Lemma pushes_trans s1 s2 s3 : pushes s1 s2 → pushes s2 s3 → pushes s1 s3.
Proof.
  intros [Hc1 [a1 H1]] [Hc2 [a2 H2]]. split; [congruence|].
  exists (a1 ++ a2). by rewrite H2, H1, <- app_assoc.
Qed.

Lemma tryAllocateAndEnqueue_pushes p s s0 :
  currentRunning s = currentRunning s0 → readyQueue s = readyQueue s0 →
  pushes s0 (tryAllocateAndEnqueue p s).
Proof.
  intros Hc Hr. unfold tryAllocateAndEnqueue.
  destruct (firstFitAllocateN _ _ _) as [[b|] mm]; (split; [by destruct s|]).
  - exists [pid p]. destruct s; simpl in *. by rewrite Hr.
  - exists []. destruct s; simpl in *. by rewrite app_nil_r.
Qed.

Lemma maybeCreateRandomProcess_pushes cfg d s :
  pushes s (maybeCreateRandomProcess cfg d s).
Proof.
  unfold maybeCreateRandomProcess.
  destruct (spawn d) as [[m c]|]; [|apply pushes_refl].
  cbn [newProcess]. apply tryAllocateAndEnqueue_pushes; by destruct s.
Qed.

Lemma tick_io_loop_pushes cfg n : ∀ s, pushes s (tick_io_loop cfg n s).
Proof.
  induction n as [|i IH]; intros s; [apply pushes_refl|]. simpl.
  destruct (ioQueue s !! i) as [k|]; [|apply IH].
  destruct (processes s !! k) as [p|].
  - cbn [ioRemaining set_ioRemaining]. case_bool_decide.
    + eapply pushes_trans; [|apply IH]. split; [by destruct s|].
      exists [k]. by destruct s.
    + eapply pushes_trans; [|apply IH]. split; [by destruct s|].
      exists []. destruct s; simpl. by rewrite app_nil_r.
  - eapply pushes_trans; [|apply IH]. split; [by destruct s|].
    exists []. destruct s; simpl. by rewrite app_nil_r.
Qed.

Lemma schedule_takes_head cfg s :
  let s' := final (schedule cfg s) in
  readyQueue s'
  = drop (if currentRunning s is None then 1 else 0)%nat (readyQueue s)
  ∧ currentRunning s'
    = match currentRunning s with
      | None => head (readyQueue s)
      | Some cur => Some cur
      end.
Proof.
  unfold schedule.
  destruct (currentRunning s) as [cur|] eqn:Hc, (readyQueue s) as [|k rest] eqn:Hr;
    simpl.
  - destruct (processes s !! cur); simpl; by destruct s; simpl in *; subst.
  - by rewrite Hr, Hc.
  - by rewrite Hr, Hc.
  - destruct (processes s !! k); simpl; by destruct s.
Qed.

Lemma awaken_loop_pushes toTry : ∀ s,
  ∃ added, readyQueue (awaken_loop toTry s) = readyQueue s ++ added.
Proof.
  induction toTry as [|w rest IH]; intros s; simpl.
  { exists []. by rewrite app_nil_r. }
  destruct (processes s !! w) as [p|].
  - destruct (firstFitAllocateN _ _ _) as [[b|] mm].
    + destruct (IH (set_readyQueue (readyQueue s ++ [w])
                      (set_waitingForMem (remove_first w (waitingForMem s))
                         (set_processes
                            (<[w:=set_state Listo (set_memBlock (MemBlk b) p)]>
                               (processes s))
                            (set_memoryManager mm s))))) as [a Ha].
      exists (w :: a). rewrite Ha. destruct s; simpl. by rewrite <- app_assoc.
    + exists []. destruct s; simpl. by rewrite app_nil_r.
  - destruct (IH (set_waitingForMem (remove_first w (waitingForMem s)) s)) as [a Ha].
    exists a. rewrite Ha. by destruct s.
Qed.

Lemma terminateProcess_readyQueue k s :
  readyQueue (final (terminateProcess k s)) = readyQueue s.
Proof.
  unfold terminateProcess, terminateProcess_with.
  destruct (processes s !! k) as [p|]; [|done].
  change (processMemoryQueue_with MemoryManager_alloc) with processMemoryQueue.
  rewrite processMemoryQueue_final.
  destruct (truthy (memBlock p)); by destruct s.
Qed.

Lemma tick_execute_pushes cfg d s :
  ∃ added,
    readyQueue (final (tick_execute_with cfg MemoryManager_alloc d s))
    = readyQueue s ++ added.
Proof.
  unfold tick_execute_with.
  destruct (currentRunning s) as [cur|]; [|exists []; by rewrite app_nil_r].
  destruct (processes s !! cur) as [p|];
    [|exists []; destruct s; simpl; by rewrite app_nil_r].
  destruct (io d) as [dur|];
    [exists []; destruct s; simpl; by rewrite app_nil_r|].
  cbn [remainingCpu quantumLeft set_quantumLeft set_remainingCpu pid].
  destruct (js_le _ _).
  - change (terminateProcess_with MemoryManager_alloc) with terminateProcess.
    rewrite terminateProcess_readyQueue. unfold freeMemoryAndAwaken.
    match goal with
    | |- context [awaken_loop ?l ?s1] =>
        destruct (awaken_loop_pushes l s1) as [a Ha]
    end.
    exists a. cbn [set_currentRunning readyQueue].
    destruct s; simpl in *. exact Ha.
  - destruct (_ && _).
    + exists [pid p]. by destruct s.
    + destruct (bool_decide _); exists []; destruct s; simpl; by rewrite app_nil_r.
Qed.

Lemma tick_retry_loop_readyQueue n : ∀ s,
  readyQueue (final (tick_retry_loop MemoryManager_alloc n s)) = readyQueue s.
Proof.
  induction n as [|i IH]; intros s; [done|]. simpl.
  destruct (_ ≫= _); [done|]. rewrite IH. by destruct s.
Qed.

(** X12: round-robin order.  A tick never reorders the ready queue and
    never takes a process out of its middle: the queue after the tick is
    the queue before it, with the pids that the spawn and the I/O loop
    push at its tail, without its head exactly when the CPU was idle (the
    head is what [schedule] dispatches), followed by the pids pushed by the
    execution block.  This holds whether the tick returns or throws. *)
Theorem tick_keeps_ready_order cfg d s :
  ∃ early late,
    readyQueue (final (tick cfg d s))
    = drop (if currentRunning s is None then 1 else 0)%nat
        (readyQueue s ++ early) ++ late.
Proof.
  unfold tick, tick_with, tick_phases_with, tick_retry_with.
  set (s0 := set_tickCount (tickCount s + 1) s).
  set (s1 := maybeCreateRandomProcess cfg d s0).
  set (s2 := tick_io_loop cfg (length (ioQueue s1)) s1).
  assert (pushes s s2) as [Hc [early He]].
  { apply (pushes_trans s s1); [|apply tick_io_loop_pushes].
    apply (pushes_trans s s0); [by split; [|exists []; destruct s; simpl;
      rewrite app_nil_r]|apply maybeCreateRandomProcess_pushes]. }
  destruct (schedule_takes_head cfg s2) as [Hs _]. rewrite Hc, He in Hs.
  exists early.
  destruct (schedule cfg s2) as [s3|s3]; simpl in *.
  - destruct (tick_execute_pushes cfg d s3) as [late Hl].
    exists late.
    destruct (tick_execute_with cfg MemoryManager_alloc d s3) as [s4|s4];
      simpl in *.
    + rewrite tick_retry_loop_readyQueue. by rewrite Hl, Hs.
    + by rewrite Hl, Hs.
  - exists []. by rewrite app_nil_r.
Qed.

End SimOrder.

Module SimFifo.
Import Sim Props SimFacts SimMore SimInv SimReach.












End SimFifo.
